(** * pydash: path tokenizer, lazy chains and function utilities

    A shallow embedding of [pydash/chaining.py] and of the parts of
    [pydash/utilities.py] that deal with deep-path strings ([to_path_tokens],
    [unescape_path_key], [to_path]), with wrapped callables ([attempt],
    [memoize], [retry]), with defaults and lists of functions
    ([default_to_any], [over], [over_every], [over_some], [times]), with
    identifiers ([unique_id]) and with ranges ([range_], [range_right]),
    followed by the properties established about them.

    Python strings are modelled by [string] (code points below 256, on which
    the regex class [\d] is exactly the ten ASCII digits), Python integers by
    [Z], and mutable objects by explicit stores. *)

From Stdlib Require Import ZArith QArith Strings.String Strings.Ascii Lia.
From stdpp Require Import base option list gmap strings pretty.

Set Default Proof Using "Type".
Set Warnings "-register-all".
Local Open Scope Z_scope.
Local Open Scope nat_scope.

(* ===================================================================== *)
(** * Part I: the model *)
(* ===================================================================== *)

(** ** Python values *)

(** An exception instance: the names of its class and of the base classes
    on its method resolution order, and its message. *)
Record exception := mk_exception {
  exc_mro : list string;
  exc_msg : string
}.

(** [isinstance(e, cls)] for an exception instance and a class name. *)
Definition isinstance_exc (e : exception) (cls : string) : bool :=
  bool_decide (cls ∈ exc_mro e).

Definition ValueError (msg : string) : exception :=
  mk_exception ["ValueError"; "Exception"; "BaseException"] msg.
Definition TypeError (msg : string) : exception :=
  mk_exception ["TypeError"; "Exception"; "BaseException"] msg.
Definition AttributeError (msg : string) : exception :=
  mk_exception ["AttributeError"; "Exception"; "BaseException"] msg.

(** Modelled from the spec: [pydash.exceptions] is not in the sources at
    hand; [InvalidMethod] is the exception class of the package for an
    unknown method name, and it carries a message. *)
Definition InvalidMethod (msg : string) : exception :=
  mk_exception ["InvalidMethod"; "Exception"; "BaseException"] msg.

(** The values the modelled functions exchange.  [VUnset] is the sentinel
    [helpers.UNSET]; [VExc] is an exception object used as a value (what
    [attempt] returns); [VObj] is an instance of a user class, identified by
    its allocation number.  Chains and their wrappers are not among these
    values: they live in a store of their own (see [slot] below). *)
Inductive pyval :=
| VNone
| VUnset
| VInt (z : Z)
| VStr (s : string)
| VList (l : list pyval)
| VTuple (l : list pyval)
| VExc (e : exception)
| VObj (id : nat).

(** Keyword arguments, in call order. *)
Abbreviation kwargs := (list (string * pyval)).

(** The outcome of a call: a returned value or a raised exception. *)
Inductive result (A : Type) :=
| Ok (a : A)
| Raise (e : exception).
Arguments Ok {A} a.
Arguments Raise {A} e.

(** ** Characters and string helpers *)

Definition backslash : ascii := "\"%char.
Definition newline : ascii := "010"%char.

(** [\d] on code points below 256. *)
Definition is_digit (c : ascii) : bool :=
  ((48 <=? N_of_ascii c) && (N_of_ascii c <=? 57))%N.

Definition digit_value (c : ascii) : Z := Z.of_N (N_of_ascii c) - 48.

(** [sub in s] for a one-character [sub]. *)
Fixpoint contains_char (c : ascii) (s : string) : bool :=
  match s with
  | "" => false
  | String d r => Ascii.eqb d c || contains_char c r
  end.

(** [s.startswith(p)]. *)
Fixpoint startswith (p s : string) : bool :=
  match p, s with
  | "", _ => true
  | String a p', String b s' => Ascii.eqb a b && startswith p' s'
  | String _ _, "" => false
  end.

(** [str.replace(old, new)] for a non-empty [old]: occurrences are replaced
    from left to right and do not overlap; [skip] counts the characters of an
    occurrence that are still to be passed over. *)
Fixpoint str_replace_go (old new : string) (skip : nat) (s : string) : string :=
  match s with
  | "" => ""
  | String c r =>
      match skip with
      | S k => str_replace_go old new k r
      | O =>
          if startswith old s
          then new +:+ str_replace_go old new (String.length old - 1) r
          else String c (str_replace_go old new 0 r)
      end
  end.

Definition str_replace (old new s : string) : string :=
  str_replace_go old new 0 s.

(** [key[1:-1]]: the string without its first and its last character. *)
Fixpoint drop_last (s : string) : string :=
  match s with
  | "" => ""
  | String c "" => ""
  | String c r => String c (drop_last r)
  end.

Definition slice_1_m1 (s : string) : string :=
  match s with
  | "" => ""
  | String _ r => drop_last r
  end.

(** The literals [int] is given here: an optional minus sign followed by
    one or more digits, read in base 10.  Anything else is [None]. *)
Fixpoint digits_value (acc : Z) (s : string) : option Z :=
  match s with
  | "" => Some acc
  | String c r =>
      if is_digit c then digits_value (10 * acc + digit_value c) r else None
  end.

Definition int_literal (s : string) : option Z :=
  match s with
  | "" => None
  | String c r =>
      if Ascii.eqb c "-"
      then match r with
           | "" => None
           | _ => Z.opp <$> digits_value 0 r
           end
      else digits_value 0 s
  end.

(** The digits of a literal: the text without its sign. *)
Definition literal_digits (s : string) : string :=
  match s with
  | "" => ""
  | String c r => if Ascii.eqb c "-" then r else s
  end.

(** The default of [sys.get_int_max_str_digits()]. *)
Definition int_max_str_digits : Z := 4300.

(** [int(s)]: the interpreter refuses a literal with more digits than its
    limit, leading zeros counted and the sign not, and raises [ValueError]
    as it does for a text that is no literal. *)
Definition py_int (s : string) : result Z :=
  match int_literal s with
  | None =>
      Raise (ValueError ("invalid literal for int() with base 10: '" +:+ s +:+ "'"))
  | Some n =>
      if (int_max_str_digits <? Z.of_nat (String.length (literal_digits s)))%Z
      then Raise (ValueError
                    ("Exceeds the limit (4300 digits) for integer string conversion: value has "
                     +:+ pretty (String.length (literal_digits s))
                     +:+ " digits; use sys.set_int_max_str_digits() to increase the limit"))
      else Ok n
  end.

(** ** The two regular expressions of [utilities.py]

    [RE_PATH_KEY_DELIM = (?<!\\)(?:\\\\)*\.|(\[-?\d+\])] and
    [RE_PATH_LIST_INDEX = ^\[-?\d+\]$] are run the way a backtracking
    matcher runs them: every greedy repetition first tries one more
    iteration and falls back to the rest of the pattern when that fails.
    A matcher takes the text at the current position and returns the text
    after the match. *)

(** A literal character. *)
Definition lit (c : ascii) (s : string) : option string :=
  match s with
  | String d r => if Ascii.eqb d c then Some r else None
  | "" => None
  end.

(** [(?:\\\\)*\.] : pairs of backslashes, then a dot. *)
Fixpoint bs_pairs_dot (s : string) : option string :=
  match s with
  | String c (String d r) =>
      if Ascii.eqb c backslash && Ascii.eqb d backslash
      then match bs_pairs_dot r with
           | Some rest => Some rest
           | None => lit "." s
           end
      else lit "." s
  | _ => lit "." s
  end.

(** [\d+\]] : returns the matched text as well. *)
Fixpoint digits_close (s : string) : option (string * string) :=
  match s with
  | "" => None
  | String d r =>
      if is_digit d
      then match digits_close r with
           | Some (m, rest) => Some (String d m, rest)
           | None =>
               match lit "]" r with
               | Some rest => Some (String d "]", rest)
               | None => None
               end
           end
      else None
  end.

(** [-?\d+\]] *)
Definition int_close (s : string) : option (string * string) :=
  match
    match s with
    | String c r =>
        if Ascii.eqb c "-"
        then match digits_close r with
             | Some (m, rest) => Some (String c m, rest)
             | None => None
             end
        else None
    | "" => None
    end
  with
  | Some x => Some x
  | None => digits_close s
  end.

(** [(\[-?\d+\])] : the captured text and the text after it. *)
Definition bracket_int (s : string) : option (string * string) :=
  match s with
  | String c r =>
      if Ascii.eqb c "["
      then match int_close r with
           | Some (m, rest) => Some (String c m, rest)
           | None => None
           end
      else None
  | "" => None
  end.

(** One attempt of [RE_PATH_KEY_DELIM] at a position.  [after_bs] tells
    whether the character before the position is a backslash, which is all
    the lookbehind [(?<!\\)] inspects.  The result is group 1 ([None] when
    the first alternative matched) and the text after the match. *)
Definition RE_PATH_KEY_DELIM (after_bs : bool) (s : string)
  : option (option string * string) :=
  match (if after_bs then None else bs_pairs_dot s) with
  | Some rest => Some (None, rest)
  | None =>
      match bracket_int s with
      | Some (g, rest) => Some (Some g, rest)
      | None => None
      end
  end.

(** [RE_PATH_KEY_DELIM.split(value)]: the scanner looks for the leftmost
    match from the current position, emits the text before it and group 1,
    and goes on after the match; the text after the last match is the last
    item.  The result is the first item and the remaining items.  Every
    match consumes a character, so [fuel] above the length of [s] is never
    used up. *)
Fixpoint re_split_go (fuel : nat) (after_bs : bool) (s : string)
  : string * list (option string) :=
  match fuel with
  | O => (s, [])
  | S fuel' =>
      match RE_PATH_KEY_DELIM after_bs s with
      | Some (g, rest) =>
          let '(seg, items) := re_split_go fuel' false rest in
          ("", g :: Some seg :: items)
      | None =>
          match s with
          | "" => ("", [])
          | String c r =>
              let '(seg, items) := re_split_go fuel' (Ascii.eqb c backslash) r in
              (String c seg, items)
          end
      end
  end.

Definition re_split (s : string) : list (option string) :=
  let '(seg, items) := re_split_go (S (String.length s)) false s in
  Some seg :: items.

(** [filter(None, items)]: drops [None] and the empty string. *)
Fixpoint filter_None (items : list (option string)) : list string :=
  match items with
  | [] => []
  | Some (String c r) :: tl => String c r :: filter_None tl
  | _ :: tl => filter_None tl
  end.

(** [RE_PATH_LIST_INDEX.match(key)]: [$] matches at the end of the string
    and also just before a newline that ends it. *)
Definition RE_PATH_LIST_INDEX (key : string) : bool :=
  match bracket_int key with
  | Some (_, rest) =>
      match rest with
      | "" => true
      | String c "" => Ascii.eqb c newline
      | _ => false
      end
  | None => false
  end.

(** ** Path tokens *)

(** The two container factories a token can name: the builtins [list] and
    [dict]. *)
Inductive factory := py_list | py_dict.

(** [PathToken = namedtuple("PathToken", ["key", "default_factory"])] *)
Record PathToken := mk_PathToken {
  key : pyval;
  default_factory : factory
}.

(** What [to_path_tokens] returns: a list of tokens it built, or its
    argument handed back as it came. *)
Inductive path_keys :=
| Tokens (tokens : list PathToken)
| Passthrough (value : pyval).

Definition unescape_path_key (key : string) : string :=
  let key := str_replace "\\" "\" key in
  let key := str_replace "\." "." key in
  key.

(** Modelled from the spec: [pydash.predicates.is_string] and [is_number]
    are not in the sources at hand; they recognise strings and numbers. *)
Definition is_string (value : pyval) : bool :=
  match value with VStr _ => true | _ => false end.
Definition is_number (value : pyval) : bool :=
  match value with VInt _ => true | _ => false end.

(** One element of the list comprehension of [to_path_tokens]. *)
Definition key_token (key : string) : result PathToken :=
  if RE_PATH_LIST_INDEX key
  then match py_int (slice_1_m1 key) with
       | Ok n => Ok (mk_PathToken (VInt n) py_list)
       | Raise e => Raise e
       end
  else Ok (mk_PathToken (VStr (unescape_path_key key)) py_dict).

Fixpoint key_tokens (keys : list string) : result (list PathToken) :=
  match keys with
  | [] => Ok []
  | k :: tl =>
      match key_token k with
      | Ok t =>
          match key_tokens tl with
          | Ok ts => Ok (t :: ts)
          | Raise e => Raise e
          end
      | Raise e => Raise e
      end
  end.

(** The list comprehension of [to_path_tokens]. *)
Definition split_keys (value : string) : result (list PathToken) :=
  key_tokens (filter_None (re_split value)).

Definition to_path_tokens (value : pyval) : result path_keys :=
  match value with
  | VStr s =>
      if contains_char "." s || contains_char "[" s
      then match split_keys s with
           | Ok keys => Ok (Tokens keys)
           | Raise e => Raise e
           end
      else Ok (Tokens [mk_PathToken value py_dict])
  | _ =>
      if is_number value then Ok (Tokens [mk_PathToken value py_dict])
      else match value with
           | VUnset => Ok (Tokens [])
           | _ => Ok (Passthrough value)
           end
  end.

(** [to_path]: the keys of the tokens; a list handed back by
    [to_path_tokens] is read element by element, anything else becomes the
    only element of the path. *)
Definition to_path (value : pyval) : result (list pyval) :=
  match to_path_tokens value with
  | Ok (Tokens tokens) => Ok (key <$> tokens)
  | Ok (Passthrough (VList l)) => Ok l
  | Ok (Passthrough tokens) => Ok [tokens]
  | Raise e => Raise e
  end.

(** ** Notions used to state the properties of the tokenizer *)

(** The text matched by [(?:\\\\)*\.]: backslash pairs, then the dot. *)
Fixpoint bs_pairs (k : nat) : string :=
  match k with
  | O => ""
  | S k' => String backslash (String backslash (bs_pairs k'))
  end.

(** The scanner started in the middle of a string: [ab] tells whether the
    character before [s] is a backslash. *)
Definition re_split_at (ab : bool) (s : string) : list (option string) :=
  let '(seg, items) := re_split_go (S (String.length s)) ab s in
  Some seg :: items.

(** A character put in front of the first item of a split. *)
Definition cons_first (c : ascii) (l : list (option string))
  : list (option string) :=
  match l with
  | Some seg :: items => Some (String c seg) :: items
  | _ => l
  end.

Fixpoint all_digits (s : string) : bool :=
  match s with
  | "" => true
  | String c r => is_digit c && all_digits r
  end.

Definition minus_sign (neg : bool) : string := if neg then "-" else "".

(** The number a string of digits spells, position by position. *)
Fixpoint decimal (ds : string) : Z :=
  match ds with
  | "" => 0
  | String c r => digit_value c * 10 ^ Z.of_nat (String.length r) + decimal r
  end.

Definition signed (neg : bool) (n : Z) : Z := if neg then (- n)%Z else n.

(** [n] times the character [c]. *)
Fixpoint repeat_char (n : nat) (c : ascii) : string :=
  match n with
  | O => ""
  | S n' => String c (repeat_char n' c)
  end.

(** The text [[<optional '-'><digits>]]. *)
Definition bracketed_int (neg : bool) (ds : string) : string :=
  String "[" (minus_sign neg +:+ ds +:+ "]").

(** Whether the character at the end of [s] is a backslash; [ab] answers
    for the empty string. *)
Fixpoint ends_with_backslash (ab : bool) (s : string) : bool :=
  match s with
  | "" => ab
  | String c r => ends_with_backslash (Ascii.eqb c backslash) r
  end.

(** The items of a split: [None], the text before or after a delimiter, on
    which the bracket pattern does not match, or a bracketed integer. *)
Definition item_shape (it : option string) : Prop :=
  match it with
  | None => True
  | Some x =>
      bracket_int x = None ∨
      ∃ neg ds, ds ≠ "" ∧ all_digits ds = true ∧ x = bracketed_int neg ds
  end.

(** An item that is no longer than the longest text [int] accepts between
    brackets. *)
Definition short_item (it : option string) : Prop :=
  match it with
  | Some x => (Z.of_nat (String.length x) <= int_max_str_digits + 2)%Z
  | None => True
  end.

(** [n] backslashes. *)
Fixpoint backslashes (n : nat) : string :=
  match n with
  | O => ""
  | S n' => String backslash (backslashes n')
  end.

(** What the specification says of a sequence of keys: one token per
    element, hinted [list] for an integer and [dict] otherwise. *)
Definition sequence_tokens_spec (keys : list pyval) : list PathToken :=
  (λ k, mk_PathToken k (match k with VInt _ => py_list | _ => py_dict end))
    <$> keys.

(** ** Lazy chains ([chaining.py]) *)

Section chaining.
(** The state of the world outside the chain objects, which the
    pydash functions may read and change. *)
Context {W : Type}.

(** A pydash function as a chain sees it: [f(value, *args, **kargs)]. *)
Definition pyfunc : Type :=
  pyval → list pyval → kwargs → W → result pyval * W.

(** What [getattr(pyd, attr, None)] can find under a name. *)
Inductive attribute :=
| Callable (f : pyfunc)
| NotCallable (v : pyval).

(** Objects live in two stores, addressed by allocation number. *)
Definition loc := nat.

(** The [_value] slot of a [Chain] or a [ChainWrapper]: it holds a plain
    value or a reference to a wrapper, and the test
    [isinstance(self._value, ChainWrapper)] tells the two cases apart. *)
Inductive slot :=
| Plain (v : pyval)
| Wrapper (w : loc).

Record Chain := mk_Chain {
  chain_value : slot
}.

Record ChainWrapper := mk_ChainWrapper {
  wrapper_value : slot;
  method : pyfunc;
  args : list pyval;
  kargs : kwargs
}.

(** One entry of the call log: [method(value, *args, **kargs)] was
    entered. *)
Record invocation := mk_invocation {
  inv_method : pyfunc;
  inv_value : pyval;
  inv_args : list pyval;
  inv_kargs : kwargs
}.

Record store := mk_store {
  chains : gmap loc Chain;
  wrappers : gmap loc ChainWrapper;
  world : W;
  calls : list invocation
}.

(** A computation on the store.  [None] is a failure of the model itself
    (a dangling reference, or [fuel] used up) or a case the model leaves
    undetermined; Python exceptions are [Raise]. *)
Definition M (A : Type) : Type := store → option (result A * store).

#[export] Instance M_ret : MRet M := λ A a σ, Some (Ok a, σ).
#[export] Instance M_bind : MBind M := λ A B k m σ,
  match m σ with
  | Some (Ok a, σ') => k a σ'
  | Some (Raise e, σ') => Some (Raise e, σ')
  | None => None
  end.
Definition raise {A} (e : exception) : M A := λ σ, Some (Raise e, σ).
Definition stuck {A} : M A := λ _, None.

Definition new_Chain (c : Chain) : M loc := λ σ,
  let l := fresh (dom (chains σ)) in
  Some (Ok l, mk_store (<[l := c]> (chains σ)) (wrappers σ) (world σ) (calls σ)).

Definition new_ChainWrapper (w : ChainWrapper) : M loc := λ σ,
  let l := fresh (dom (wrappers σ)) in
  Some (Ok l, mk_store (chains σ) (<[l := w]> (wrappers σ)) (world σ) (calls σ)).

Definition get_Chain (l : loc) : M Chain := λ σ,
  match chains σ !! l with
  | Some c => Some (Ok c, σ)
  | None => None
  end.

Definition get_ChainWrapper (l : loc) : M ChainWrapper := λ σ,
  match wrappers σ !! l with
  | Some w => Some (Ok w, σ)
  | None => None
  end.

Definition set_Chain (l : loc) (c : Chain) : M unit := λ σ,
  Some (Ok tt, mk_store (<[l := c]> (chains σ)) (wrappers σ) (world σ) (calls σ)).

Definition set_ChainWrapper (l : loc) (w : ChainWrapper) : M unit := λ σ,
  Some (Ok tt, mk_store (chains σ) (<[l := w]> (wrappers σ)) (world σ) (calls σ)).

(** Entering [f(value, ...)] with the given positional and keyword
    arguments: the call is logged and [f] runs on the world. *)
Definition call_logged (f : pyfunc) (value : pyval) (a : list pyval) (k : kwargs)
    (w : W) (log : list invocation)
  : result pyval * W * list invocation :=
  let '(r, w') := f value a k w in
  (r, w', log ++ [mk_invocation f value a k]).

Definition invoke (f : pyfunc) (value : pyval) (a : list pyval) (k : kwargs)
  : M pyval := λ σ,
  let '(r, w', log') := call_logged f value a k (world σ) (calls σ) in
  Some (r, mk_store (chains σ) (wrappers σ) w' log').

(** [ChainWrapper.unwrap]; each nested call uses one unit of [fuel]. *)
Fixpoint ChainWrapper_unwrap (fuel : nat) (self : loc) : M pyval :=
  match fuel with
  | O => stuck
  | S fuel' =>
      w ← get_ChainWrapper self;
      value ←
        match wrapper_value w with
        | Wrapper up =>
            v ← ChainWrapper_unwrap fuel' up;
            w ← get_ChainWrapper self;
            set_ChainWrapper self
              (mk_ChainWrapper (Plain v) (method w) (args w) (kargs w));;
            mret v
        | Plain v => mret v
        end;
      w ← get_ChainWrapper self;
      invoke (method w) value (args w) (kargs w)
  end.

(** [ChainWrapper.__call__] *)
Definition ChainWrapper_call (self : loc) (a : list pyval) (k : kwargs)
  : M loc :=
  w ← get_ChainWrapper self;
  set_ChainWrapper self (mk_ChainWrapper (wrapper_value w) (method w) a (kargs w));;
  w ← get_ChainWrapper self;
  set_ChainWrapper self (mk_ChainWrapper (wrapper_value w) (method w) (args w) k);;
  new_Chain (mk_Chain (Wrapper self)).

(** [Chain.value] *)
Definition Chain_value (fuel : nat) (self : loc) : M pyval :=
  c ← get_Chain self;
  match chain_value c with
  | Wrapper w =>
      v ← ChainWrapper_unwrap fuel w;
      set_Chain self (mk_Chain (Plain v));;
      mret v
  | Plain v => mret v
  end.

(** The attributes of the [pydash] package, by name. *)
Context (pyd : string → option attribute).

(** [Chain.__getattr__] *)
Definition Chain_getattr (self : loc) (attr : string) : M loc :=
  match pyd attr with
  | Some (Callable f) =>
      c ← get_Chain self;
      new_ChainWrapper (mk_ChainWrapper (chain_value c) f [] [])
  | _ => raise (InvalidMethod ("Invalid pydash method: " +:+ attr))
  end.

(** Whether a name is a callable of the package. *)
Definition callable_name (attr : string) : bool :=
  match pyd attr with
  | Some (Callable _) => true
  | _ => false
  end.

(** [chain(value)] *)
Definition chain (value : pyval) : M loc := new_Chain (mk_Chain (Plain value)).

(** [self._value.args] of a chain that holds a wrapper. *)
Definition captured_args (self : loc) : M (list pyval) :=
  c ← get_Chain self;
  match chain_value c with
  | Wrapper b => w ← get_ChainWrapper b; mret (args w)
  | Plain _ => stuck
  end.

(** One link of a chain expression, [.name(args, kargs)]. *)
Record link := mk_link {
  link_name : string;
  link_args : list pyval;
  link_kargs : kwargs
}.

(** [Chain.to_string]: [pyd.to_string(self.value())].  The package defines
    [to_string]; a package without it, or where it is not callable, is left
    undetermined. *)
Definition Chain_to_string (fuel : nat) (self : loc) : M pyval :=
  match pyd "to_string" with
  | Some (Callable f) => v ← Chain_value fuel self; invoke f v [] []
  | _ => stuck
  end.

(** What attribute access finds on a chain: one of the two methods of the
    class bound to the chain ([value_of] is [value]), the content of the
    slot [_value], or the wrapper that [__getattr__] returned. *)
Inductive chain_attr :=
| Bound_value (self : loc)
| Bound_to_string (self : loc)
| Instance_value (s : slot)
| Builder (b : loc).

(** Whether normal lookup fails on a name, so that [__getattr__] is called
    with it.  The names the class and the instance define do not reach it.
    Names that begin with two underscores may be found on [object], which
    depends on the interpreter: they are taken not to reach it, and access
    to them is left undetermined. *)
Definition reaches_getattr (attr : string) : bool :=
  negb (String.eqb attr "value") && negb (String.eqb attr "value_of")
  && negb (String.eqb attr "to_string") && negb (String.eqb attr "_value")
  && negb (startswith "__" attr).

(** Attribute access [self.attr] on a chain. *)
Definition Chain_attribute (self : loc) (attr : string) : M chain_attr :=
  if String.eqb attr "value" || String.eqb attr "value_of"
  then mret (Bound_value self)
  else if String.eqb attr "to_string" then mret (Bound_to_string self)
  else if String.eqb attr "_value"
  then c ← get_Chain self; mret (Instance_value (chain_value c))
  else if startswith "__" attr then stuck
  else b ← Chain_getattr self attr; mret (Builder b).

(** What an expression evaluates to: a chain, or a value that is not one. *)
Inductive object :=
| A_chain (c : loc)
| A_value (v : pyval).

(** Calling what attribute access found.  The two methods take no argument
    (a call with arguments raises a [TypeError] whose text depends on the
    interpreter, and is left undetermined); a wrapper found in the slot is
    called like any wrapper; calling a plain value found there is left
    undetermined. *)
Definition call_chain_attr (fuel : nat) (a : chain_attr)
    (positional : list pyval) (keywords : kwargs) : M object :=
  match a with
  | Builder b => c ← ChainWrapper_call b positional keywords; mret (A_chain c)
  | Bound_value self =>
      match positional, keywords with
      | [], [] => v ← Chain_value fuel self; mret (A_value v)
      | _, _ => stuck
      end
  | Bound_to_string self =>
      match positional, keywords with
      | [], [] => v ← Chain_to_string fuel self; mret (A_value v)
      | _, _ => stuck
      end
  | Instance_value (Wrapper w) =>
      c ← ChainWrapper_call w positional keywords; mret (A_chain c)
  | Instance_value (Plain _) => stuck
  end.

(** The name of the type of a value of a built-in type. *)
Definition builtin_type_name (v : pyval) : option string :=
  match v with
  | VNone => Some "NoneType"
  | VInt _ => Some "int"
  | VStr _ => Some "str"
  | VList _ => Some "list"
  | VTuple _ => Some "tuple"
  | _ => None
  end.

(** Attribute access on a value that is not a chain.  No built-in type
    among [NoneType], [int], [str], [list] and [tuple] has an attribute
    called [value], [value_of], [to_string] or [_value]: the access raises
    [AttributeError].  Everything else is left undetermined. *)
Definition value_attribute (v : pyval) (attr : string) : M object :=
  match builtin_type_name v with
  | Some type_name =>
      if String.eqb attr "value" || String.eqb attr "value_of"
         || String.eqb attr "to_string" || String.eqb attr "_value"
      then raise (AttributeError ("'" +:+ type_name
                                  +:+ "' object has no attribute '"
                                  +:+ attr +:+ "'"))
      else stuck
  | None => stuck
  end.

(** One link [.name(args, kargs)] on what the expression before it
    evaluated to: attribute access, then call. *)
Definition link_step (fuel : nat) (o : object) (lk : link) : M object :=
  match o with
  | A_chain c =>
      a ← Chain_attribute c (link_name lk);
      call_chain_attr fuel a (link_args lk) (link_kargs lk)
  | A_value v => value_attribute v (link_name lk)
  end.

(** [o.name1(...).name2(...) ...], link by link. *)
Fixpoint chain_links (fuel : nat) (o : object) (links : list link) : M object :=
  match links with
  | [] => mret o
  | lk :: rest =>
      o' ← link_step fuel o lk;
      chain_links fuel o' rest
  end.

(** [chain(seed).name1(...) ... .value()] *)
Definition chain_expression (fuel : nat) (seed : pyval) (links : list link)
  : M pyval :=
  c ← chain seed;
  o ← chain_links fuel (A_chain c) links;
  r ← link_step fuel o (mk_link "value" [] []);
  match r with
  | A_value v => mret v
  | A_chain _ => stuck
  end.

(** The same calls composed eagerly, [nameN(... name1(seed, ...) ...)]: no
    chain object is involved; each function is looked up in the package and
    applied to the result of the one before it, on the world that one left,
    and each application is written to the log.  [None] when a name is not a
    callable of the package. *)
Fixpoint eager (value : pyval) (links : list link) (w : W)
    (log : list invocation)
  : option (result pyval * W * list invocation) :=
  match links with
  | [] => Some (Ok value, w, log)
  | lk :: rest =>
      match pyd (link_name lk) with
      | Some (Callable f) =>
          let entry := mk_invocation f value (link_args lk) (link_kargs lk) in
          match f value (link_args lk) (link_kargs lk) w with
          | (Ok v, w') => eager v rest w' (log ++ [entry])
          | (Raise e, w') => Some (Raise e, w', log ++ [entry])
          end
      | _ => None
      end
  end.
(** *** Notions used to state the properties of chains *)

(** The store after [self._value = v] on a wrapper. *)
Definition with_value (l : loc) (w : ChainWrapper) (v : pyval) (σ : store)
  : store :=
  mk_store (chains σ)
    (<[l := mk_ChainWrapper (Plain v) (method w) (args w) (kargs w)]> (wrappers σ))
    (world σ) (calls σ).

(** A slot resolves a seed through a list of links when it holds the seed
    and the list is empty, or holds a wrapper for the last link whose own
    slot resolves the seed through the links before. *)
Inductive resolves (σ : store) : slot → pyval → list link → Prop :=
| resolves_plain v : resolves σ (Plain v) v []
| resolves_wrapper l w seed links lk :
    wrappers σ !! l = Some w →
    pyd (link_name lk) = Some (Callable (method w)) →
    args w = link_args lk →
    kargs w = link_kargs lk →
    resolves σ (wrapper_value w) seed links →
    resolves σ (Wrapper l) seed (links ++ [lk]).

(** Unwrapping changes no chain and leaves every wrapper its method and its
    captured arguments. *)
Definition same_calls (σ σ' : store) : Prop :=
  chains σ' = chains σ ∧
  ∀ l w, wrappers σ !! l = Some w →
    ∃ w', wrappers σ' !! l = Some w' ∧
          method w' = method w ∧ args w' = args w ∧ kargs w' = kargs w.

(** The links when every name reaches [__getattr__]: the hook, then the
    call of the wrapper it returned, link by link. *)
Fixpoint hook_links (c : loc) (links : list link) : M loc :=
  match links with
  | [] => mret c
  | lk :: rest =>
      b ← Chain_getattr c (link_name lk);
      c' ← ChainWrapper_call b (link_args lk) (link_kargs lk);
      hook_links c' rest
  end.

(** What the eager composition logs when it returns: one entry per link,
    in the order of the links, each with the function found under the name
    of the link and with its arguments. *)
Definition logged_for (inv : invocation) (lk : link) : Prop :=
  pyd (link_name lk) = Some (Callable (inv_method inv)) ∧
  inv_args inv = link_args lk ∧ inv_kargs inv = link_kargs lk.
End chaining.

Definition empty_store {W} (w : W) : store := mk_store ∅ ∅ w [].

(** Modelled from the spec: [pydash.numerical] is not in the sources at
    hand; [add] and [multiply] are the two-argument sum and product. *)
Definition add : @pyfunc unit := λ value a _ w,
  match value, a with
  | VInt x, [VInt y] => (Ok (VInt (x + y)), w)
  | _, _ => (Raise (TypeError "unsupported operand"), w)
  end.
Definition multiply : @pyfunc unit := λ value a _ w,
  match value, a with
  | VInt x, [VInt y] => (Ok (VInt (x * y)), w)
  | _, _ => (Raise (TypeError "unsupported operand"), w)
  end.
Definition pyd_numerical (name : string) : option (@attribute unit) :=
  if String.eqb name "add" then Some (Callable add)
  else if String.eqb name "multiply" then Some (Callable multiply)
  else if String.eqb name "__version__" then Some (NotCallable (VStr "4.9.3"))
  else None.

(** Modelled from the spec: [pydash.strings] is not in the sources at
    hand; [to_string] turns a value into a string, an integer into its
    decimal notation. *)
Definition to_string_of_int : @pyfunc unit := λ value _ _ w,
  match value with
  | VInt z => (Ok (VStr (pretty z)), w)
  | VStr s => (Ok (VStr s), w)
  | _ => (Ok (VStr ""), w)
  end.
Definition pyd_strings (name : string) : option (@attribute unit) :=
  if String.eqb name "to_string" then Some (Callable to_string_of_int)
  else pyd_numerical name.

(** ** Wrapped callables ([utilities.py]) *)

(** A Python class, as far as [issubclass] and [isinstance] need it: its
    name and the names on its method resolution order (itself included). *)
Record pyclass := mk_pyclass {
  cls_name : string;
  cls_mro : list string
}.

Definition issubclass (c : pyclass) (base : string) : bool :=
  bool_decide (base ∈ cls_mro c).

Definition Exception : pyclass :=
  mk_pyclass "Exception" ["Exception"; "BaseException"].

(** [isinstance(exc, exceptions)] for a tuple of classes, which is what an
    [except exceptions] clause tests. *)
Definition caught_by (exceptions : list pyclass) (exc : exception) : bool :=
  existsb (λ c, isinstance_exc exc (cls_name c)) exceptions.

(** [==] on values, as a dictionary compares its keys.  An exception
    instance has no identity in the model: two instances of the same class
    with the same message are one value here, where Python keeps distinct
    instances apart as keys.  What is stated about two calls that meet on a
    key is stated for keys that are [exception_free]. *)
Fixpoint pyval_eqb (a b : pyval) {struct a} : bool :=
  let fix all_eqb (l1 l2 : list pyval) {struct l1} : bool :=
    match l1, l2 with
    | [], [] => true
    | x :: l1', y :: l2' => pyval_eqb x y && all_eqb l1' l2'
    | _, _ => false
    end in
  match a, b with
  | VNone, VNone => true
  | VUnset, VUnset => true
  | VInt x, VInt y => Z.eqb x y
  | VStr x, VStr y => String.eqb x y
  | VList x, VList y => all_eqb x y
  | VTuple x, VTuple y => all_eqb x y
  | VExc x, VExc y =>
      bool_decide (exc_mro x = exc_mro y) && String.eqb (exc_msg x) (exc_msg y)
  | VObj x, VObj y => Nat.eqb x y
  | _, _ => false
  end.

(** Lists cannot be dictionary keys, nor can tuples that contain one. *)
Fixpoint hashable (v : pyval) : bool :=
  match v with
  | VList _ => false
  | VTuple l => forallb hashable l
  | _ => true
  end.

(** A value that holds no exception instance. *)
Fixpoint exception_free (v : pyval) : bool :=
  match v with
  | VExc _ => false
  | VList l => forallb exception_free l
  | VTuple l => forallb exception_free l
  | _ => true
  end.

(** A [dict] as an association list in insertion order. *)
Abbreviation pydict := (list (pyval * pyval)).

Fixpoint dict_get (k : pyval) (d : pydict) : option pyval :=
  match d with
  | [] => None
  | (k', v) :: tl => if pyval_eqb k' k then Some v else dict_get k tl
  end.

Fixpoint dict_set (k v : pyval) (d : pydict) : pydict :=
  match d with
  | [] => [(k, v)]
  | (k', v') :: tl =>
      if pyval_eqb k' k then (k', v) :: tl else (k', v') :: dict_set k v tl
  end.

(** [sep.join(items)] *)
Fixpoint join (sep : string) (items : list string) : string :=
  match items with
  | [] => ""
  | [x] => x
  | x :: tl => x +:+ sep +:+ join sep tl
  end.

Section utilities.
Context {W : Type}.

(** A Python callable applied to positional and keyword arguments; it may read and
    change the world, and it returns or raises. *)
Definition pycallable : Type :=
  list pyval → kwargs → W → result pyval * W.

(** *** [attempt] *)

Definition attempt (func : pycallable) (args : list pyval) (kw : kwargs)
  : W → result pyval * W := λ w,
  match func args kw w with
  | (Ok ret, w') => (Ok ret, w')
  | (Raise ex, w') =>
      if isinstance_exc ex "Exception" then (Ok (VExc ex), w')
      else (Raise ex, w')
  end.

(** *** [memoize] *)

(** [repr] of a value is whatever the class of the value defines. *)
Context (repr : pyval → string).

(** [str(args)] for the tuple of positional arguments. *)
Definition tuple_str (args : list pyval) : string :=
  match args with
  | [a] => "(" +:+ repr a +:+ ",)"
  | _ => "(" +:+ join ", " (repr <$> args) +:+ ")"
  end.

(** [str(kwargs)] for the dict of keyword arguments. *)
Definition dict_str (kw : kwargs) : string :=
  "{" +:+ join ", " ((λ kv, repr (VStr kv.1) +:+ ": " +:+ repr kv.2) <$> kw)
      +:+ "}".

(** The default cache key, the string formed from the positional arguments
    followed by the keyword arguments. *)
Definition default_key (args : list pyval) (kw : kwargs) : pyval :=
  VStr (tuple_str args +:+ dict_str kw).

(** The attribute [memoized.cache], the world, and a log of the argument
    lists [func] was entered with. *)
Record memo_store := mk_memo_store {
  cache : pydict;
  memo_world : W;
  func_calls : list (list pyval * kwargs)
}.

(** The inner function [memoized] of [memoize(func, resolver)]. *)
Definition memoized (func : pycallable) (resolver : option pycallable)
    (args : list pyval) (kw : kwargs)
  : memo_store → result pyval * memo_store := λ σ,
  let '(key, w1) :=
    match resolver with
    | Some resolve => resolve args kw (memo_world σ)
    | None => (Ok (default_key args kw), memo_world σ)
    end in
  match key with
  | Raise e => (Raise e, mk_memo_store (cache σ) w1 (func_calls σ))
  | Ok key =>
      if negb (hashable key)
      then (Raise (TypeError "unhashable type"),
            mk_memo_store (cache σ) w1 (func_calls σ))
      else
        match dict_get key (cache σ) with
        | Some v => (Ok v, mk_memo_store (cache σ) w1 (func_calls σ))
        | None =>
            let '(r, w2) := func args kw w1 in
            let log := func_calls σ ++ [(args, kw)] in
            match r with
            | Ok v => (Ok v, mk_memo_store (dict_set key v (cache σ)) w2 log)
            | Raise e => (Raise e, mk_memo_store (cache σ) w2 log)
            end
        end
  end.

(** [memoize(func, resolver)]: the memoized function and its cache, which
    starts empty. *)
Definition memoize (func : pycallable) (resolver : option pycallable)
  : (list pyval → kwargs → memo_store → result pyval * memo_store) * pydict :=
  (memoized func resolver, []).

(** *** [retry] *)

(** Numbers, ints and floats alike, are modelled by rationals.

    The [jitter] argument: a number or a tuple of numbers. *)
Inductive jitter_arg :=
| JitterNumber (q : Q)
| JitterTuple (l : list Q).

(** Modelled from the spec: [helpers.callit] and [helpers.getargcount] are
    not in the sources at hand; the observer is called as
    [on_exception(exc, attempt)], and a callback that declares fewer
    parameters ignores the ones it does not take.  It may raise. *)
Definition observer : Type := exception → Z → W → result pyval * W.

Record retry_args := mk_retry_args {
  attempts : Z;
  delay : Q;
  max_delay : Q;
  scale : Q;
  jitter : jitter_arg;
  exceptions : list pyclass;
  on_exception : option observer
}.

(** The defaults of the signature of [retry]. *)
Definition retry_defaults : retry_args :=
  mk_retry_args 3 (1 # 2) 150 2 (JitterNumber 0) [Exception] None.

(** What a decorated call does, in order: entering [func] (with the
    attempt number and the outcome), calling [on_exception], sleeping. *)
Inductive retry_event :=
| Called (attempt : Z) (outcome : result pyval)
| Observed (exc : exception) (attempt : Z)
| Slept (seconds : Q).

Record retry_store := mk_retry_store {
  retry_world : W;
  retry_log : list retry_event
}.

Definition is_Called (ev : retry_event) : bool :=
  match ev with Called _ _ => true | _ => false end.
Definition is_Observed (ev : retry_event) : bool :=
  match ev with Observed _ _ => true | _ => false end.

(** The arguments of [retry(attempts=n, delay=0, exceptions=excs,
    on_exception=obs)]; the others keep their defaults. *)
Definition retry_args_for (n : Z) (excs : list pyclass) (obs : option observer)
  : retry_args :=
  mk_retry_args n 0 (max_delay retry_defaults) (scale retry_defaults)
    (jitter retry_defaults) excs obs.

Definition Qlt_bool (x y : Q) : bool := negb (Qle_bool y x).
Definition truthy (x : Q) : bool := negb (Qeq_bool x 0).

(** [randint(start, stop)] or [uniform(start, stop)] of the standard
    library, whichever the kind of the bounds selects: a draw from the
    generator of the interpreter, which is part of the world. *)
Context (draw : Q → Q → W → Q * W).

(** [random(start, stop)] *)
Definition random (start stop : Q) : W → Q * W :=
  let '(start, stop) :=
    if Qlt_bool stop start then (stop, start) else (start, stop) in
  draw start stop.

(** The loop [for attempt in range(1, attempts + 1)] of [decorated]:
    [todo] attempts are left, the next one is number [attempt]. *)
Fixpoint decorated_loop (a : retry_args) (func : pycallable)
    (args : list pyval) (kw : kwargs)
    (todo : nat) (attempt : Z) (delay_time : Q) (σ : retry_store)
  : result pyval * retry_store :=
  match todo with
  | O => (Ok VNone, σ)
  | S todo' =>
      let '(r, w1) := func args kw (retry_world σ) in
      let log1 := retry_log σ ++ [Called attempt r] in
      match r with
      | Ok v => (Ok v, mk_retry_store w1 log1)
      | Raise exc =>
          if negb (caught_by (exceptions a) exc)
          then (Raise exc, mk_retry_store w1 log1)
          else
            let '(seen, w2, log2) :=
              match on_exception a with
              | Some obs =>
                  let '(r', w2) := obs exc attempt w1 in
                  (match r' with Ok _ => None | Raise e => Some e end,
                   w2, log1 ++ [Observed exc attempt])
              | None => (None, w1, log1)
              end in
            match seen with
            | Some e => (Raise e, mk_retry_store w2 log2)
            | None =>
                if (attempt =? attempts a)%Z
                then (Raise exc, mk_retry_store w2 log2)
                else
                  let '(drawn, w3) :=
                    match jitter a with
                    | JitterTuple [lo; hi] =>
                        let '(rnd, w3) := random lo hi w2 in
                        (Ok (delay_time + (if Qlt_bool 0 rnd then rnd else 0))%Q, w3)
                    | JitterTuple [] => (Ok delay_time, w2)
                    | JitterTuple _ =>
                        (Raise (TypeError "random() arguments"), w2)
                    | JitterNumber j =>
                        if truthy j
                        then (Raise (TypeError "argument after * must be an iterable"), w2)
                        else (Ok delay_time, w2)
                    end in
                  match drawn with
                  | Raise e => (Raise e, mk_retry_store w3 log2)
                  | Ok delay_time =>
                      if Qlt_bool delay_time 0
                      then decorated_loop a func args kw todo' (attempt + 1)%Z
                             delay_time (mk_retry_store w3 log2)
                      else
                        let delay_time :=
                          if truthy (max_delay a)
                          then (if Qlt_bool (max_delay a) delay_time
                                then max_delay a else delay_time)
                          else delay_time in
                        decorated_loop a func args kw todo' (attempt + 1)%Z
                          (delay_time * scale a)%Q
                          (mk_retry_store w3 (log2 ++ [Slept delay_time]))
                  end
            end
      end
  end.

(** The function [decorated] that replaces [func] *)
Definition decorated (a : retry_args) (func : pycallable)
    (args : list pyval) (kw : kwargs)
  : retry_store → result pyval * retry_store :=
  decorated_loop a func args kw (Z.to_nat (attempts a)) 1%Z (delay a).

(** [retry(...)] with [on_exception] either [None] or a callable, as the
    type of [on_exception] has it: the arguments are validated, a number
    given as [jitter] becomes the range from 0 to it, and the decorator is
    returned.  The check of [on_exception] itself, which such a value
    passes, is in [retry_any_observer] below. *)
Definition retry (a : retry_args)
  : result (pycallable → list pyval → kwargs →
            retry_store → result pyval * retry_store) :=
  if (attempts a <=? 0)%Z
  then Raise (ValueError "attempts must be an integer greater than 0")
  else if Qlt_bool (delay a) 0
  then Raise (ValueError "delay must be a number greater than or equal to 0")
  else if Qlt_bool (max_delay a) 0
  then Raise (ValueError "scale must be a number greater than or equal to 0")
  else if Qle_bool (scale a) 0
  then Raise (ValueError "scale must be a number greater than 0")
  else if match jitter a with
          | JitterNumber j => Qlt_bool j 0
          | JitterTuple l => negb (length l =? 2)%nat
          end
  then Raise (ValueError "jitter must be a number greater than 0 or a 2-item tuple of numbers")
  else if negb (forallb (λ c, issubclass c "Exception") (exceptions a))
  then Raise (TypeError "exceptions must be a tuple of Exception types")
  else
    let jitter' :=
      match jitter a with
      | JitterNumber j => if truthy j then JitterTuple [0%Q; j] else jitter a
      | JitterTuple l => jitter a
      end in
    let a' := mk_retry_args (attempts a) (delay a) (max_delay a) (scale a)
                jitter' (exceptions a) (on_exception a) in
    Ok (decorated a').

(** The argument [on_exception] as a caller may give it: a callable, or
    any other value.  A callable is taken to be truthy, as functions and
    methods are. *)
Inductive on_exception_arg :=
| CallableObserver (o : observer)
| OtherValue (v : pyval).

Definition with_on_exception (a : retry_args) (obs : option observer)
  : retry_args :=
  mk_retry_args (attempts a) (delay a) (max_delay a) (scale a) (jitter a)
    (exceptions a) obs.

(** [retry(..., on_exception=arg)] for any [arg]: after the other checks,
    a value that is truthy and not callable is refused with [TypeError]; a
    value that is not truthy is never called, as if no observer had been
    given.  [truth] is [bool(value)]. *)
Definition retry_any_observer (truth : pyval → bool) (a : retry_args)
    (arg : on_exception_arg)
  : result (pycallable → list pyval → kwargs →
            retry_store → result pyval * retry_store) :=
  match arg with
  | CallableObserver o => retry (with_on_exception a (Some o))
  | OtherValue v =>
      match retry (with_on_exception a None) with
      | Raise e => Raise e
      | Ok dec =>
          if truth v then Raise (TypeError "on_exception must be a callable")
          else Ok dec
      end
  end.

(** *** Notions used to state the properties of [retry] *)

Definition count_Called (evs : list retry_event) : nat :=
  length (filter (λ ev, is_Called ev = true) evs).
Definition count_Observed (evs : list retry_event) : nat :=
  length (filter (λ ev, is_Observed ev = true) evs).

(** The events of the last attempt: the call that raised, then the
    observer if there is one. *)
Definition last_attempt (obs : option observer) (e : exception) (n : Z)
  : list retry_event :=
  Called n (Raise e) ::
  match obs with Some _ => [Observed e n] | None => [] end.

(** A function that always raises an exception the [except] clause
    catches. *)
Definition always_raises (excs : list pyclass) (func : pycallable)
    (args : list pyval) (kw : kwargs) : Prop :=
  ∀ w, ∃ e w', func args kw w = (Raise e, w') ∧ caught_by excs e = true.

(** An observer that returns. *)
Definition observer_returns (obs : option observer) : Prop :=
  ∀ o, obs = Some o → ∀ e k w, ∃ v w', o e k w = (Ok v, w').
End utilities.

(** ** Sample callables *)

(** A [repr] under which every instance of a user class prints alike, as
    with a class whose [__repr__] returns a constant. *)
Definition repr_constant_objects (v : pyval) : string :=
  match v with
  | VInt 1 => "1"
  | VObj _ => "<Point>"
  | _ => "?"
  end.

(** A [repr] that prints integers in decimal, as [int.__repr__] does. *)
Definition repr_numbers (v : pyval) : string :=
  match v with
  | VInt z => pretty z
  | VObj _ => "<Point>"
  | _ => "?"
  end.

(** A function that always raises, an observer that does nothing, and a
    generator that always draws the lower bound. *)
Definition always_boom : @pycallable unit :=
  λ _ _ w, (Raise (ValueError "boom"), w).
Definition quiet_observer : @observer unit := λ _ _ w, (Ok VNone, w).
Definition draw_lowest : Q → Q → unit → Q * unit := λ lo _ w, (lo, w).

(** ** Notions used to state further properties of the tokenizer *)

(** A string with no dot, no opening bracket and no backslash. *)
Fixpoint no_special (s : string) : bool :=
  match s with
  | "" => true
  | String c r =>
      negb (Ascii.eqb c ".") && negb (Ascii.eqb c "[")
      && negb (Ascii.eqb c backslash) && no_special r
  end.

(** A key that a dotted path can carry as it is: not empty and with no
    special character. *)
Definition plain_key (k : string) : bool :=
  negb (String.eqb k "") && no_special k.


(** Every object of [σ] is in [σ'] unchanged, and nothing was called in
    between. *)
Definition extends {W} (σ σ' : @store W) : Prop :=
  (∀ c ch, chains σ !! c = Some ch → chains σ' !! c = Some ch) ∧
  (∀ l (w : @ChainWrapper W), wrappers σ !! l = Some w → wrappers σ' !! l = Some w) ∧
  world σ' = world σ ∧ calls σ' = calls σ.

(** A client that calls the memoized function on one argument list after
    another and goes on whatever a call gives: the state after the calls. *)
Fixpoint memoized_calls {W} (repr : pyval → string)
    (func : @pycallable W) (resolver : option (@pycallable W))
    (cs : list (list pyval * kwargs)) (σ : @memo_store W) : @memo_store W :=
  match cs with
  | [] => σ
  | (args, kw) :: tl =>
      memoized_calls repr func resolver tl (memoized repr func resolver args kw σ).2
  end.

(** *** Further notions used to state the properties of [retry] *)

Definition is_Slept (ev : retry_event) : bool :=
  match ev with Slept _ => true | _ => false end.
Definition count_Slept (evs : list retry_event) : nat :=
  length (filter (λ ev, is_Slept ev = true) evs).

(** A sleep is never negative and, when [max_delay] is not 0, never longer
    than [max_delay]. *)
Definition sleep_within {W} (a : @retry_args W) (ev : retry_event) : Prop :=
  match ev with
  | Slept d => (0 <= d)%Q ∧ (¬ (max_delay a == 0)%Q → (d <= max_delay a)%Q)
  | _ => True
  end.

(** The arguments [retry] accepts. *)
Definition retry_accepts {W} (a : @retry_args W) : Prop :=
  (0 < attempts a)%Z ∧ (0 <= delay a)%Q ∧ (0 <= max_delay a)%Q ∧
  (0 < scale a)%Q ∧
  match jitter a with
  | JitterNumber j => (0 <= j)%Q
  | JitterTuple l => length l = 2
  end ∧
  Forall (λ c, issubclass c "Exception" = true) (exceptions a).

(** The attempt numbers [func] was entered with, in order. *)
Definition called_attempts (evs : list retry_event) : list Z :=
  omap (λ ev, match ev with Called k _ => Some k | _ => None end) evs.

(** A function that raises on its first two calls and returns on the third;
    the world counts the calls. *)
Definition third_time_lucky : @pycallable nat := λ _ _ n,
  if (n <? 2)%nat then (Raise (ValueError "boom"), S n)
  else (Ok (VInt (Z.of_nat n)), S n).

(** A generator that always draws the lower bound. *)
Definition draw_low {W} : Q → Q → W → Q * W := λ lo _ w, (lo, w).

(** *** What a run of failing attempts is

    The observer, when there is one, is called with the exception and the
    attempt number on the world [func] left, and returns. *)
Definition observed {W} (obs : option (@observer W)) (e : exception)
    (attempt : Z) (w1 w2 : W) : Prop :=
  match obs with
  | Some o => ∃ v, o e attempt w1 = (Ok v, w2)
  | None => w2 = w1
  end.

Definition observer_events {W} (obs : option (@observer W)) (e : exception)
    (attempt : Z) : list retry_event :=
  match obs with
  | Some _ => [Observed e attempt]
  | None => []
  end.

(** [failing_run func obs args kw n attempt w evs e w']: starting on the
    world [w], [func] is called [n] times, with the attempt numbers
    [attempt], [attempt + 1], ..., each time on the world the step before
    left; every call raises and is followed by the observer; between two
    attempts there is one sleep of 0 seconds; [e] is the exception of the
    last call, [w'] the world in the end, [evs] the events in order. *)
Inductive failing_run {W} (func : @pycallable W) (obs : option (@observer W))
    (args : list pyval) (kw : kwargs)
  : nat → Z → W → list retry_event → exception → W → Prop :=
| failing_run_last attempt w e w1 w2 :
    func args kw w = (Raise e, w1) →
    observed obs e attempt w1 w2 →
    failing_run func obs args kw 1 attempt w
      (Called attempt (Raise e) :: observer_events obs e attempt) e w2
| failing_run_more todo attempt w e w1 w2 evs e' w' :
    func args kw w = (Raise e, w1) →
    observed obs e attempt w1 w2 →
    failing_run func obs args kw (S todo) (attempt + 1)%Z w2 evs e' w' →
    failing_run func obs args kw (S (S todo)) attempt w
      (Called attempt (Raise e) :: observer_events obs e attempt
         ++ Slept 0 :: evs) e' w'.

(** A function that raises on every call an exception that tells how many
    calls came before; the world counts the calls.  An observer that adds
    10 to the world. *)
Definition boom_counting : @pycallable nat := λ _ _ n,
  (Raise (ValueError ("boom " +:+ pretty n)), S n).
Definition observer_adding_10 : @observer nat := λ _ _ n, (Ok VNone, n + 10).

(** ** Defaults, function lists and identifiers ([utilities.py]) *)

(** *** [default_to_any], [default_to] *)

(** The loop [for val in values] of [default_to_any]; falling off its end
    returns [None]. *)
Fixpoint first_not_None (values : list pyval) : pyval :=
  match values with
  | [] => VNone
  | val :: tl =>
      match val with
      | VNone => first_not_None tl
      | _ => val
      end
  end.

Definition default_to_any (value : pyval) (default_values : list pyval) : pyval :=
  first_not_None (value :: default_values).

Definition default_to (value default_value : pyval) : pyval :=
  default_to_any value [default_value].

Section function_lists.
Context {W : Type}.

(** *** [over], [over_every], [over_some] *)

(** The inner function [_over]: the list comprehension calls the functions
    in order with the positional arguments and no keyword; an exception
    ends it. *)
Fixpoint over (funcs : list (@pycallable W)) (args : list pyval)
  : W → result (list pyval) * W := λ w,
  match funcs with
  | [] => (Ok [], w)
  | func :: tl =>
      match func args [] w with
      | (Ok v, w1) =>
          match over tl args w1 with
          | (Ok vs, w2) => (Ok (v :: vs), w2)
          | (Raise e, w2) => (Raise e, w2)
          end
      | (Raise e, w1) => (Raise e, w1)
      end
  end.

(** [bool(value)] is whatever the class of the value defines. *)
Context (truth : pyval → bool).

(** The inner function [_over_every]: [all] consumes the generator up to
    the first result that is not truthy. *)
Fixpoint over_every (funcs : list (@pycallable W)) (args : list pyval)
  : W → result bool * W := λ w,
  match funcs with
  | [] => (Ok true, w)
  | func :: tl =>
      match func args [] w with
      | (Ok v, w1) => if truth v then over_every tl args w1 else (Ok false, w1)
      | (Raise e, w1) => (Raise e, w1)
      end
  end.

(** The inner function [_over_some]: [any] consumes the generator up to
    the first truthy result. *)
Fixpoint over_some (funcs : list (@pycallable W)) (args : list pyval)
  : W → result bool * W := λ w,
  match funcs with
  | [] => (Ok false, w)
  | func :: tl =>
      match func args [] w with
      | (Ok v, w1) => if truth v then (Ok true, w1) else over_some tl args w1
      | (Raise e, w1) => (Raise e, w1)
      end
  end.
End function_lists.

(** *** [unique_id] *)

(** The module global [ID_COUNTER]; it starts at 0. *)
Definition ID_COUNTER_init : Z := 0.

Section unique_id.
(** Modelled from the spec: [pydash.to_string] is not in the sources at
    hand; it turns a value into a string. *)
Context (to_string : pyval → string).

(** [unique_id(prefix)], on the global counter; [str] of an integer is its
    decimal notation. *)
Definition unique_id (prefix : pyval) (ID_COUNTER : Z) : string * Z :=
  let ID_COUNTER := (ID_COUNTER + 1)%Z in
  let prefix :=
    match prefix with
    | VNone => EmptyString
    | _ => to_string prefix
    end in
  (prefix +:+ pretty ID_COUNTER, ID_COUNTER).

(** Calls of [unique_id] one after the other: the identifiers they return
    and the counter they leave. *)
Fixpoint unique_ids (prefixes : list pyval) (ID_COUNTER : Z) : list string * Z :=
  match prefixes with
  | [] => ([], ID_COUNTER)
  | prefix :: tl =>
      let '(id, c1) := unique_id prefix ID_COUNTER in
      let '(ids, c2) := unique_ids tl c1 in
      (id :: ids, c2)
  end.
End unique_id.

(** ** Ranges ([utilities.py]) *)

(** The arguments of [base_range] are integers, or [None] for a step that
    is not given. *)

(** [math.ceil(p / q)] for integers [p] and [q], [q] not 0: the true
    division rounds the quotient to a float before [ceil] sees it.  Below
    2^52 in absolute value the rounding cannot reach the integer under the
    quotient, and the result is the ceiling of the exact quotient; beyond,
    the result is left undetermined. *)
Definition ceil_of_quotient (p q : Z) : option Z :=
  if (Z.abs p <? 2 ^ 52)%Z && (Z.abs q <? 2 ^ 52)%Z
  then Some (- ((- p) / q))%Z
  else None.

(** The loop [while length] of the generator. *)
Fixpoint gen_loop (length : nat) (start step : Z) : list Z :=
  match length with
  | O => []
  | S length' => start :: gen_loop length' (start + step)%Z step
  end.

(** The generator [gen], run to its end: the values it yields.  [None]
    when the length is left undetermined. *)
Definition gen (from_right : bool) (args : option (Z * Z * option Z))
  : option (list Z) :=
  match args with
  | None => Some []
  | Some (start, stop, step) =>
      let step :=
        match step with
        | Some step => step
        | None => if (start <? stop)%Z then 1%Z else (-1)%Z
        end in
      match ceil_of_quotient (stop - start) (if (step =? 0)%Z then 1%Z else step) with
      | None => None
      | Some quotient =>
          let length := Z.max quotient 0 in
          let '(start, step) :=
            if from_right
            then ((start + (step * length - step))%Z, (step * -1)%Z)
            else (start, step) in
          Some (gen_loop (Z.to_nat length) start step)
      end
  end.

(** [base_range]: the positional arguments are normalized to
    start, stop and step and checked to be integers; the generator is
    returned. *)
Definition base_range (args : list (option Z)) (from_right : bool)
  : result (option (list Z)) :=
  let args :=
    match args with
    | a0 :: a1 :: a2 :: _ => Some (a0, a1, a2)
    | [a0; a1] => Some (a0, a1, None)
    | [a0] => Some (Some 0%Z, a0, None)
    | [] => None
    end in
  match args with
  | None => Ok (gen from_right None)
  | Some (Some start, Some stop, step) => Ok (gen from_right (Some (start, stop, step)))
  | Some _ =>
      Raise (TypeError "range cannot interpret 'NoneType' object as an integer")
  end.

Definition range_ (args : list (option Z)) : result (option (list Z)) :=
  base_range args false.

Definition range_right (args : list (option Z)) : result (option (list Z)) :=
  base_range args true.

(** ** [times] ([utilities.py]) *)

Section times.
Context {W : Type}.

(** Modelled from the spec: [helpers.callit] and [helpers.getargcount] are
    not in the sources at hand; the iteratee is called with the index, and
    one that declares no parameter ignores it.  It may raise. *)
Definition index_iteratee : Type := Z → W → result pyval * W.

(** [identity], the iteratee used when none is given. *)
Definition identity_iteratee : index_iteratee := λ index w, (Ok (VInt index), w).

(** The list comprehension over the indexes of [range(n)]. *)
Fixpoint times_loop (iteratee : index_iteratee) (indexes : list Z)
  : W → result (list pyval) * W := λ w,
  match indexes with
  | [] => (Ok [], w)
  | index :: tl =>
      match iteratee index w with
      | (Ok v, w1) =>
          match times_loop iteratee tl w1 with
          | (Ok vs, w2) => (Ok (v :: vs), w2)
          | (Raise e, w2) => (Raise e, w2)
          end
      | (Raise e, w1) => (Raise e, w1)
      end
  end.

Definition times (n : Z) (iteratee : option index_iteratee)
  : W → result (list pyval) * W :=
  let iteratee :=
    match iteratee with
    | None => identity_iteratee
    | Some iteratee => iteratee
    end in
  times_loop iteratee (seqZ 0 n).
End times.

(* ===================================================================== *)
(** * Part II: properties *)
(* ===================================================================== *)

(** ** Strings *)

Lemma str_app_nil_l (s : string) : "" +:+ s = s.
Proof. reflexivity. Qed.

Lemma str_app_cons (c : ascii) (s t : string) :
  String c s +:+ t = String c (s +:+ t).
Proof. reflexivity. Qed.

Lemma str_app_nil_r (s : string) : s +:+ "" = s.
Proof. induction s as [|c s IH]; [done|]. by rewrite str_app_cons, IH. Qed.

Lemma str_app_assoc (s t u : string) : (s +:+ t) +:+ u = s +:+ (t +:+ u).
Proof.
  induction s as [|c s IH]; [done|]. by rewrite !str_app_cons, IH.
Qed.

Lemma str_app_length (s t : string) :
  String.length (s +:+ t) = String.length s + String.length t.
Proof.
  induction s as [|c s IH]; [done|]. rewrite str_app_cons. simpl. by rewrite IH.
Qed.

Lemma ascii_eqb_eq (a b : ascii) : Ascii.eqb a b = true ↔ a = b.
Proof. apply Ascii.eqb_eq. Qed.

Lemma ascii_eqb_neq (a b : ascii) : Ascii.eqb a b = false ↔ a ≠ b.
Proof. apply Ascii.eqb_neq. Qed.

(** ** The matchers consume what they match *)

Lemma lit_inv c s rest : lit c s = Some rest → s = String c rest.
Proof.
  destruct s as [|d r]; simpl; [done|].
  destruct (Ascii.eqb_spec d c); [|done]. by intros [= ->]; subst.
Qed.

Lemma lit_cons c d r : lit c (String d r) = if Ascii.eqb d c then Some r else None.
Proof. reflexivity. Qed.

Lemma bs_pairs_dot_eq (s : string) :
  bs_pairs_dot s =
    match s with
    | String c (String d r) =>
        if Ascii.eqb c backslash && Ascii.eqb d backslash
        then match bs_pairs_dot r with
             | Some rest => Some rest
             | None => lit "." s
             end
        else lit "." s
    | _ => lit "." s
    end.
Proof. by destruct s as [|c [|d r]]. Qed.

Lemma bs_pairs_dot_inv (s rest : string) :
  bs_pairs_dot s = Some rest → ∃ k, s = bs_pairs k +:+ String "." rest.
Proof.
  remember (String.length s) as n eqn:Hn.
  revert s rest Hn. induction (lt_wf n) as [n _ IH]. intros s rest -> H.
  rewrite bs_pairs_dot_eq in H.
  destruct s as [|c [|d r]].
  - done.
  - apply lit_inv in H. exists 0. by rewrite H.
  - destruct (Ascii.eqb_spec c backslash) as [->|Hc]; cbn [andb] in H.
    + destruct (Ascii.eqb_spec d backslash) as [->|Hd]; cbn [andb] in H.
      * destruct (bs_pairs_dot r) as [rest'|] eqn:Hr.
        -- injection H as ->.
           edestruct (IH (String.length r)) as [k Hk]; [simpl; lia|done|exact Hr|].
           exists (S k). simpl. by rewrite Hk.
        -- done.
      * done.
    + apply lit_inv in H. exists 0. by rewrite H.
Qed.

Lemma digits_close_inv (s m rest : string) :
  digits_close s = Some (m, rest) → s = m +:+ rest ∧ String.length m ≥ 2.
Proof.
  revert m rest. induction s as [|d r IH]; intros m rest; simpl; [done|].
  destruct (is_digit d); [|done].
  destruct (digits_close r) as [[m' rest']|].
  - intros [= <- <-]. destruct (IH _ _ eq_refl) as [-> ?].
    split; [done|simpl; lia].
  - destruct (lit "]" r) as [rest'|] eqn:Hl; [|done].
    intros [= <- <-]. apply lit_inv in Hl as ->. split; [done|simpl; lia].
Qed.

Lemma int_close_inv (s m rest : string) :
  int_close s = Some (m, rest) → s = m +:+ rest ∧ String.length m ≥ 2.
Proof.
  unfold int_close. destruct s as [|c r].
  - simpl. done.
  - destruct (Ascii.eqb c "-").
    + destruct (digits_close r) as [[m' rest']|] eqn:Hd.
      * intros [= <- <-]. apply digits_close_inv in Hd as [-> ?].
        split; [done|simpl; lia].
      * apply digits_close_inv.
    + apply digits_close_inv.
Qed.

Lemma bracket_int_inv (s g rest : string) :
  bracket_int s = Some (g, rest) → s = g +:+ rest ∧ String.length g ≥ 3.
Proof.
  unfold bracket_int. destruct s as [|c r]; [done|].
  destruct (Ascii.eqb c "["); [|done].
  destruct (int_close r) as [[m rest']|] eqn:Hi; [|done].
  intros [= <- <-]. apply int_close_inv in Hi as [-> ?].
  split; [done|simpl; lia].
Qed.

Lemma RE_PATH_KEY_DELIM_consumes ab s g rest :
  RE_PATH_KEY_DELIM ab s = Some (g, rest) →
  String.length rest < String.length s.
Proof.
  unfold RE_PATH_KEY_DELIM.
  destruct (if ab then None else bs_pairs_dot s) as [r|] eqn:H1.
  - intros [= <- <-]. destruct ab; [done|].
    apply bs_pairs_dot_inv in H1 as [k ->].
    rewrite str_app_length. simpl. lia.
  - destruct (bracket_int s) as [[g' r]|] eqn:H2; [|done].
    intros [= <- <-]. apply bracket_int_inv in H2 as [-> ?].
    rewrite str_app_length. lia.
Qed.

(** ** The scanner does not depend on spare fuel *)

Lemma re_split_go_fuel (f1 f2 : nat) ab s :
  String.length s < f1 → String.length s < f2 →
  re_split_go f1 ab s = re_split_go f2 ab s.
Proof.
  revert f2 ab s. induction f1 as [|f1 IH]; intros f2 ab s H1 H2; [lia|].
  destruct f2 as [|f2]; [lia|]. simpl.
  destruct (RE_PATH_KEY_DELIM ab s) as [[g rest]|] eqn:Hm.
  - apply RE_PATH_KEY_DELIM_consumes in Hm.
    rewrite (IH f2 false rest); [done|lia|lia].
  - destruct s as [|c r]; [done|]. simpl in *.
    rewrite (IH f2 _ r); [done|lia|lia].
Qed.

Lemma re_split_go_S (f : nat) ab s :
  re_split_go (S f) ab s =
    match RE_PATH_KEY_DELIM ab s with
    | Some (g, rest) =>
        let '(seg, items) := re_split_go f false rest in
        ("", g :: Some seg :: items)
    | None =>
        match s with
        | "" => ("", [])
        | String c r =>
            let '(seg, items) := re_split_go f (Ascii.eqb c backslash) r in
            (String c seg, items)
        end
    end.
Proof. reflexivity. Qed.

Lemma re_split_eq s : re_split s = re_split_at false s.
Proof. reflexivity. Qed.

Lemma re_split_at_nil ab : re_split_at ab "" = [Some ""].
Proof. unfold re_split_at. by destruct ab. Qed.

Lemma re_split_at_match ab s g rest :
  RE_PATH_KEY_DELIM ab s = Some (g, rest) →
  re_split_at ab s = Some "" :: g :: re_split_at false rest.
Proof.
  intros Hm. unfold re_split_at. rewrite re_split_go_S, Hm.
  apply RE_PATH_KEY_DELIM_consumes in Hm.
  rewrite (re_split_go_fuel _ (S (String.length rest))); [|lia..].
  by destruct (re_split_go _ _ _).
Qed.

Lemma re_split_at_char ab c r :
  RE_PATH_KEY_DELIM ab (String c r) = None →
  re_split_at ab (String c r) =
    cons_first c (re_split_at (Ascii.eqb c backslash) r).
Proof.
  intros Hm. unfold re_split_at. rewrite re_split_go_S, Hm.
  by destruct (re_split_go _ _ _).
Qed.

Lemma re_split_at_head ab s : ∃ seg items, re_split_at ab s = Some seg :: items.
Proof. unfold re_split_at. destruct (re_split_go _ _ _). eauto. Qed.

#[global] Opaque re_split_at.

(** ** What the matchers accept *)

Lemma is_digit_not (c d : ascii) :
  is_digit c = true → is_digit d = false → c ≠ d.
Proof. by intros H1 H2 ->; rewrite H1 in H2. Qed.

Lemma digits_close_spec (ds r : string) :
  ds ≠ "" → all_digits ds = true →
  digits_close (ds +:+ String "]" r) = Some (ds +:+ "]", r).
Proof.
  induction ds as [|d ds IH]; [done|]. intros _ Hd.
  simpl in Hd. apply andb_prop in Hd as [Hd Hds].
  rewrite !str_app_cons. simpl. rewrite Hd.
  destruct ds as [|d' ds'].
  - by rewrite !str_app_nil_l.
  - by rewrite IH.
Qed.

Lemma digits_close_shape (s m rest : string) :
  digits_close s = Some (m, rest) →
  ∃ ds, ds ≠ "" ∧ all_digits ds = true ∧ m = ds +:+ "]" ∧ s = m +:+ rest.
Proof.
  revert m rest. induction s as [|d r IH]; intros m rest; simpl; [done|].
  destruct (is_digit d) eqn:Hd; [|done].
  destruct (digits_close r) as [[m' rest']|].
  - intros [= <- <-]. destruct (IH _ _ eq_refl) as (ds & ? & Hds & -> & ->).
    exists (String d ds). simpl. by rewrite Hd, Hds.
  - destruct (lit "]" r) as [rest'|] eqn:Hl; [|done].
    intros [= <- <-]. apply lit_inv in Hl as ->.
    exists (String d ""). simpl. by rewrite Hd.
Qed.

Lemma int_close_spec (neg : bool) (ds r : string) :
  ds ≠ "" → all_digits ds = true →
  int_close (minus_sign neg +:+ ds +:+ String "]" r)
  = Some (minus_sign neg +:+ ds +:+ "]", r).
Proof.
  intros Hne Hd. unfold int_close, minus_sign. destruct neg.
  - rewrite !str_app_cons, !str_app_nil_l. simpl.
    by rewrite (digits_close_spec ds r).
  - rewrite !str_app_nil_l. destruct ds as [|d ds]; [done|].
    rewrite str_app_cons.
    assert (Ascii.eqb d "-" = false) as ->.
    { apply ascii_eqb_neq. simpl in Hd. apply andb_prop in Hd as [Hd _].
      by eapply is_digit_not. }
    by rewrite <-str_app_cons, (digits_close_spec (String d ds) r).
Qed.

Lemma int_close_shape (s m rest : string) :
  int_close s = Some (m, rest) →
  ∃ neg ds, ds ≠ "" ∧ all_digits ds = true ∧
    m = minus_sign neg +:+ ds +:+ "]" ∧ s = m +:+ rest.
Proof.
  unfold int_close. intros H.
  assert (digits_close s = Some (m, rest) →
          ∃ neg ds, ds ≠ "" ∧ all_digits ds = true ∧
            m = minus_sign neg +:+ ds +:+ "]" ∧ s = m +:+ rest) as Hpos.
  { intros H'. apply digits_close_shape in H' as (ds & ? & ? & -> & ->).
    by exists false, ds. }
  destruct s as [|c r]; [by apply Hpos|].
  destruct (Ascii.eqb_spec c "-") as [->|Hc]; [|by apply Hpos].
  destruct (digits_close r) as [[m' rest']|] eqn:Hd; [|by apply Hpos].
  injection H as <- <-.
  apply digits_close_shape in Hd as (ds & ? & ? & -> & ->).
  by exists true, ds.
Qed.

Lemma bracket_int_spec (neg : bool) (ds r : string) :
  ds ≠ "" → all_digits ds = true →
  bracket_int (bracketed_int neg ds +:+ r) = Some (bracketed_int neg ds, r).
Proof.
  intros Hne Hd. unfold bracketed_int, bracket_int.
  rewrite str_app_cons. simpl (Ascii.eqb _ _).  cbv iota.
  rewrite !str_app_assoc, str_app_cons, str_app_nil_l.
  by rewrite int_close_spec.
Qed.

Lemma bracket_int_shape (s g rest : string) :
  bracket_int s = Some (g, rest) →
  ∃ neg ds, ds ≠ "" ∧ all_digits ds = true ∧
    g = bracketed_int neg ds ∧ s = g +:+ rest.
Proof.
  unfold bracket_int. destruct s as [|c r]; [done|].
  destruct (Ascii.eqb_spec c "[") as [->|]; [|done].
  destruct (int_close r) as [[m rest']|] eqn:Hi; [|done].
  intros [= <- <-]. apply int_close_shape in Hi as (neg & ds & ? & ? & -> & ->).
  by exists neg, ds.
Qed.

Lemma bs_pairs_dot_spec (k : nat) (r : string) :
  bs_pairs_dot (bs_pairs k +:+ String "." r) = Some r.
Proof.
  induction k as [|k IH].
  - rewrite str_app_nil_l, bs_pairs_dot_eq. by destruct r.
  - simpl bs_pairs. rewrite !str_app_cons, bs_pairs_dot_eq, IH.
    by rewrite Ascii.eqb_refl.
Qed.

Lemma bs_pairs_dot_other (c : ascii) (t : string) :
  c ≠ backslash → c ≠ "."%char → bs_pairs_dot (String c t) = None.
Proof.
  intros H1 H2. rewrite bs_pairs_dot_eq.
  apply ascii_eqb_neq in H1, H2.
  destruct t; rewrite ?H1; cbn [andb]; by rewrite lit_cons, H2.
Qed.

(** A match does not look beyond its own text. *)
Lemma RE_PATH_KEY_DELIM_ext ab x g rest y :
  RE_PATH_KEY_DELIM ab x = Some (g, rest) →
  RE_PATH_KEY_DELIM ab (x +:+ y) = Some (g, rest +:+ y).
Proof.
  unfold RE_PATH_KEY_DELIM.
  destruct ab.
  - destruct (bracket_int x) as [[g' r]|] eqn:H2; [|done].
    intros [= <- <-].
    apply bracket_int_shape in H2 as (neg & ds & ? & ? & -> & ->).
    by rewrite str_app_assoc, bracket_int_spec.
  - destruct (bs_pairs_dot x) as [r|] eqn:H1.
    + intros [= <- <-]. apply bs_pairs_dot_inv in H1 as [k ->].
      by rewrite str_app_assoc, str_app_cons, bs_pairs_dot_spec.
    + destruct (bracket_int x) as [[g' r]|] eqn:H2; [|done].
      intros [= <- <-].
      apply bracket_int_shape in H2 as (neg & ds & ? & ? & -> & ->).
      rewrite str_app_assoc, bracket_int_spec by done.
      assert (bs_pairs_dot (bracketed_int neg ds +:+ r +:+ y) = None) as ->; [|done].
      unfold bracketed_int. rewrite str_app_cons. by apply bs_pairs_dot_other.
Qed.

(** ** A failed attempt stays failed before a character that no
       unfinished match can use *)

Lemma lit_stop (c c0 : ascii) (x z : string) :
  c0 ≠ c → lit c x = None → lit c (x +:+ String c0 z) = None.
Proof.
  intros Hc. destruct x as [|d r].
  - intros _. rewrite str_app_nil_l, lit_cons.
    by apply ascii_eqb_neq in Hc as ->.
  - rewrite str_app_cons, !lit_cons. by destruct (Ascii.eqb d c).
Qed.

Lemma digits_close_stop (c0 : ascii) (x z : string) :
  is_digit c0 = false → c0 ≠ "]"%char →
  digits_close x = None → digits_close (x +:+ String c0 z) = None.
Proof.
  intros Hd Hc. induction x as [|d r IH].
  - intros _. rewrite str_app_nil_l. simpl. by rewrite Hd.
  - rewrite str_app_cons. simpl. destruct (is_digit d); [|done].
    destruct (digits_close r) as [[m rest]|]; [done|].
    destruct (lit "]" r) as [rest|] eqn:Hl; [done|]. intros _.
    by rewrite IH, lit_stop.
Qed.

Lemma int_close_stop (c0 : ascii) (x z : string) :
  is_digit c0 = false → c0 ≠ "]"%char → c0 ≠ "-"%char →
  int_close x = None → int_close (x +:+ String c0 z) = None.
Proof.
  intros Hd Hc Hm. unfold int_close. destruct x as [|c r].
  - intros _. rewrite str_app_nil_l.
    apply ascii_eqb_neq in Hm as ->. simpl. by rewrite Hd.
  - rewrite str_app_cons. destruct (Ascii.eqb c "-").
    + destruct (digits_close r) as [[m rest]|] eqn:Hr; [done|].
      intros Hx. rewrite (digits_close_stop c0 r z) by done.
      rewrite <-str_app_cons. by apply digits_close_stop.
    + intros Hx. rewrite <-str_app_cons. by apply digits_close_stop.
Qed.

Lemma bracket_int_stop (c0 : ascii) (x z : string) :
  is_digit c0 = false → c0 ≠ "]"%char → c0 ≠ "-"%char → x ≠ "" →
  bracket_int x = None → bracket_int (x +:+ String c0 z) = None.
Proof.
  intros Hd Hc Hm Hx. unfold bracket_int. destruct x as [|c r]; [done|].
  rewrite str_app_cons. destruct (Ascii.eqb c "["); [|done].
  destruct (int_close r) as [[m rest]|] eqn:Hr; [done|]. intros _.
  by rewrite int_close_stop.
Qed.

Lemma ends_with_backslash_cons ab ab' c r :
  ends_with_backslash ab (String c r) = ends_with_backslash ab' (String c r).
Proof. reflexivity. Qed.

Lemma ends_with_backslash_app ab x y :
  ends_with_backslash ab (x +:+ y)
  = ends_with_backslash (ends_with_backslash ab x) y.
Proof.
  revert ab. induction x as [|c r IH]; intros ab; [done|].
  rewrite str_app_cons. simpl. apply IH.
Qed.

Lemma bs_pairs_dot_stop (c0 : ascii) (x z : string) :
  (c0 = backslash ∨ c0 = "."%char →
   x ≠ "" ∧ ends_with_backslash false x = false) →
  bs_pairs_dot x = None → bs_pairs_dot (x +:+ String c0 z) = None.
Proof.
  remember (String.length x) as n eqn:Hn.
  revert x Hn. induction (lt_wf n) as [n _ IH]. intros x -> Hbs H.
  destruct x as [|c [|d r]].
  - rewrite str_app_nil_l.
    apply bs_pairs_dot_other; intros ->; destruct Hbs as [? _]; auto.
  - rewrite !str_app_cons, str_app_nil_l, bs_pairs_dot_eq.
    rewrite bs_pairs_dot_eq in H.
    assert (lit "." (String c (String c0 z)) = None) as Hl.
    { rewrite lit_cons in *. by destruct (Ascii.eqb c "."). }
    rewrite Hl.
    destruct (Ascii.eqb_spec c backslash) as [->|]; [|done].
    destruct (Ascii.eqb_spec c0 backslash) as [->|]; [|done].
    destruct Hbs as [_ Hbs]; [by left|]. done.
  - rewrite !str_app_cons, bs_pairs_dot_eq.
    rewrite bs_pairs_dot_eq in H.
    assert (lit "." (String c (String d (r +:+ String c0 z))) = None) as Hl.
    { rewrite lit_cons in *.
      destruct (Ascii.eqb c "."); [|done].
      by destruct (_ && _), (bs_pairs_dot r). }
    rewrite Hl.
    destruct (Ascii.eqb c backslash && Ascii.eqb d backslash) eqn:Hcd; [|done].
    destruct (bs_pairs_dot r) as [rest|] eqn:Hr; [done|].
    rewrite (IH (String.length r)); [done|simpl; lia|done| |done].
    intros Hc0. destruct Hbs as [_ Hbs]; [done|].
    apply andb_prop in Hcd as [_ Hd]. simpl in Hbs. rewrite Hd in Hbs.
    destruct r as [|e r]; [done|]. split; [done|].
    by rewrite (ends_with_backslash_cons _ true).
Qed.

Lemma RE_PATH_KEY_DELIM_stop ab (c0 : ascii) (x z : string) :
  is_digit c0 = false → c0 ≠ "]"%char → c0 ≠ "-"%char →
  x ≠ "" →
  (c0 = backslash ∨ c0 = "."%char → ends_with_backslash false x = false) →
  RE_PATH_KEY_DELIM ab x = None →
  RE_PATH_KEY_DELIM ab (x +:+ String c0 z) = None.
Proof.
  intros Hd Hc Hm Hx Hbs. unfold RE_PATH_KEY_DELIM.
  destruct (if ab then None else bs_pairs_dot x) as [r|] eqn:H1; [done|].
  destruct (bracket_int x) as [[g r]|] eqn:H2; [done|]. intros _.
  rewrite bracket_int_stop by done.
  destruct ab; [done|]. by rewrite bs_pairs_dot_stop by auto.
Qed.

(** ** Splitting around a bracketed integer *)

Lemma cons_first_app c (l1 l2 : list (option string)) seg items :
  l1 = Some seg :: items →
  cons_first c (l1 ++ l2) = cons_first c l1 ++ l2.
Proof. by intros ->. Qed.

Lemma RE_PATH_KEY_DELIM_bracketed ab neg ds post :
  ds ≠ "" → all_digits ds = true →
  RE_PATH_KEY_DELIM ab (bracketed_int neg ds +:+ post)
  = Some (Some (bracketed_int neg ds), post).
Proof.
  intros Hne Hd. unfold RE_PATH_KEY_DELIM.
  rewrite bracket_int_spec by done.
  destruct ab; [done|].
  unfold bracketed_int. rewrite str_app_cons.
  by rewrite bs_pairs_dot_other.
Qed.

Lemma re_split_at_bracketed ab (x : string) neg ds post :
  ds ≠ "" → all_digits ds = true →
  re_split_at ab (x +:+ bracketed_int neg ds +:+ post)
  = re_split_at ab x ++ [Some (bracketed_int neg ds)] ++ re_split_at false post.
Proof.
  intros Hne Hd.
  remember (String.length x) as n eqn:Hn.
  revert ab x Hn. induction (lt_wf n) as [n _ IH]. intros ab x ->.
  destruct x as [|c r].
  - rewrite str_app_nil_l, re_split_at_nil.
    by rewrite (re_split_at_match _ _ _ _ (RE_PATH_KEY_DELIM_bracketed ab neg ds post Hne Hd)).
  - destruct (RE_PATH_KEY_DELIM ab (String c r)) as [[g rest]|] eqn:Hm.
    + rewrite (re_split_at_match _ _ _ _ Hm).
      rewrite (re_split_at_match _ _ _ _ (RE_PATH_KEY_DELIM_ext _ _ _ _ _ Hm)).
      apply RE_PATH_KEY_DELIM_consumes in Hm.
      by rewrite (IH (String.length rest)).
    + rewrite (re_split_at_char _ _ _ Hm).
      assert (RE_PATH_KEY_DELIM ab (String c (r +:+ bracketed_int neg ds +:+ post)) = None) as Hm'.
      { change (String c (r +:+ bracketed_int neg ds +:+ post))
          with (String c r +:+ String "[" ((minus_sign neg +:+ ds +:+ "]") +:+ post)).
        apply RE_PATH_KEY_DELIM_stop; try done. by intros [|]. }
      rewrite str_app_cons, (re_split_at_char _ _ _ Hm').
      rewrite (IH (String.length r)); [|simpl; lia|done].
      destruct (re_split_at_head (Ascii.eqb c backslash) r) as (seg & items & Hs).
      by rewrite (cons_first_app _ _ _ _ _ Hs).
Qed.

(** ** From split items to tokens *)

Lemma drop_last_snoc (m : string) (d : ascii) :
  drop_last (m +:+ String d "") = m.
Proof.
  induction m as [|c m IH]; [done|].
  rewrite str_app_cons. simpl. rewrite IH. by destruct m.
Qed.

Lemma slice_bracketed neg ds :
  slice_1_m1 (bracketed_int neg ds) = minus_sign neg +:+ ds.
Proof.
  unfold bracketed_int, slice_1_m1.
  by rewrite <-str_app_assoc, drop_last_snoc.
Qed.

Lemma digits_value_decimal (ds : string) (acc : Z) :
  all_digits ds = true →
  digits_value acc ds
  = Some (acc * 10 ^ Z.of_nat (String.length ds) + decimal ds)%Z.
Proof.
  revert acc. induction ds as [|d ds IH]; intros acc.
  - intros _. cbn. f_equal. lia.
  - cbn [all_digits digits_value decimal String.length].
    intros [-> Hd]%andb_prop. rewrite IH by done. f_equal.
    rewrite Nat2Z.inj_succ, Z.pow_succ_r by lia. ring.
Qed.

Lemma int_literal_signed neg ds :
  ds ≠ "" → all_digits ds = true →
  int_literal (minus_sign neg +:+ ds) = Some (signed neg (decimal ds)) ∧
  literal_digits (minus_sign neg +:+ ds) = ds.
Proof.
  intros Hne Hd. destruct ds as [|d ds]; [done|].
  pose proof (digits_value_decimal (String d ds) 0 Hd) as Hn.
  rewrite Z.mul_0_l, Z.add_0_l in Hn.
  destruct neg; unfold minus_sign, signed.
  - rewrite str_app_cons, str_app_nil_l.
    unfold int_literal, literal_digits. simpl (Ascii.eqb _ _). cbv iota.
    by rewrite Hn.
  - rewrite str_app_nil_l. unfold int_literal, literal_digits.
    assert (Ascii.eqb d "-" = false) as ->; [|done].
    apply ascii_eqb_neq. cbn [all_digits] in Hd. apply andb_prop in Hd as [Hd _].
    by eapply is_digit_not.
Qed.

(** Up to the limit on the digits, [int] reads a signed run of digits as
    the number it spells; beyond it, [int] raises [ValueError]. *)
Lemma py_int_signed neg ds :
  ds ≠ "" → all_digits ds = true →
  (Z.of_nat (String.length ds) <= int_max_str_digits)%Z →
  py_int (minus_sign neg +:+ ds) = Ok (signed neg (decimal ds)).
Proof.
  intros Hne Hd Hlen. unfold py_int.
  destruct (int_literal_signed neg ds Hne Hd) as [-> ->].
  by apply Z.ltb_ge in Hlen as ->.
Qed.

Lemma py_int_too_long neg ds :
  ds ≠ "" → all_digits ds = true →
  (int_max_str_digits < Z.of_nat (String.length ds))%Z →
  ∃ e, py_int (minus_sign neg +:+ ds) = Raise e ∧
       isinstance_exc e "ValueError" = true.
Proof.
  intros Hne Hd Hlen. unfold py_int.
  destruct (int_literal_signed neg ds Hne Hd) as [-> ->].
  apply Z.ltb_lt in Hlen as ->. by eexists.
Qed.

Lemma py_int_raises (s : string) e :
  py_int s = Raise e → isinstance_exc e "ValueError" = true.
Proof.
  unfold py_int. destruct (int_literal s); [|by intros [= <-]].
  destruct (_ <? _)%Z; [by intros [= <-]|done].
Qed.

Lemma bracket_int_ext x g rest y :
  bracket_int x = Some (g, rest) → bracket_int (x +:+ y) = Some (g, rest +:+ y).
Proof.
  intros (neg & ds & ? & ? & -> & ->)%bracket_int_shape.
  by rewrite str_app_assoc, bracket_int_spec.
Qed.

Lemma RE_PATH_LIST_INDEX_bracketed neg ds :
  ds ≠ "" → all_digits ds = true →
  RE_PATH_LIST_INDEX (bracketed_int neg ds) = true.
Proof.
  intros Hne Hd. unfold RE_PATH_LIST_INDEX.
  rewrite <-(str_app_nil_r (bracketed_int neg ds)).
  by rewrite bracket_int_spec.
Qed.

Lemma key_token_bracketed neg ds :
  ds ≠ "" → all_digits ds = true →
  key_token (bracketed_int neg ds)
  = match py_int (minus_sign neg +:+ ds) with
    | Ok n => Ok (mk_PathToken (VInt n) py_list)
    | Raise e => Raise e
    end.
Proof.
  intros Hne Hd. unfold key_token.
  by rewrite RE_PATH_LIST_INDEX_bracketed, slice_bracketed.
Qed.

Lemma key_token_raises (k : string) e :
  key_token k = Raise e → isinstance_exc e "ValueError" = true.
Proof.
  unfold key_token. destruct (RE_PATH_LIST_INDEX k); [|done].
  destruct (py_int _) as [n|e'] eqn:Hn; [done|].
  intros [= <-]. by eapply py_int_raises.
Qed.

Lemma bracketed_int_length neg ds :
  String.length (bracketed_int neg ds)
  = 2 + String.length (minus_sign neg) + String.length ds.
Proof.
  unfold bracketed_int. cbn [String.length].
  rewrite !str_app_length. cbn. lia.
Qed.

Lemma key_token_segment seg :
  bracket_int seg = None →
  key_token seg = Ok (mk_PathToken (VStr (unescape_path_key seg)) py_dict).
Proof. intros H. unfold key_token, RE_PATH_LIST_INDEX. by rewrite H. Qed.

Lemma RE_PATH_KEY_DELIM_None ab s :
  RE_PATH_KEY_DELIM ab s = None → bracket_int s = None.
Proof.
  unfold RE_PATH_KEY_DELIM. destruct (if ab then _ else _); [done|].
  by destruct (bracket_int s) as [[??]|].
Qed.

Lemma RE_PATH_KEY_DELIM_group ab s g rest :
  RE_PATH_KEY_DELIM ab s = Some (g, rest) → item_shape g.
Proof.
  unfold RE_PATH_KEY_DELIM. destruct (if ab then _ else _).
  - by intros [= <- <-].
  - destruct (bracket_int s) as [[g' r]|] eqn:H2; [|done].
    intros [= <- <-].
    apply bracket_int_shape in H2 as (neg & ds & ? & ? & -> & ->).
    right. eauto.
Qed.

Lemma re_split_at_shape ab s :
  ∃ seg items t,
    re_split_at ab s = Some seg :: items ∧ s = seg +:+ t ∧
    bracket_int seg = None ∧ Forall item_shape items.
Proof.
  remember (String.length s) as n eqn:Hn.
  revert ab s Hn. induction (lt_wf n) as [n _ IH]. intros ab s ->.
  destruct (RE_PATH_KEY_DELIM ab s) as [[g rest]|] eqn:Hm.
  - rewrite (re_split_at_match _ _ _ _ Hm).
    pose proof (RE_PATH_KEY_DELIM_group _ _ _ _ Hm) as Hg.
    apply RE_PATH_KEY_DELIM_consumes in Hm.
    destruct (IH _ Hm false rest eq_refl) as (seg & items & t & -> & _ & Hs & Hi).
    exists "", (g :: Some seg :: items), s. repeat split; try done.
    constructor; [done|]. constructor; [by left|done].
  - destruct s as [|c r].
    + rewrite re_split_at_nil. by exists "", [], "".
    + rewrite (re_split_at_char _ _ _ Hm).
      destruct (IH (String.length r) ltac:(simpl; lia) (Ascii.eqb c backslash) r eq_refl)
        as (seg & items & t & -> & Hr & Hs & Hi).
      exists (String c seg), items, t. simpl. repeat split; try done.
      * by rewrite str_app_cons, <-Hr.
      * apply RE_PATH_KEY_DELIM_None in Hm.
        destruct (bracket_int (String c seg)) as [[g rest]|] eqn:Hb; [|done].
        apply (bracket_int_ext _ _ _ t) in Hb.
        rewrite str_app_cons, <-Hr in Hb. congruence.
Qed.

Lemma str_replace_nonempty (old new s : string) :
  new ≠ "" → s ≠ "" → str_replace old new s ≠ "".
Proof.
  intros Hn Hs. destruct s as [|c r]; [done|]. unfold str_replace. simpl.
  destruct (startswith old (String c r)); [|done].
  by destruct new.
Qed.

Lemma unescape_path_key_nonempty (seg : string) :
  seg ≠ "" → unescape_path_key seg ≠ "".
Proof.
  intros H. unfold unescape_path_key.
  by repeat apply str_replace_nonempty.
Qed.

Lemma filter_None_app (l1 l2 : list (option string)) :
  filter_None (l1 ++ l2) = filter_None l1 ++ filter_None l2.
Proof.
  induction l1 as [|[[|c r]|] l1 IH]; simpl; [done| done | |done].
  by rewrite IH.
Qed.

Lemma key_tokens_app (k1 k2 : list string) ts1 ts2 :
  key_tokens k1 = Ok ts1 → key_tokens k2 = Ok ts2 →
  key_tokens (k1 ++ k2) = Ok (ts1 ++ ts2).
Proof.
  revert ts1. induction k1 as [|k k1 IH]; intros ts1; simpl.
  - by intros [= <-].
  - destruct (key_token k) as [t|]; [|done].
    destruct (key_tokens k1) as [ts|]; [|done].
    intros [= <-] H2. by rewrite (IH ts eq_refl H2).
Qed.

Lemma key_tokens_app_eq (k1 k2 : list string) :
  key_tokens (k1 ++ k2) =
    match key_tokens k1 with
    | Ok ts1 =>
        match key_tokens k2 with
        | Ok ts2 => Ok (ts1 ++ ts2)
        | Raise e => Raise e
        end
    | Raise e => Raise e
    end.
Proof.
  induction k1 as [|k k1 IH]; cbn [app key_tokens].
  - by destruct (key_tokens k2).
  - destruct (key_token k) as [t|]; [|done]. rewrite IH.
    destruct (key_tokens k1) as [ts|]; [|done].
    by destruct (key_tokens k2).
Qed.

Lemma key_tokens_single (k : string) (t : PathToken) :
  key_token k = Ok t → key_tokens [k] = Ok [t].
Proof. intros H. unfold key_tokens. by rewrite H. Qed.

(** When the comprehension returns, every non-empty item has given one
    token, and no token has the empty string as its key. *)
Lemma key_tokens_items (l : list (option string)) ts :
  Forall item_shape l →
  key_tokens (filter_None l) = Ok ts →
  length ts = length (filter_None l) ∧ Forall (λ t, key t ≠ VStr "") ts.
Proof.
  intros Hl. revert ts.
  induction Hl as [|it l Hit Hl IH]; intros ts; [by intros [= <-]|].
  destruct it as [[|c r]|]; cbn [filter_None]; [apply IH| |apply IH].
  cbn [key_tokens].
  destruct (key_token (String c r)) as [t|] eqn:Ht; [|done].
  destruct (key_tokens (filter_None l)) as [ts'|]; [|done].
  intros [= <-]. destruct (IH ts' eq_refl) as [IH1 IH2].
  split; [cbn; by rewrite IH1|]. constructor; [|done].
  destruct Hit as [Hseg|(neg & ds & Hne & Hd & Hx)].
  - rewrite (key_token_segment _ Hseg) in Ht. injection Ht as <-.
    cbn. intros [= Hk]. by apply (unescape_path_key_nonempty (String c r)).
  - rewrite Hx, key_token_bracketed in Ht by done.
    destruct (py_int _); [|done]. by injection Ht as <-.
Qed.

(** The comprehension raises nothing but [ValueError]. *)
Lemma key_tokens_raises (l : list string) e :
  key_tokens l = Raise e → isinstance_exc e "ValueError" = true.
Proof.
  induction l as [|k l IH]; [done|]. cbn [key_tokens].
  destruct (key_token k) as [t|e'] eqn:Hk.
  - destruct (key_tokens l) as [ts|e']; [done|]. intros [= <-]. by apply IH.
  - intros [= <-]. by eapply key_token_raises.
Qed.

(** Short items do not make the comprehension raise. *)
Lemma key_tokens_short (l : list (option string)) :
  Forall item_shape l → Forall short_item l →
  ∃ ts, key_tokens (filter_None l) = Ok ts.
Proof.
  induction 1 as [|it l Hit Hl IH]; [by exists []|].
  intros [Hs Hss]%Forall_cons. destruct (IH Hss) as [ts Hts].
  destruct it as [[|c r]|]; cbn [filter_None]; [by exists ts| |by exists ts].
  cbn [key_tokens]. rewrite Hts.
  destruct Hit as [Hseg|(neg & ds & Hne & Hd & Hx)].
  - rewrite (key_token_segment _ Hseg). by eexists.
  - rewrite Hx, key_token_bracketed by done.
    rewrite py_int_signed; [by eexists|done..|].
    cbn [short_item] in Hs. rewrite Hx, bracketed_int_length in Hs. lia.
Qed.

Lemma RE_PATH_KEY_DELIM_group_length ab s g rest :
  RE_PATH_KEY_DELIM ab s = Some (Some g, rest) →
  String.length g ≤ String.length s.
Proof.
  unfold RE_PATH_KEY_DELIM. destruct (if ab then _ else _); [done|].
  destruct (bracket_int s) as [[g' r]|] eqn:H2; [|done].
  intros [= <- <-]. apply bracket_int_inv in H2 as [-> _].
  rewrite str_app_length. lia.
Qed.

(** No item of a split is longer than the string that was split. *)
Lemma re_split_at_item_length ab s :
  Forall (λ it, match it with
                | Some x => String.length x ≤ String.length s
                | None => True
                end) (re_split_at ab s).
Proof.
  remember (String.length s) as n eqn:Hn.
  revert ab s Hn. induction (lt_wf n) as [n _ IH]. intros ab s ->.
  destruct (RE_PATH_KEY_DELIM ab s) as [[g rest]|] eqn:Hm.
  - rewrite (re_split_at_match _ _ _ _ Hm).
    pose proof (RE_PATH_KEY_DELIM_consumes _ _ _ _ Hm) as Hlt.
    constructor; [cbn; lia|]. constructor.
    + destruct g as [g|]; [|done]. by eapply RE_PATH_KEY_DELIM_group_length.
    + eapply Forall_impl; [apply (IH _ Hlt false rest eq_refl)|].
      intros [x|]; [|done]. cbn. lia.
  - destruct s as [|c r].
    + rewrite re_split_at_nil. by repeat constructor.
    + rewrite (re_split_at_char _ _ _ Hm).
      pose proof (IH (String.length r) ltac:(simpl; lia)
                    (Ascii.eqb c backslash) r eq_refl) as Hr.
      destruct (re_split_at_head (Ascii.eqb c backslash) r) as (seg & items & Heq).
      rewrite Heq in *. cbn [cons_first].
      apply Forall_cons in Hr as [Hseg Hitems].
      constructor; [cbn in *; lia|].
      eapply Forall_impl; [exact Hitems|].
      intros [x|]; [|done]. cbn. lia.
Qed.

Lemma re_split_item_shape (s : string) : Forall item_shape (re_split s).
Proof.
  rewrite re_split_eq.
  destruct (re_split_at_shape false s) as (seg & items & t & -> & _ & Hs & Hi).
  constructor; [by left|done].
Qed.

(** When [split_keys] returns, it has given one token per non-empty item
    of the split and no token with the empty string as key. *)
Lemma split_keys_Ok (s : string) ts :
  split_keys s = Ok ts →
  length ts = length (filter_None (re_split s)) ∧
  Forall (λ t, key t ≠ VStr "") ts.
Proof. apply key_tokens_items, re_split_item_shape. Qed.

(** It returns on every string of at most 4302 characters, which has no
    room for a bracketed integer of more than 4300 digits. *)
Lemma split_keys_short (s : string) :
  (Z.of_nat (String.length s) <= int_max_str_digits + 2)%Z →
  ∃ ts, split_keys s = Ok ts.
Proof.
  intros Hlen. unfold split_keys.
  apply key_tokens_short; [apply re_split_item_shape|].
  rewrite re_split_eq.
  eapply Forall_impl; [apply re_split_at_item_length|].
  intros [x|]; [|done]. cbn. lia.
Qed.

Lemma contains_char_app_r c x y :
  contains_char c y = true → contains_char c (x +:+ y) = true.
Proof.
  intros H. induction x as [|d x IH]; [done|].
  rewrite str_app_cons. simpl. rewrite IH. apply orb_true_r.
Qed.

(** ** The examples of the docstrings *)

Example to_path_dots :
  to_path (VStr "a.b.c") = Ok [VStr "a"; VStr "b"; VStr "c"].
Proof. by vm_compute. Qed.

Example to_path_index :
  to_path (VStr "a[0].b.c") = Ok [VStr "a"; VInt 0; VStr "b"; VStr "c"].
Proof. by vm_compute. Qed.

Example to_path_indexes :
  to_path (VStr "a[0][1][2].b.c")
  = Ok [VStr "a"; VInt 0; VInt 1; VInt 2; VStr "b"; VStr "c"].
Proof. by vm_compute. Qed.

(** A newline after a bracketed integer is a key of its own: the scanner
    has already taken the bracketed integer as an item. *)
Example re_split_newline :
  re_split (String "[" (String "0" (String "]" (String newline ""))))
  = [Some ""; Some "[0]"; Some (String newline "")].
Proof. by vm_compute. Qed.

Example memoize_docstring_keys :
  default_key repr_constant_objects [VInt 1] [] = VStr "(1,){}"
  ∧ default_key repr_constant_objects [VInt 1; VInt 1; VInt 1] []
    = VStr "(1, 1, 1){}".
Proof. by vm_compute. Qed.

(** ** Decimal notation *)

Lemma all_digits_app (x y : string) :
  all_digits (x +:+ y) = all_digits x && all_digits y.
Proof.
  induction x as [|c x IH]; [done|].
  rewrite str_app_cons. cbn [all_digits]. by rewrite IH, andb_assoc.
Qed.

Lemma decimal_app (x y : string) :
  decimal (x +:+ y)
  = (decimal x * 10 ^ Z.of_nat (String.length y) + decimal y)%Z.
Proof.
  induction x as [|c x IH]; [rewrite str_app_nil_l; cbn [decimal]; lia|].
  rewrite str_app_cons. cbn [decimal]. rewrite IH, str_app_length.
  rewrite Nat2Z.inj_add, Z.pow_add_r by lia. ring.
Qed.

Lemma pretty_N_char_digit (d : N) :
  (d < 10)%N →
  is_digit (pretty_N_char d) = true ∧ digit_value (pretty_N_char d) = Z.of_N d.
Proof.
  intros Hd.
  assert (d = 0 ∨ d = 1 ∨ d = 2 ∨ d = 3 ∨ d = 4 ∨ d = 5 ∨ d = 6 ∨ d = 7
          ∨ d = 8 ∨ d = 9)%N as H by lia.
  repeat (destruct H as [->|H]; [by vm_compute|]). subst. by vm_compute.
Qed.

(** The printer of the library writes a number as a run of digits that
    spells it. *)
Lemma pretty_N_go_digits (x : N) :
  ∃ ds, (∀ s, pretty_N_go x s = ds +:+ s) ∧ all_digits ds = true ∧
        decimal ds = Z.of_N x ∧ (x ≠ 0%N → ds ≠ "").
Proof.
  induction (N.lt_wf_0 x) as [x _ IH].
  destruct (decide (x = 0%N)) as [->|Hx].
  { exists "". by repeat split. }
  assert (0 < x)%N as Hpos by lia.
  destruct (IH (x `div` 10)%N) as (ds & H1 & H2 & H3 & _).
  { by apply N.div_lt. }
  destruct (pretty_N_char_digit (x `mod` 10)%N) as [Hc1 Hc2].
  { by apply N.mod_lt. }
  exists (ds +:+ String (pretty_N_char (x `mod` 10)) "").
  split; [|split; [|split]].
  - intros s. rewrite pretty_N_go_step, H1 by done.
    by rewrite str_app_assoc, str_app_cons, str_app_nil_l.
  - rewrite all_digits_app, H2. cbn. by rewrite Hc1.
  - rewrite decimal_app, H3. cbn [decimal String.length]. rewrite Hc2.
    pose proof (N.div_mod x 10 ltac:(done)) as Hdiv.
    change (10 ^ Z.of_nat 1)%Z with 10%Z. change (10 ^ Z.of_nat 0)%Z with 1%Z. lia.
  - intros _. by destruct ds.
Qed.

Lemma pretty_N_digits (x : N) :
  pretty x ≠ "" ∧ all_digits (pretty x) = true ∧ decimal (pretty x) = Z.of_N x.
Proof.
  unfold pretty, pretty_N. destruct (decide (x = 0%N)) as [->|Hx]; [done|].
  destruct (pretty_N_go_digits x) as (ds & H1 & H2 & H3 & H4).
  rewrite H1, str_app_nil_r. auto.
Qed.

Lemma pretty_Z_signed (z : Z) :
  pretty z = minus_sign (z <? 0)%Z +:+ pretty (Z.abs_N z) ∧
  signed (z <? 0)%Z (Z.of_N (Z.abs_N z)) = z.
Proof. destruct z as [|p|p]; [done|split; [done|cbn; lia]..]. Qed.

(** ** The tokenizer *)

Lemma to_path_tokens_delimited (s : string) :
  contains_char "[" s = true →
  to_path_tokens (VStr s)
  = match split_keys s with
    | Ok keys => Ok (Tokens keys)
    | Raise e => Raise e
    end.
Proof. intros H. unfold to_path_tokens. by rewrite H, orb_true_r. Qed.

(** The comprehension over a string with a bracketed integer in it: the
    keys of the text before, the index, the keys of the text after. *)
Lemma split_keys_bracketed (neg : bool) (ds pre post : string) :
  ds ≠ "" → all_digits ds = true →
  split_keys (pre +:+ bracketed_int neg ds +:+ post)
  = match split_keys pre with
    | Ok before =>
        match py_int (minus_sign neg +:+ ds) with
        | Ok n =>
            match split_keys post with
            | Ok after => Ok (before ++ [mk_PathToken (VInt n) py_list] ++ after)
            | Raise e => Raise e
            end
        | Raise e => Raise e
        end
    | Raise e => Raise e
    end.
Proof.
  intros Hne Hd. unfold split_keys.
  rewrite (re_split_eq pre), (re_split_eq post), (re_split_eq (_ +:+ _)).
  rewrite re_split_at_bracketed by done.
  rewrite !filter_None_app, !key_tokens_app_eq.
  destruct (key_tokens (filter_None (re_split_at false pre))) as [before|]; [|done].
  change (filter_None [Some (bracketed_int neg ds)]) with [bracketed_int neg ds].
  cbn [key_tokens]. rewrite key_token_bracketed by done.
  destruct (py_int _) as [n|]; [|done].
  by destruct (key_tokens (filter_None (re_split_at false post))).
Qed.

(** C4, as stated, fails: a bracketed run of 4301 digits is not turned into
    a token; [int] refuses it and the tokenizer raises [ValueError]. *)
Lemma C4_counterexample :
  (∃ e, to_path_tokens (VStr ("a" +:+ bracketed_int false (repeat_char 4301 "1")))
        = Raise e ∧ isinstance_exc e "ValueError" = true)
  ∧ ¬ (∀ (neg : bool) (ds pre post : string),
         ds ≠ "" → all_digits ds = true →
         ∃ tokens,
           to_path_tokens (VStr (pre +:+ bracketed_int neg ds +:+ post))
           = Ok (Tokens tokens)).
Proof.
  assert (∃ e, to_path_tokens
                 (VStr ("a" +:+ bracketed_int false (repeat_char 4301 "1")))
               = Raise e ∧ isinstance_exc e "ValueError" = true) as Hraise.
  { eexists. split; vm_compute; reflexivity. }
  split; [exact Hraise|]. intros H.
  destruct Hraise as (e & He & _).
  destruct (H false (repeat_char 4301 "1") "a" "") as [tokens Ht].
  - discriminate.
  - by vm_compute.
  - rewrite str_app_nil_r in Ht. congruence.
Qed.

(** C4, amended: ["a[0].b"] gives exactly the three tokens [a] (mapping),
    [0] (sequence), [b] (mapping).  In general, a bracketed integer of at
    most 4300 digits anywhere in a path string is one sequence token whose
    key is the integer it spells (in particular, a number printed in decimal
    between brackets is read back as that number); it ends the key before it
    and starts the key after it without any dot, so the tokens of the whole
    string are the tokens of the text before it, that token, and the tokens
    of the text after it.  With more than 4300 digits, the limit of the
    interpreter on [int], the tokenizer raises [ValueError].  A bracket at
    the very start is accepted. *)
Theorem C4_bracketed_integer_token :
  to_path_tokens (VStr "a[0].b")
  = Ok (Tokens [mk_PathToken (VStr "a") py_dict;
                mk_PathToken (VInt 0) py_list;
                mk_PathToken (VStr "b") py_dict])
  ∧ to_path_tokens (VStr "a[12][-3][007]")
    = Ok (Tokens [mk_PathToken (VStr "a") py_dict;
                  mk_PathToken (VInt 12) py_list;
                  mk_PathToken (VInt (-3)) py_list;
                  mk_PathToken (VInt 7) py_list])
  ∧ (∀ (neg : bool) (ds pre post : string) before after,
       ds ≠ "" → all_digits ds = true →
       (Z.of_nat (String.length ds) <= 4300)%Z →
       split_keys pre = Ok before → split_keys post = Ok after →
       re_split (pre +:+ bracketed_int neg ds +:+ post)
       = re_split pre ++ [Some (bracketed_int neg ds)] ++ re_split post ∧
       to_path_tokens (VStr (pre +:+ bracketed_int neg ds +:+ post))
       = Ok (Tokens (before
                       ++ [mk_PathToken (VInt (signed neg (decimal ds))) py_list]
                       ++ after)))
  ∧ (∀ (z : Z) (pre post : string) before after,
       (Z.of_nat (String.length (pretty (Z.abs_N z))) <= 4300)%Z →
       split_keys pre = Ok before → split_keys post = Ok after →
       to_path_tokens (VStr (pre +:+ "[" +:+ pretty z +:+ "]" +:+ post))
       = Ok (Tokens (before ++ [mk_PathToken (VInt z) py_list] ++ after)))
  ∧ (∀ (neg : bool) (ds pre post : string) before,
       ds ≠ "" → all_digits ds = true →
       (4300 < Z.of_nat (String.length ds))%Z →
       split_keys pre = Ok before →
       ∃ e, to_path_tokens (VStr (pre +:+ bracketed_int neg ds +:+ post))
            = Raise e ∧ isinstance_exc e "ValueError" = true)
  ∧ to_path_tokens (VStr "[0].a")
    = Ok (Tokens [mk_PathToken (VInt 0) py_list;
                  mk_PathToken (VStr "a") py_dict]).
Proof.
  assert (∀ (neg : bool) (ds pre post : string) before after,
            ds ≠ "" → all_digits ds = true →
            (Z.of_nat (String.length ds) <= 4300)%Z →
            split_keys pre = Ok before → split_keys post = Ok after →
            to_path_tokens (VStr (pre +:+ bracketed_int neg ds +:+ post))
            = Ok (Tokens (before
                       ++ [mk_PathToken (VInt (signed neg (decimal ds))) py_list]
                       ++ after))) as Hgen.
  { intros neg ds pre post before after Hne Hd Hlen Hb Ha.
    rewrite to_path_tokens_delimited by by apply contains_char_app_r.
    rewrite split_keys_bracketed, Hb by done.
    rewrite py_int_signed by done. by rewrite Ha. }
  split; [by vm_compute|]. split; [by vm_compute|].
  split; [|split; [|split; [|by vm_compute]]].
  - intros neg ds pre post before after Hne Hd Hlen Hb Ha.
    split; [|by apply Hgen].
    rewrite !re_split_eq. by apply re_split_at_bracketed.
  - intros z pre post before after Hlen Hb Ha.
    destruct (pretty_Z_signed z) as [Hz1 Hz2].
    destruct (pretty_N_digits (Z.abs_N z)) as (Hne & Hd & Hv).
    specialize (Hgen (z <? 0)%Z (pretty (Z.abs_N z)) pre post before after
                  Hne Hd Hlen Hb Ha).
    rewrite Hv, Hz2 in Hgen. rewrite <-Hgen. do 2 f_equal.
    unfold bracketed_int. rewrite Hz1.
    by rewrite !str_app_cons, !str_app_nil_l, !str_app_assoc.
  - intros neg ds pre post before Hne Hd Hlen Hb.
    rewrite to_path_tokens_delimited by by apply contains_char_app_r.
    rewrite split_keys_bracketed, Hb by done.
    destruct (py_int_too_long neg ds Hne Hd Hlen) as (e & -> & He).
    by exists e.
Qed.

Lemma C4_bracketed_integer_token_witness :
  to_path_tokens (VStr ("a" +:+ bracketed_int true "0012" +:+ "x.y"))
  = Ok (Tokens ([mk_PathToken (VStr "a") py_dict]
                  ++ [mk_PathToken (VInt (-12)) py_list]
                  ++ [mk_PathToken (VStr "x") py_dict;
                      mk_PathToken (VStr "y") py_dict]))
  ∧ to_path_tokens (VStr ("a" +:+ "[" +:+ pretty (-305)%Z +:+ "]" +:+ ""))
    = Ok (Tokens ([mk_PathToken (VStr "a") py_dict]
                    ++ [mk_PathToken (VInt (-305)) py_list] ++ [])).
Proof.
  split.
  - apply (proj1 (proj2 (proj2 C4_bracketed_integer_token))
             true "0012" "a" "x.y").
    + discriminate.
    + reflexivity.
    + simpl. lia.
    + reflexivity.
    + reflexivity.
  - apply (proj1 (proj2 (proj2 (proj2 C4_bracketed_integer_token)))
             (-305)%Z "a" "").
    + vm_compute. discriminate.
    + reflexivity.
    + reflexivity.
Defined.

(** C6, as stated, fails: the list [[0, "a"]] comes back as it is, not as
    two [PathToken]s with container hints. *)
Lemma C6_counterexample :
  to_path_tokens (VList [VInt 0; VStr "a"])
  ≠ Ok (Tokens (sequence_tokens_spec [VInt 0; VStr "a"]))
  ∧ to_path_tokens (VList [VInt 0; VStr "a"])
    = Ok (Passthrough (VList [VInt 0; VStr "a"])).
Proof. split; [discriminate|reflexivity]. Qed.

(** C6, amended: an input that is neither a string, nor a number, nor the
    unset sentinel is handed back unchanged by [to_path_tokens]: no
    [PathToken] is built, no container hint is attached and no element is
    parsed.  [to_path] of a list is then the list itself, element for
    element. *)
Theorem C6_sequence_passes_through (value : pyval) :
  is_string value = false → is_number value = false → value ≠ VUnset →
  to_path_tokens value = Ok (Passthrough value)
  ∧ (∀ keys, value = VList keys → to_path value = Ok keys).
Proof.
  intros Hs Hn Hu.
  assert (to_path_tokens value = Ok (Passthrough value)) as H.
  { by destruct value. }
  split; [done|]. intros keys ->. unfold to_path. by rewrite H.
Qed.

Lemma C6_sequence_passes_through_witness :
  to_path_tokens (VList [VInt 0; VStr "a.b"])
  = Ok (Passthrough (VList [VInt 0; VStr "a.b"]))
  ∧ (∀ keys, VList [VInt 0; VStr "a.b"] = VList keys →
             to_path (VList [VInt 0; VStr "a.b"]) = Ok keys).
Proof.
  apply (C6_sequence_passes_through (VList [VInt 0; VStr "a.b"])).
  - reflexivity.
  - reflexivity.
  - discriminate.
Defined.

(** C7: the empty string gives one mapping token with the empty key; the
    unset sentinel gives no token; ["a.b."] and ["a..b"] give the tokens [a]
    and [b] only.  In general, whenever the tokenizer returns on a string
    that contains a dot or a bracket, it gives exactly one token per
    non-empty item of the split, and none of its tokens has the empty string
    as key; and it does return on every such string of at most 4302
    characters (a longer one may hold a bracketed integer that [int]
    refuses). *)
Theorem C7_tokenizer_edge_cases :
  to_path_tokens (VStr "") = Ok (Tokens [mk_PathToken (VStr "") py_dict])
  ∧ to_path_tokens VUnset = Ok (Tokens [])
  ∧ to_path_tokens (VStr "a.b.")
    = Ok (Tokens [mk_PathToken (VStr "a") py_dict;
                  mk_PathToken (VStr "b") py_dict])
  ∧ to_path_tokens (VStr "a..b")
    = Ok (Tokens [mk_PathToken (VStr "a") py_dict;
                  mk_PathToken (VStr "b") py_dict])
  ∧ (∀ (s : string) tokens,
       contains_char "." s || contains_char "[" s = true →
       to_path_tokens (VStr s) = Ok (Tokens tokens) →
       length tokens = length (filter_None (re_split s)) ∧
       Forall (λ t, key t ≠ VStr "") tokens)
  ∧ (∀ s : string,
       contains_char "." s || contains_char "[" s = true →
       (Z.of_nat (String.length s) <= 4302)%Z →
       ∃ tokens, to_path_tokens (VStr s) = Ok (Tokens tokens)).
Proof.
  do 4 (split; [by vm_compute|]). split.
  - intros s tokens Hs. unfold to_path_tokens. rewrite Hs.
    destruct (split_keys s) as [ts|] eqn:Hts; [|done].
    intros [= <-]. by apply split_keys_Ok.
  - intros s Hs Hlen. destruct (split_keys_short s Hlen) as [ts Hts].
    exists ts. unfold to_path_tokens. by rewrite Hs, Hts.
Qed.

Lemma C7_tokenizer_edge_cases_witness :
  (length [mk_PathToken (VStr "a") py_dict; mk_PathToken (VInt 1) py_list]
   = length (filter_None (re_split "a..[1].")) ∧
   Forall (λ t, key t ≠ VStr "")
     [mk_PathToken (VStr "a") py_dict; mk_PathToken (VInt 1) py_list])
  ∧ ∃ tokens, to_path_tokens (VStr "a..[1].") = Ok (Tokens tokens).
Proof.
  split.
  - apply (proj1 (proj2 (proj2 (proj2 (proj2 C7_tokenizer_edge_cases))))
             "a..[1]."); reflexivity.
  - apply (proj2 (proj2 (proj2 (proj2 (proj2 C7_tokenizer_edge_cases))))
             "a..[1].").
    + reflexivity.
    + simpl. lia.
Defined.

(** ** Dots and backslashes *)

Lemma backslashes_even (n : nat) :
  Nat.even n = true → ∃ k, backslashes n = bs_pairs k.
Proof.
  induction (lt_wf n) as [n _ IH]. destruct n as [|[|m]]; [by exists 0|done|].
  intros Hm. destruct (IH m ltac:(lia) Hm) as [k Hk].
  exists (S k). simpl. by rewrite Hk.
Qed.

Lemma bs_pairs_dot_odd (n : nat) (y : string) :
  Nat.odd n = true → bs_pairs_dot (backslashes n +:+ String "." y) = None.
Proof.
  induction (lt_wf n) as [n _ IH]. destruct n as [|[|m]]; [done| |].
  - intros _. simpl backslashes. by rewrite str_app_cons, bs_pairs_dot_eq.
  - intros Hm. simpl backslashes. rewrite !str_app_cons, bs_pairs_dot_eq.
    rewrite Ascii.eqb_refl. cbn [andb].
    by rewrite (IH m ltac:(lia) Hm).
Qed.

Lemma bracket_int_not_bracket (c : ascii) (s : string) :
  c ≠ "["%char → bracket_int (String c s) = None.
Proof. intros H%ascii_eqb_neq. unfold bracket_int. by rewrite H. Qed.

Lemma re_split_at_after_backslash (n : nat) (y b : string) l' :
  re_split_at false y = Some b :: l' →
  re_split_at true (backslashes n +:+ String "." y)
  = Some (backslashes n +:+ String "." b) :: l'.
Proof.
  intros Hy. induction n as [|n IH].
  - rewrite !str_app_nil_l, re_split_at_char.
    + change (Ascii.eqb "." backslash) with false. by rewrite Hy.
    + unfold RE_PATH_KEY_DELIM. by rewrite bracket_int_not_bracket.
  - simpl backslashes. rewrite !str_app_cons, re_split_at_char.
    + by rewrite Ascii.eqb_refl, IH.
    + unfold RE_PATH_KEY_DELIM. by rewrite bracket_int_not_bracket.
Qed.

Lemma bracketed_int_app neg ds rest :
  bracketed_int neg ds +:+ rest
  = String "[" (minus_sign neg +:+ ds) +:+ String "]" rest.
Proof.
  unfold bracketed_int. by rewrite !str_app_cons, !str_app_assoc.
Qed.

(** After a match the character before the position is never a
    backslash. *)
Lemma RE_PATH_KEY_DELIM_ends ab x g rest :
  RE_PATH_KEY_DELIM ab x = Some (g, rest) →
  ends_with_backslash ab x = ends_with_backslash false rest.
Proof.
  unfold RE_PATH_KEY_DELIM.
  destruct (if ab then None else bs_pairs_dot x) as [r|] eqn:H1.
  - intros [= <- <-]. destruct ab; [done|].
    apply bs_pairs_dot_inv in H1 as [k ->].
    by rewrite ends_with_backslash_app.
  - destruct (bracket_int x) as [[g' r]|] eqn:H2; [|done].
    intros [= <- <-].
    apply bracket_int_shape in H2 as (neg & ds & ? & ? & -> & ->).
    by rewrite bracketed_int_app, ends_with_backslash_app.
Qed.

Lemma cons_first_snoc c (l0 : list (option string)) a0 seg items :
  l0 ++ [Some a0] = Some seg :: items →
  ∃ l a, cons_first c (l0 ++ [Some a0]) = l ++ [Some a] ∧
         ∀ t tl, cons_first c (l0 ++ [Some (a0 +:+ t)] ++ tl)
                 = l ++ [Some (a +:+ t)] ++ tl.
Proof.
  destruct l0 as [|it l0]; simpl.
  - intros _. by exists [], (String c a0).
  - intros [= -> _]. by exists (Some (String c seg) :: l0), a0.
Qed.

(** A dot after an odd number of backslashes is not a delimiter: it stays,
    with the backslashes, inside one item of the split. *)
Lemma re_split_at_escaped_dot ab (x : string) (n : nat) (y b : string) l' :
  Nat.odd n = true → ends_with_backslash ab x = false →
  re_split_at false y = Some b :: l' →
  ∃ l a, re_split_at ab x = l ++ [Some a] ∧
         re_split_at ab (x +:+ backslashes n +:+ String "." y)
         = l ++ [Some (a +:+ backslashes n +:+ String "." b)] ++ l'.
Proof.
  intros Hn Hx Hy.
  remember (String.length x) as m eqn:Hm.
  revert ab x Hm Hx. induction (lt_wf m) as [m _ IH]. intros ab x -> Hx.
  destruct n as [|n]; [done|].
  destruct x as [|c r].
  - simpl in Hx. subst ab. exists [], "". rewrite re_split_at_nil.
    split; [done|]. rewrite !str_app_nil_l. simpl backslashes.
    rewrite str_app_cons, re_split_at_char.
    + by rewrite Ascii.eqb_refl, (re_split_at_after_backslash _ _ _ _ Hy).
    + unfold RE_PATH_KEY_DELIM.
      rewrite <-str_app_cons.
      change (String backslash (backslashes n)) with (backslashes (S n)).
      rewrite bs_pairs_dot_odd by done.
      simpl backslashes. rewrite str_app_cons.
      by rewrite bracket_int_not_bracket.
  - destruct (RE_PATH_KEY_DELIM ab (String c r)) as [[g rest]|] eqn:Hre.
    + rewrite (re_split_at_match _ _ _ _ Hre).
      rewrite (re_split_at_match _ _ _ _ (RE_PATH_KEY_DELIM_ext _ _ _ _ _ Hre)).
      rewrite (RE_PATH_KEY_DELIM_ends _ _ _ _ Hre) in Hx.
      apply RE_PATH_KEY_DELIM_consumes in Hre.
      destruct (IH _ Hre false rest eq_refl Hx) as (l & a & -> & ->).
      by exists (Some "" :: g :: l), a.
    + rewrite (re_split_at_char _ _ _ Hre).
      assert (RE_PATH_KEY_DELIM ab (String c (r +:+ backslashes (S n) +:+ String "." y)) = None) as Hre'.
      { change (String c (r +:+ backslashes (S n) +:+ String "." y))
          with (String c r +:+ String backslash (backslashes n +:+ String "." y)).
        apply RE_PATH_KEY_DELIM_stop; try done. }
      rewrite str_app_cons, (re_split_at_char _ _ _ Hre').
      destruct (IH (String.length r) ltac:(simpl; lia) (Ascii.eqb c backslash) r eq_refl Hx)
        as (l0 & a0 & Hl0 & ->).
      rewrite Hl0.
      destruct (re_split_at_head (Ascii.eqb c backslash) r) as (seg & items & Hs).
      rewrite Hl0 in Hs.
      destruct (cons_first_snoc c _ _ _ _ Hs) as (l & a & -> & Hw).
      exists l, a. split; [done|]. apply Hw.
Qed.

(** A dot after an even number of backslashes is a delimiter, and the
    backslashes go with it. *)
Lemma re_split_at_plain_dot ab (x : string) (n : nat) (y : string) :
  Nat.even n = true → ends_with_backslash ab x = false →
  re_split_at ab (x +:+ backslashes n +:+ String "." y)
  = re_split_at ab x ++ [None] ++ re_split_at false y.
Proof.
  intros Hn.
  remember (String.length x) as m eqn:Hm.
  revert ab x Hm. induction (lt_wf m) as [m _ IH]. intros ab x -> Hx.
  destruct x as [|c r].
  - simpl in Hx. subst ab. rewrite re_split_at_nil, str_app_nil_l.
    destruct (backslashes_even n Hn) as [k ->].
    rewrite (re_split_at_match false _ None y); [done|].
    unfold RE_PATH_KEY_DELIM. by rewrite bs_pairs_dot_spec.
  - destruct (RE_PATH_KEY_DELIM ab (String c r)) as [[g rest]|] eqn:Hre.
    + rewrite (re_split_at_match _ _ _ _ Hre).
      rewrite (re_split_at_match _ _ _ _ (RE_PATH_KEY_DELIM_ext _ _ _ _ _ Hre)).
      rewrite (RE_PATH_KEY_DELIM_ends _ _ _ _ Hre) in Hx.
      apply RE_PATH_KEY_DELIM_consumes in Hre.
      by rewrite (IH _ Hre false rest eq_refl Hx).
    + rewrite (re_split_at_char _ _ _ Hre).
      assert (RE_PATH_KEY_DELIM ab (String c (r +:+ backslashes n +:+ String "." y)) = None) as Hre'.
      { destruct n as [|n].
        - change (String c (r +:+ backslashes 0 +:+ String "." y))
            with (String c r +:+ String "." y).
          by apply RE_PATH_KEY_DELIM_stop.
        - change (String c (r +:+ backslashes (S n) +:+ String "." y))
            with (String c r +:+ String backslash (backslashes n +:+ String "." y)).
          by apply RE_PATH_KEY_DELIM_stop. }
      rewrite str_app_cons, (re_split_at_char _ _ _ Hre').
      rewrite (IH (String.length r) ltac:(simpl; lia) _ r eq_refl Hx).
      destruct (re_split_at_head (Ascii.eqb c backslash) r) as (seg & items & Hs).
      by rewrite (cons_first_app _ _ _ _ _ Hs).
Qed.

(** ** Unescaping *)

Lemma str_replace_go_0 (old new : string) (c : ascii) (r : string) :
  str_replace_go old new 0 (String c r) =
    if startswith old (String c r)
    then new +:+ str_replace_go old new (String.length old - 1) r
    else String c (str_replace_go old new 0 r).
Proof. reflexivity. Qed.

Lemma str_replace_go_S (old new : string) (k : nat) (c : ascii) (r : string) :
  str_replace_go old new (S k) (String c r) = str_replace_go old new k r.
Proof. reflexivity. Qed.

Lemma unescape_path_key_other (c : ascii) (s : string) :
  c ≠ backslash →
  unescape_path_key (String c s) = String c (unescape_path_key s).
Proof.
  intros Hc. unfold unescape_path_key, str_replace.
  assert (Ascii.eqb backslash c = false) as Hb.
  { apply ascii_eqb_neq. congruence. }
  rewrite str_replace_go_0.
  change (startswith "\\" (String c s))
    with (Ascii.eqb backslash c && startswith "\" s).
  rewrite Hb. cbn [andb]. rewrite str_replace_go_0.
  change (startswith "\." (String c ?t))
    with (Ascii.eqb backslash c && startswith "." t).
  by rewrite Hb.
Qed.

Lemma unescape_path_key_dot (s : string) :
  unescape_path_key ("\." +:+ s) = String "." (unescape_path_key s).
Proof. reflexivity. Qed.

Lemma startswith_dot_replace (s : string) :
  startswith "." s = false → startswith "." (str_replace "\\" "\" s) = false.
Proof.
  destruct s as [|c r]; [done|]. unfold str_replace.
  rewrite str_replace_go_0. intros H.
  destruct (startswith "\\" (String c r)); [done|]. exact H.
Qed.

Lemma unescape_path_key_backslash (s : string) :
  startswith "." s = false →
  unescape_path_key ("\\" +:+ s) = String backslash (unescape_path_key s).
Proof.
  intros H%startswith_dot_replace. unfold unescape_path_key.
  change (str_replace "\\" "\" ("\\" +:+ s))
    with (String backslash (str_replace "\\" "\" s)).
  unfold str_replace at 1. rewrite str_replace_go_0.
  change (startswith "\." (String backslash ?t)) with (startswith "." t).
  by rewrite H.
Qed.

(** How dots, backslashes and items go together.  A dot that comes right
    after an odd number of backslashes is not a delimiter (the split of the
    whole string is the split of the text before the backslashes and the
    split of the text after the dot, with the last item of the one and the
    first item of the other joined around the backslashes and the dot),
    whereas after an even number it is one, and the backslashes are not in
    any item.  An item on which the list-index pattern does not match becomes
    a mapping token whose key is the item unescaped, where unescaping copies
    any other character, turns backslash-dot into a dot and
    backslash-backslash into a backslash. *)
Lemma escaped_dot_rules :
  (∀ (x y : string) (n : nat),
     Nat.odd n = true → ends_with_backslash false x = false →
     ∃ l a b l',
       re_split x = l ++ [Some a] ∧ re_split y = Some b :: l' ∧
       re_split (x +:+ backslashes n +:+ String "." y)
       = l ++ [Some (a +:+ backslashes n +:+ String "." b)] ++ l')
  ∧ (∀ (x y : string) (n : nat),
       Nat.even n = true → ends_with_backslash false x = false →
       re_split (x +:+ backslashes n +:+ String "." y)
       = re_split x ++ [None] ++ re_split y)
  ∧ (∀ item : string,
       RE_PATH_LIST_INDEX item = false →
       key_token item
       = Ok (mk_PathToken (VStr (unescape_path_key item)) py_dict))
  ∧ (∀ (c : ascii) (s : string),
       c ≠ backslash →
       unescape_path_key (String c s) = String c (unescape_path_key s))
  ∧ (∀ s : string,
       unescape_path_key ("\." +:+ s) = String "." (unescape_path_key s))
  ∧ (∀ s : string,
       startswith "." s = false →
       unescape_path_key ("\\" +:+ s) = String backslash (unescape_path_key s)).
Proof.
  split.
  { intros x y n Hn Hx. rewrite !re_split_eq.
    destruct (re_split_at_head false y) as (b & l' & Hy).
    destruct (re_split_at_escaped_dot false x n y b l' Hn Hx Hy) as (l & a & H1 & H2).
    by exists l, a, b, l'. }
  split.
  { intros x y n Hn Hx. rewrite !re_split_eq. by apply re_split_at_plain_dot. }
  split.
  { intros item H. unfold key_token. by rewrite H. }
  split; [apply unescape_path_key_other|].
  split; [apply unescape_path_key_dot|].
  apply unescape_path_key_backslash.
Qed.

(** C5: the code at [a\\.b] (a, two backslashes, dot, b).  The dot follows
    an even number of backslashes and is a delimiter, but the two
    backslashes before it are dropped with it: the tokens are [a] and [b].
    The claim unescapes the pair of the segment [a\\] to one backslash, which
    is what [unescape_path_key] does to that segment and what the tokenizer
    itself does when another character follows the pair, in [a\\b.c]; the
    key the claim describes, [a\], is not produced.  The same loss happens
    behind any key and for any even number of backslashes before a
    delimiting dot.  The escaped dot of [a\.b] is kept, as the claim says. *)
Theorem C5_backslash_pair_before_dot_is_lost :
  to_path_tokens (VStr "a\\.b")
  = Ok (Tokens [mk_PathToken (VStr "a") py_dict;
                mk_PathToken (VStr "b") py_dict])
  ∧ unescape_path_key "a\\" = "a\"
  ∧ to_path_tokens (VStr "a\\.b")
    ≠ Ok (Tokens [mk_PathToken (VStr (unescape_path_key "a\\")) py_dict;
                  mk_PathToken (VStr "b") py_dict])
  ∧ to_path_tokens (VStr "a\\b.c")
    = Ok (Tokens [mk_PathToken (VStr "a\b") py_dict;
                  mk_PathToken (VStr "c") py_dict])
  ∧ (∀ (x y : string) (n : nat),
       Nat.even n = true → ends_with_backslash false x = false →
       to_path_tokens (VStr (x +:+ backslashes n +:+ String "." y))
       = to_path_tokens (VStr (x +:+ String "." y)))
  ∧ to_path_tokens (VStr "a\.b")
    = Ok (Tokens [mk_PathToken (VStr "a.b") py_dict]).
Proof.
  split; [by vm_compute|]. split; [by vm_compute|].
  split; [by vm_compute|]. split; [by vm_compute|].
  split; [|by vm_compute].
  intros x y n Hn Hx. unfold to_path_tokens.
  assert (contains_char "." (x +:+ backslashes n +:+ String "." y) = true) as ->.
  { apply contains_char_app_r, contains_char_app_r. cbn. done. }
  assert (contains_char "." (x +:+ String "." y) = true) as ->.
  { apply contains_char_app_r. cbn. done. }
  cbn [orb]. unfold split_keys.
  rewrite (re_split_eq (x +:+ backslashes n +:+ _)), (re_split_eq (x +:+ String "." y)).
  rewrite re_split_at_plain_dot by done.
  change (x +:+ String "." y) with (x +:+ backslashes 0 +:+ String "." y).
  by rewrite (re_split_at_plain_dot false x 0 y).
Qed.

(** ** Lazy chains *)

Section chaining_properties.
Context {W : Type} (pyd : string → option (@attribute W)).

Implicit Types (σ : @store W) (l b c : loc) (w : @ChainWrapper W).

Lemma ChainWrapper_unwrap_S (fuel : nat) l σ :
  ChainWrapper_unwrap (S fuel) l σ =
    match wrappers σ !! l with
    | None => None
    | Some w =>
        match wrapper_value w with
        | Plain v => invoke (method w) v (args w) (kargs w) σ
        | Wrapper up =>
            match ChainWrapper_unwrap fuel up σ with
            | Some (Ok v, σ1) =>
                match wrappers σ1 !! l with
                | Some w1 =>
                    invoke (method w1) v (args w1) (kargs w1) (with_value l w1 v σ1)
                | None => None
                end
            | Some (Raise e, σ1) => Some (Raise e, σ1)
            | None => None
            end
        end
    end.
Proof.
  cbn [ChainWrapper_unwrap]. unfold mbind, M_bind, mret, M_ret, get_ChainWrapper.
  destruct (wrappers σ !! l) as [w|] eqn:Hw; [|done].
  destruct (wrapper_value w) as [v|up]; [by rewrite Hw|].
  destruct (ChainWrapper_unwrap fuel up σ) as [[[v|e] σ1]|]; [|done..].
  destruct (wrappers σ1 !! l) as [w1|] eqn:Hw1; [|done].
  unfold set_ChainWrapper. cbn. by rewrite lookup_insert_eq.
Qed.

Lemma same_calls_refl σ : same_calls σ σ.
Proof. split; [done|]. intros l w Hw. by exists w. Qed.

Lemma same_calls_trans σ1 σ2 σ3 :
  same_calls σ1 σ2 → same_calls σ2 σ3 → same_calls σ1 σ3.
Proof.
  intros [Hc1 H1] [Hc2 H2]. split; [congruence|].
  intros l w Hw. destruct (H1 l w Hw) as (w' & Hw' & ? & ? & ?).
  destruct (H2 l w' Hw') as (w'' & Hw'' & ? & ? & ?).
  exists w''. repeat split; congruence.
Qed.

Lemma same_calls_invoke f v a k σ r σ' :
  invoke f v a k σ = Some (r, σ') → same_calls σ σ'.
Proof.
  unfold invoke, call_logged. destruct (f v a k (world σ)) as [r' w'].
  intros [= <- <-]. split; [done|]. intros l w Hw. by exists w.
Qed.

Lemma same_calls_with_value l w v σ :
  wrappers σ !! l = Some w → same_calls σ (with_value l w v σ).
Proof.
  intros Hw. split; [done|]. intros l' w' Hw'. simpl.
  destruct (decide (l = l')) as [<-|Hne].
  - rewrite lookup_insert_eq. eexists; split; [done|].
    rewrite Hw in Hw'. by injection Hw' as <-.
  - rewrite lookup_insert_ne by done. by exists w'.
Qed.

Lemma eager_snoc (links : list link) (lk : link) (v : pyval) (w0 : W) log :
  eager pyd v (links ++ [lk]) w0 log =
    match eager pyd v links w0 log with
    | Some (Ok v', w', log') =>
        match pyd (link_name lk) with
        | Some (Callable f) =>
            Some (call_logged f v' (link_args lk) (link_kargs lk) w' log')
        | _ => None
        end
    | Some (Raise e, w', log') => Some (Raise e, w', log')
    | None => None
    end.
Proof.
  revert v w0 log. induction links as [|lk' links IH]; intros v w0 log; simpl.
  - destruct (pyd (link_name lk)) as [[f|?]|]; [|done..].
    unfold call_logged. by destruct (f v _ _ w0) as [[v'|e] w'].
  - destruct (pyd (link_name lk')) as [[f|?]|]; [|done..].
    destruct (f v _ _ w0) as [[v'|e] w']; [|done].
    apply IH.
Qed.

Lemma invoke_eq f v a k σ :
  invoke f v a k σ =
    Some ((call_logged f v a k (world σ) (calls σ)).1.1,
          mk_store (chains σ) (wrappers σ)
            (call_logged f v a k (world σ) (calls σ)).1.2
            (call_logged f v a k (world σ) (calls σ)).2).
Proof. unfold invoke. by destruct (call_logged _ _ _ _ _ _) as [[??]?]. Qed.

(** Unwrapping a wrapper computes what the eager composition computes, on
    the world and on the call log alike. *)
Lemma unwrap_eager (fuel : nat) l σ seed links :
  resolves pyd σ (Wrapper l) seed links → length links ≤ fuel →
  ∃ r σ',
    ChainWrapper_unwrap fuel l σ = Some (r, σ') ∧
    eager pyd seed links (world σ) (calls σ) = Some (r, world σ', calls σ') ∧
    same_calls σ σ'.
Proof.
  revert l σ seed links. induction fuel as [|fuel IH]; intros l σ seed links Hr Hf.
  { inversion Hr; subst. rewrite length_app in Hf. simpl in Hf. lia. }
  inversion Hr as [|l0 w seed0 links' lk Hw Hpyd Ha Hk Hup]; subst.
  rewrite length_app in Hf. simpl in Hf.
  rewrite ChainWrapper_unwrap_S, Hw, eager_snoc.
  destruct (wrapper_value w) as [v|up] eqn:Hv.
  - inversion Hup; subst. simpl. rewrite Hpyd, <-Ha, <-Hk.
    rewrite invoke_eq.
    destruct (call_logged _ _ _ _ _ _) as [[r w'] log'] eqn:Hc. simpl.
    eexists _, _. split; [done|]. split; [done|].
    apply (same_calls_invoke (method w) seed (args w) (kargs w) _ r).
    by rewrite invoke_eq, Hc.
  - destruct (IH up σ seed links' Hup ltac:(lia)) as (r1 & σ1 & -> & -> & Hs1).
    destruct r1 as [v|e].
    + destruct (proj2 Hs1 l w Hw) as (w1 & Hw1 & Hm & Ha1 & Hk1).
      rewrite Hw1, Hpyd, invoke_eq. simpl.
      rewrite Hm, Ha1, Hk1, <-Ha, <-Hk.
      destruct (call_logged _ _ _ _ _ _) as [[r w'] log'] eqn:Hc. simpl.
      eexists _, _. split; [done|]. split; [done|].
      eapply same_calls_trans; [exact Hs1|].
      eapply same_calls_trans; [by apply (same_calls_with_value l w1 v)|].
      split; [done|]. intros l2 w2 Hw2. simpl in *.
      rewrite Hm, Ha1, Hk1 in Hw2. by exists w2.
    + by exists (Raise e), σ1.
Qed.

Lemma resolves_frame σ σ' (s : slot) seed links :
  resolves pyd σ s seed links →
  (∀ l w, wrappers σ !! l = Some w → wrappers σ' !! l = Some w) →
  resolves pyd σ' s seed links.
Proof.
  induction 1 as [|l w seed links lk Hw Hp Ha Hk Hup IH]; intros Hf.
  - constructor.
  - econstructor; eauto.
Qed.

Lemma Chain_getattr_callable c attr f ch σ :
  pyd attr = Some (Callable f) → chains σ !! c = Some ch →
  Chain_getattr pyd c attr σ =
    Some (Ok (fresh (dom (wrappers σ))),
          mk_store (chains σ)
            (<[fresh (dom (wrappers σ)) := mk_ChainWrapper (chain_value ch) f [] []]>
               (wrappers σ))
            (world σ) (calls σ)).
Proof.
  intros Hp Hc. unfold Chain_getattr. rewrite Hp.
  unfold mbind, M_bind, get_Chain. by rewrite Hc.
Qed.

Lemma ChainWrapper_call_eq b w (a : list pyval) (k : kwargs) σ :
  wrappers σ !! b = Some w →
  ChainWrapper_call b a k σ =
    Some (Ok (fresh (dom (chains σ))),
          mk_store (<[fresh (dom (chains σ)) := mk_Chain (Wrapper b)]> (chains σ))
            (<[b := mk_ChainWrapper (wrapper_value w) (method w) a k]> (wrappers σ))
            (world σ) (calls σ)).
Proof.
  intros Hw. unfold ChainWrapper_call, mbind, M_bind, get_ChainWrapper.
  rewrite Hw. cbn. rewrite lookup_insert_eq. cbn.
  by rewrite insert_insert_eq.
Qed.

Lemma fresh_lookup_None {A} (m : gmap loc A) : m !! fresh (dom m) = None.
Proof. apply not_elem_of_dom, is_fresh. Qed.

Lemma hook_links_resolves (links links0 : list link) c σ (s : slot) seed :
  forallb (λ lk, callable_name pyd (link_name lk)) links = true →
  chains σ !! c = Some (mk_Chain s) →
  resolves pyd σ s seed links0 →
  ∃ c' σ' s',
    hook_links pyd c links σ = Some (Ok c', σ') ∧
    chains σ' !! c' = Some (mk_Chain s') ∧
    resolves pyd σ' s' seed (links0 ++ links) ∧
    world σ' = world σ ∧ calls σ' = calls σ.
Proof.
  revert links0 c σ s. induction links as [|lk links IH]; intros links0 c σ s Hall Hc Hr.
  - exists c, σ, s. by rewrite app_nil_r.
  - simpl in Hall. apply andb_prop in Hall as [Hlk Hall].
    unfold callable_name in Hlk.
    destruct (pyd (link_name lk)) as [[f|?]|] eqn:Hp; [|done..].
    cbn [hook_links]. unfold mbind at 1, M_bind at 1.
    rewrite (Chain_getattr_callable _ _ _ _ _ Hp Hc).
    unfold mbind at 1, M_bind at 1.
    erewrite ChainWrapper_call_eq; [|by cbn; rewrite lookup_insert_eq].
    cbn [chains wrappers world calls wrapper_value method chain_value].
    rewrite insert_insert_eq.
    set (b := fresh (dom (wrappers σ))).
    set (c' := fresh (dom (chains σ))).
    set (σ2 := mk_store _ _ _ _).
    destruct (IH (links0 ++ [lk]) c' σ2 (Wrapper b) Hall) as (c'' & σ' & s' & H1 & H2 & H3 & H4 & H5).
    + subst σ2. cbn. by rewrite lookup_insert_eq.
    + eapply (resolves_wrapper pyd σ2 b (mk_ChainWrapper s f (link_args lk) (link_kargs lk)));
        [subst σ2; cbn; by rewrite lookup_insert_eq|done..|].
      eapply resolves_frame; [exact Hr|].
      intros l w Hw. subst σ2. cbn. rewrite lookup_insert_ne; [done|].
      intros <-. subst b. by rewrite fresh_lookup_None in Hw.
    + exists c'', σ', s'. rewrite <-app_assoc in H3. by repeat split.
Qed.

Lemma resolves_nil_inv σ (s : slot) seed : resolves pyd σ s seed [] → s = Plain seed.
Proof. inversion 1; [done|]. by destruct links. Qed.

Lemma resolves_Plain_inv σ v seed links :
  resolves pyd σ (Plain v) seed links → v = seed ∧ links = [].
Proof. by inversion 1. Qed.

Lemma eager_log (links : list link) (v : pyval) (w0 : W) log r (w' : W) log' :
  eager pyd v links w0 log = Some (r, w', log') →
  ∃ invs, log' = log ++ invs ∧
          Forall2 (logged_for pyd) invs (take (length invs) links) ∧
          (∀ v', r = Ok v' → length invs = length links) ∧
          (∀ inv, head invs = Some inv → inv_value inv = v).
Proof.
  revert v w0 log. induction links as [|lk links IH]; intros v w0 log; simpl.
  - intros [= <- <- <-]. exists []. by rewrite app_nil_r.
  - destruct (pyd (link_name lk)) as [[f|?]|] eqn:Hp; [|done..].
    unfold call_logged. destruct (f v _ _ w0) as [[v1|e] w1].
    + intros (invs & -> & H2 & H3 & _)%IH.
      exists (mk_invocation f v (link_args lk) (link_kargs lk) :: invs).
      rewrite <-app_assoc. split; [done|]. split; [|split].
      * simpl. constructor; [done|exact H2].
      * intros v' ->. simpl. by rewrite (H3 v').
      * by intros inv [= <-].
    + intros [= <- <- <-].
      exists [mk_invocation f v (link_args lk) (link_kargs lk)].
      split; [done|]. split; [|split]; [|done|by intros inv [= <-]].
      simpl. by repeat constructor.
Qed.

(** On a name that reaches it, attribute access is [__getattr__]. *)
Lemma Chain_attribute_hook c (attr : string) σ :
  reaches_getattr attr = true →
  Chain_attribute pyd c attr σ =
    match Chain_getattr pyd c attr σ with
    | Some (Ok b, σ') => Some (Ok (Builder b), σ')
    | Some (Raise e, σ') => Some (Raise e, σ')
    | None => None
    end.
Proof.
  unfold reaches_getattr, Chain_attribute. intros H.
  destruct (String.eqb attr "value"); [done|].
  destruct (String.eqb attr "value_of"); [done|].
  destruct (String.eqb attr "to_string"); [done|].
  destruct (String.eqb attr "_value"); [done|].
  destruct (startswith "__" attr); [done|].
  cbn [orb]. unfold mbind, M_bind.
  by destruct (Chain_getattr pyd c attr σ) as [[[b|e] σ']|].
Qed.

Lemma link_step_hook (fuel : nat) c (lk : link) σ :
  reaches_getattr (link_name lk) = true →
  link_step pyd fuel (A_chain c) lk σ =
    match (b ← Chain_getattr pyd c (link_name lk);
           ChainWrapper_call b (link_args lk) (link_kargs lk)) σ with
    | Some (Ok c', σ') => Some (Ok (A_chain c'), σ')
    | Some (Raise e, σ') => Some (Raise e, σ')
    | None => None
    end.
Proof.
  intros H. unfold link_step. unfold mbind at 1, M_bind at 1.
  rewrite Chain_attribute_hook by done. unfold mbind, M_bind.
  destruct (Chain_getattr pyd c (link_name lk) σ) as [[[b|e] σ']|]; [|done..].
  cbn [call_chain_attr]. unfold mbind, M_bind.
  by destruct (ChainWrapper_call b _ _ σ') as [[[c'|e] σ'']|].
Qed.

Lemma chain_links_hook (fuel : nat) c (links : list link) σ :
  forallb (λ lk, reaches_getattr (link_name lk)) links = true →
  chain_links pyd fuel (A_chain c) links σ =
    match hook_links pyd c links σ with
    | Some (Ok c', σ') => Some (Ok (A_chain c'), σ')
    | Some (Raise e, σ') => Some (Raise e, σ')
    | None => None
    end.
Proof.
  revert c σ. induction links as [|lk links IH]; intros c σ; [done|].
  cbn [forallb]. intros [Hlk Hall]%andb_prop.
  cbn [chain_links hook_links]. unfold mbind at 1, M_bind at 1.
  rewrite link_step_hook by done. unfold mbind, M_bind.
  destruct (Chain_getattr pyd c (link_name lk) σ) as [[[b|e] σ1]|]; [|done..].
  destruct (ChainWrapper_call b _ _ σ1) as [[[c'|e] σ2]|]; [|done..].
  by apply IH.
Qed.

Lemma link_step_value (fuel : nat) c σ :
  link_step pyd fuel (A_chain c) (mk_link "value" [] []) σ =
    match Chain_value fuel c σ with
    | Some (Ok v, σ') => Some (Ok (A_value v), σ')
    | Some (Raise e, σ') => Some (Raise e, σ')
    | None => None
    end.
Proof.
  unfold link_step, Chain_attribute. cbn. unfold mbind, M_bind, mret, M_ret.
  cbn [call_chain_attr]. unfold mbind, M_bind, mret, M_ret.
  by destruct (Chain_value fuel c σ) as [[[v|e] σ']|].
Qed.

(** When every name reaches [__getattr__], a chain expression is the seed
    chained through the hook link by link, then finalized. *)
Lemma chain_expression_hook (fuel : nat) (seed : pyval) (links : list link) σ :
  forallb (λ lk, reaches_getattr (link_name lk)) links = true →
  chain_expression pyd fuel seed links σ
  = (c ← chain seed; c' ← hook_links pyd c links; Chain_value fuel c') σ.
Proof.
  intros Hall. unfold chain_expression, mbind, M_bind.
  destruct (chain seed σ) as [[[c|e] σ0]|]; [|done..].
  rewrite chain_links_hook by done.
  destruct (hook_links pyd c links σ0) as [[[c'|e] σ1]|]; [|done..].
  rewrite link_step_value.
  by destruct (Chain_value fuel c' σ1) as [[[v|e] σ2]|].
Qed.

(** Finalizing a chain expression computes what the eager composition of
    the same calls computes. *)
Lemma chain_expression_eager (fuel : nat) (seed : pyval) (links : list link) σ :
  forallb (λ lk, callable_name pyd (link_name lk)) links = true →
  forallb (λ lk, reaches_getattr (link_name lk)) links = true →
  length links ≤ fuel →
  ∃ r σ',
    chain_expression pyd fuel seed links σ = Some (r, σ') ∧
    eager pyd seed links (world σ) (calls σ) = Some (r, world σ', calls σ').
Proof.
  intros Hall Hreach Hf. rewrite chain_expression_hook by done.
  unfold chain, new_Chain.
  unfold mbind at 1, M_bind at 1.
  set (c := fresh (dom (chains σ))). set (σ1 := mk_store _ _ _ _).
  destruct (hook_links_resolves links [] c σ1 (Plain seed) seed Hall)
    as (c' & σ' & s' & H1 & H2 & H3 & H4 & H5).
  { subst σ1. cbn. by rewrite lookup_insert_eq. }
  { constructor. }
  unfold mbind, M_bind. rewrite H1.
  unfold Chain_value, mbind, M_bind, get_Chain. rewrite H2. cbn [chain_value].
  change (world σ) with (world σ1). change (calls σ) with (calls σ1).
  rewrite <-H4, <-H5. rewrite app_nil_l in H3.
  destruct s' as [v|l].
  - apply resolves_Plain_inv in H3 as [-> ->]. by exists (Ok seed), σ'.
  - destruct (unwrap_eager fuel l σ' seed links H3 Hf) as (r & σ'' & -> & -> & _).
    destruct r as [v|e].
    + by eexists (Ok v), _.
    + by eexists (Raise e), _.
Qed.

Lemma unwrap_same_calls (fuel : nat) l σ r σ' :
  ChainWrapper_unwrap fuel l σ = Some (r, σ') → same_calls σ σ'.
Proof.
  revert l σ r σ'. induction fuel as [|fuel IH]; intros l σ r σ'; [done|].
  rewrite ChainWrapper_unwrap_S.
  destruct (wrappers σ !! l) as [w|] eqn:Hw; [|done].
  destruct (wrapper_value w) as [v|up]; [apply same_calls_invoke|].
  destruct (ChainWrapper_unwrap fuel up σ) as [[[v|e] σ1]|] eqn:Hup; [| |done].
  - apply IH in Hup.
    destruct (wrappers σ1 !! l) as [w1|] eqn:Hw1; [|done].
    intros Hi%same_calls_invoke.
    eapply same_calls_trans; [exact Hup|].
    eapply same_calls_trans; [|exact Hi].
    by apply same_calls_with_value.
  - intros [= <- <-]. by eapply IH.
Qed.


(** C8, amended: a wrapper keeps its method for life and its upstream slot
    until it is unwrapped, but its [args] and [kargs] are overwritten each
    time the builder is invoked, and all the chains the builder has produced
    hold that one wrapper: after a second invocation the chain produced by
    the first resolves with the arguments of the second.  Unwrapping changes
    no chain and no wrapper's method, [args] or [kargs]; it replaces a
    pending upstream of the wrapper by the value the upstream resolved
    to. *)
Theorem C8_builder_is_shared b w (a1 a2 : list pyval) (k1 k2 : kwargs) σ :
  wrappers σ !! b = Some w →
  (∃ c1 σ1 c2 σ2,
     ChainWrapper_call b a1 k1 σ = Some (Ok c1, σ1) ∧
     ChainWrapper_call b a2 k2 σ1 = Some (Ok c2, σ2) ∧
     c1 ≠ c2 ∧
     chains σ1 !! c1 = Some (mk_Chain (Wrapper b)) ∧
     wrappers σ1 !! b
     = Some (mk_ChainWrapper (wrapper_value w) (method w) a1 k1) ∧
     chains σ2 !! c1 = Some (mk_Chain (Wrapper b)) ∧
     chains σ2 !! c2 = Some (mk_Chain (Wrapper b)) ∧
     wrappers σ2 !! b
     = Some (mk_ChainWrapper (wrapper_value w) (method w) a2 k2))
  ∧ (∀ (fuel : nat) l r σ',
       ChainWrapper_unwrap fuel l σ = Some (r, σ') → same_calls σ σ')
  ∧ (∀ (fuel : nat) l wl up v σ1 r σ',
       wrappers σ !! l = Some wl → wrapper_value wl = Wrapper up →
       ChainWrapper_unwrap fuel up σ = Some (Ok v, σ1) →
       ChainWrapper_unwrap (S fuel) l σ = Some (r, σ') →
       ∃ wl', wrappers σ' !! l = Some wl' ∧ wrapper_value wl' = Plain v).
Proof.
  intros Hw. split; [|split; [intros fuel l r σ'; apply unwrap_same_calls|]].
  2:{ intros fuel l wl up v σ1 r σ' Hl Hv Hup.
      rewrite ChainWrapper_unwrap_S, Hl, Hv, Hup.
      destruct (proj2 (unwrap_same_calls _ _ _ _ _ Hup) l wl Hl) as (w1 & -> & _).
      rewrite invoke_eq. intros [= <- <-]. cbn.
      rewrite lookup_insert_eq. by eexists. }
  eexists _, _, _, _.
  split; [by apply ChainWrapper_call_eq|].
  split; [apply ChainWrapper_call_eq; cbn; by rewrite lookup_insert_eq|].
  cbn. set (c1 := fresh (dom (chains σ))).
  assert (c1 ≠ fresh (dom (<[c1:=mk_Chain (Wrapper b)]> (chains σ)))) as Hne.
  { intros Heq. pose proof (fresh_lookup_None (<[c1:=mk_Chain (Wrapper b)]> (chains σ))) as Hf.
    rewrite <-Heq in Hf. by rewrite lookup_insert_eq in Hf. }
  split; [done|].
  rewrite !lookup_insert_eq.
  rewrite lookup_insert_ne by done. by rewrite lookup_insert_eq.
Qed.
End chaining_properties.

(** C1, as stated, fails: [to_string] is a callable of the package, but
    [.to_string] on a chain is the method of the chain, which finalizes at
    once and returns a string; [chain(5).to_string().value()] raises
    [AttributeError] where the eager composition [to_string(5)] returns
    ["5"]. *)
Lemma C1_counterexample :
  callable_name pyd_strings "to_string" = true
  ∧ fst <$> chain_expression pyd_strings 1 (VInt 5) [mk_link "to_string" [] []]
              (empty_store tt)
    = Some (Raise (AttributeError "'str' object has no attribute 'value'"))
  ∧ eager pyd_strings (VInt 5) [mk_link "to_string" [] []] tt []
    = Some (Ok (VStr "5"), tt, [mk_invocation to_string_of_int (VInt 5) [] []])
  ∧ ¬ (∀ (seed : pyval) (links : list link) (fuel : nat) (σ : @store unit),
         forallb (λ lk, callable_name pyd_strings (link_name lk)) links = true →
         length links ≤ fuel →
         ∃ r σ',
           chain_expression pyd_strings fuel seed links σ = Some (r, σ') ∧
           eager pyd_strings seed links (world σ) (calls σ)
           = Some (r, world σ', calls σ')).
Proof.
  split; [by vm_compute|]. split; [by vm_compute|]. split; [by vm_compute|].
  intros H.
  destruct (H (VInt 5) [mk_link "to_string" [] []] 1 (empty_store tt))
    as (r & σ' & H1 & H2); [by vm_compute|cbn; lia|].
  vm_compute in H1, H2. congruence.
Qed.

(** C1, amended: for every seed and every list of links whose names are
    callables of the package and are not found on the chain itself (so not
    [value], [value_of], [to_string] or [_value]), finalizing the chain
    expression returns or raises what the eager composition of the same
    calls returns or raises, leaves the world the same, and adds the same
    entries to the call log; when it returns, the entries are exactly one
    per link, in the order of the links, the first entered on the seed.
    With [add] and [multiply], [chain(3).add(4).multiply(2).value()] is
    [multiply(add(3, 4), 2)], which is 14. *)
Theorem C1_chain_value_is_eager_composition :
  (∀ (W : Type) (pyd : string → option (@attribute W)) (seed : pyval)
     (links : list link) (fuel : nat) (σ : @store W),
     forallb (λ lk, callable_name pyd (link_name lk)) links = true →
     forallb (λ lk, reaches_getattr (link_name lk)) links = true →
     length links ≤ fuel →
     ∃ r σ' invs,
       chain_expression pyd fuel seed links σ = Some (r, σ') ∧
       eager pyd seed links (world σ) (calls σ) = Some (r, world σ', calls σ') ∧
       calls σ' = calls σ ++ invs ∧
       Forall2 (logged_for pyd) invs (take (length invs) links) ∧
       (∀ v, r = Ok v → length invs = length links) ∧
       (∀ inv, head invs = Some inv → inv_value inv = seed))
  ∧ fst <$> chain_expression pyd_numerical 2 (VInt 3)
              [mk_link "add" [VInt 4] []; mk_link "multiply" [VInt 2] []]
              (empty_store tt)
    = Some (Ok (VInt 14))
  ∧ eager pyd_numerical (VInt 3)
      [mk_link "add" [VInt 4] []; mk_link "multiply" [VInt 2] []] tt []
    = Some (Ok (VInt 14), tt,
            [mk_invocation add (VInt 3) [VInt 4] [];
             mk_invocation multiply (VInt 7) [VInt 2] []]).
Proof.
  split; [|split; by vm_compute].
  intros W pyd seed links fuel σ Hall Hreach Hf.
  destruct (chain_expression_eager pyd fuel seed links σ Hall Hreach Hf)
    as (r & σ' & H1 & H2).
  destruct (eager_log pyd _ _ _ _ _ _ _ H2) as (invs & H3 & H4 & H5 & H6).
  by exists r, σ', invs.
Qed.

Lemma C1_chain_value_is_eager_composition_witness :
  ∃ r σ' invs,
    chain_expression pyd_numerical 5 (VInt 3)
      [mk_link "add" [VInt 4] []; mk_link "multiply" [VInt 2] [];
       mk_link "add" [VInt 1] []] (empty_store tt) = Some (r, σ') ∧
    eager pyd_numerical (VInt 3)
      [mk_link "add" [VInt 4] []; mk_link "multiply" [VInt 2] [];
       mk_link "add" [VInt 1] []] tt [] = Some (r, world σ', calls σ') ∧
    calls σ' = [] ++ invs ∧
    Forall2 (logged_for pyd_numerical) invs
      (take (length invs)
         [mk_link "add" [VInt 4] []; mk_link "multiply" [VInt 2] [];
          mk_link "add" [VInt 1] []]) ∧
    (∀ v, r = Ok v → length invs = 3) ∧
    (∀ inv, head invs = Some inv → inv_value inv = VInt 3).
Proof.
  apply (proj1 C1_chain_value_is_eager_composition unit pyd_numerical (VInt 3)
           [mk_link "add" [VInt 4] []; mk_link "multiply" [VInt 2] [];
            mk_link "add" [VInt 1] []] 5 (empty_store tt)).
  - reflexivity.
  - reflexivity.
  - simpl. lia.
Defined.



(** C8, as stated, fails: [b = chain(3).add; c1 = b(4); c2 = b(10)]; the
    arguments held for [c1] are [(4,)] before the second invocation and
    [(10,)] after it, and [c1.value()] is 13, not 7.  So it is not true that
    a second invocation of a builder leaves the captured arguments alone. *)
Lemma C8_counterexample :
  fst <$> (c0 ← chain (VInt 3);
           b ← Chain_getattr pyd_numerical c0 "add";
           c1 ← ChainWrapper_call b [VInt 4] [];
           before ← captured_args c1;
           c2 ← ChainWrapper_call b [VInt 10] [];
           after ← captured_args c1;
           v ← Chain_value 1 c1;
           mret (before, after, v)) (empty_store tt)
  = Some (Ok ([VInt 4], [VInt 10], VInt 13))
  ∧ ¬ (∀ (σ σ1 σ2 : @store unit) (b c1 c2 : loc) (a1 a2 : list pyval)
         (k1 k2 : kwargs),
         ChainWrapper_call b a1 k1 σ = Some (Ok c1, σ1) →
         ChainWrapper_call b a2 k2 σ1 = Some (Ok c2, σ2) →
         args <$> wrappers σ2 !! b = args <$> wrappers σ1 !! b).
Proof.
  split; [by vm_compute|]. intros H.
  specialize (H (mk_store ∅ {[0 := mk_ChainWrapper (Plain (VInt 3)) add [] []]} tt [])
                (mk_store {[0 := mk_Chain (Wrapper 0)]}
                   {[0 := mk_ChainWrapper (Plain (VInt 3)) add [VInt 4] []]} tt [])
                (mk_store {[0 := mk_Chain (Wrapper 0); 1 := mk_Chain (Wrapper 0)]}
                   {[0 := mk_ChainWrapper (Plain (VInt 3)) add [VInt 10] []]} tt [])
                0 0 1 [VInt 4] [VInt 10] [] []).
  assert (Some [VInt 10] = Some [VInt 4]) as Hargs; [|discriminate].
  apply H; by vm_compute.
Qed.

Lemma C8_builder_is_shared_witness :
  ∃ c1 σ1 c2 σ2,
    ChainWrapper_call 0 [VInt 4] []
      (mk_store ∅ {[0 := mk_ChainWrapper (Plain (VInt 3)) add [] []]} tt [])
    = Some (Ok c1, σ1) ∧
    ChainWrapper_call 0 [VInt 10] [] σ1 = Some (Ok c2, σ2) ∧
    c1 ≠ c2 ∧
    chains σ2 !! c1 = Some (mk_Chain (Wrapper 0)) ∧
    chains σ2 !! c2 = Some (mk_Chain (Wrapper 0)) ∧
    wrappers σ2 !! 0
    = Some (mk_ChainWrapper (Plain (VInt 3)) add [VInt 10] []).
Proof.
  assert (wrappers (mk_store ∅ {[0 := mk_ChainWrapper (Plain (VInt 3)) add [] []]} tt [])
          !! 0 = Some (mk_ChainWrapper (Plain (VInt 3)) add [] [])) as Hw.
  { vm_compute. reflexivity. }
  destruct (proj1 (C8_builder_is_shared 0
              (mk_ChainWrapper (Plain (VInt 3)) add [] [])
              [VInt 4] [VInt 10] [] []
              (mk_store ∅ {[0 := mk_ChainWrapper (Plain (VInt 3)) add [] []]} tt [])
              Hw))
    as (c1 & σ1 & c2 & σ2 & H1 & H2 & H3 & _ & _ & H4 & H5 & H6).
  exists c1, σ1, c2, σ2. repeat split; assumption.
Defined.

(** ** Wrapped callables *)

Section utilities_properties.
Context {W : Type}.

(** C9: [attempt] returns the result of [func] when [func] returns, and
    returns the exception object itself when [func] raises an instance of
    [Exception]; the effects of [func] on the world are kept either way.  An
    exception that is not an [Exception] goes through. *)
Theorem C9_attempt_returns_result_or_exception
    (func : @pycallable W) (args : list pyval) (kw : kwargs) (w : W) :
  (∀ ret w', func args kw w = (Ok ret, w') →
             attempt func args kw w = (Ok ret, w'))
  ∧ (∀ ex w', func args kw w = (Raise ex, w') →
              isinstance_exc ex "Exception" = true →
              attempt func args kw w = (Ok (VExc ex), w'))
  ∧ (∀ ex w', func args kw w = (Raise ex, w') →
              isinstance_exc ex "Exception" = false →
              attempt func args kw w = (Raise ex, w')).
Proof.
  unfold attempt. repeat split.
  - by intros ret w' ->.
  - by intros ex w' -> ->.
  - by intros ex w' -> ->.
Qed.

(** *** [memoize] *)

Lemma pyval_eqb_VStr (s t : string) :
  pyval_eqb (VStr s) (VStr t) = String.eqb s t.
Proof. reflexivity. Qed.

Lemma dict_get_set_eq (k v : pyval) (d : pydict) :
  pyval_eqb k k = true → dict_get k (dict_set k v d) = Some v.
Proof.
  intros Hk. induction d as [|[k' v'] d IH]; simpl.
  - by rewrite Hk.
  - destruct (pyval_eqb k' k) eqn:Hk'; simpl; by rewrite Hk'.
Qed.

Lemma dict_get_set_miss (k v k0 v0 : pyval) (d : pydict) :
  dict_get k d = None → dict_get k0 d = Some v0 →
  dict_get k0 (dict_set k v d) = Some v0.
Proof.
  induction d as [|[k' v'] d IH]; simpl; [done|].
  destruct (pyval_eqb k' k) eqn:Hk'; [done|]. simpl.
  destruct (pyval_eqb k' k0); [done|]. apply IH.
Qed.

Context (repr : pyval → string).

Lemma memoized_hit (func : @pycallable W) (args : list pyval) (kw : kwargs)
    (σ : memo_store) (v : pyval) :
  dict_get (default_key repr args kw) (cache σ) = Some v →
  memoized repr func None args kw σ = (Ok v, σ).
Proof. intros H. unfold memoized. simpl. rewrite H. by destruct σ. Qed.

Lemma memoized_miss (func : @pycallable W) (args : list pyval) (kw : kwargs)
    (σ : memo_store) (v : pyval) (w' : W) :
  dict_get (default_key repr args kw) (cache σ) = None →
  func args kw (memo_world σ) = (Ok v, w') →
  memoized repr func None args kw σ
  = (Ok v, mk_memo_store (dict_set (default_key repr args kw) v (cache σ)) w'
             (func_calls σ ++ [(args, kw)])).
Proof. intros H Hf. unfold memoized. simpl. by rewrite H, Hf. Qed.

Lemma memoized_keeps (func : @pycallable W) (args : list pyval) (kw : kwargs)
    (σ σ' : memo_store) r (k v : pyval) :
  memoized repr func None args kw σ = (r, σ') →
  dict_get k (cache σ) = Some v → dict_get k (cache σ') = Some v.
Proof.
  unfold memoized. simpl.
  destruct (dict_get (default_key repr args kw) (cache σ)) as [v0|] eqn:Hget.
  - by intros [= <- <-].
  - destruct (func args kw (memo_world σ)) as [[v1|e] w2].
    + intros [= <- <-] Hk. simpl. by apply dict_get_set_miss.
    + by intros [= <- <-].
Qed.

Lemma dict_get_set_other (k1 k2 v : pyval) (d : pydict) :
  dict_get k1 d = None → dict_get k2 d = None → pyval_eqb k1 k2 = false →
  dict_get k2 (dict_set k1 v d) = None.
Proof.
  intros H1 H2 Hne. induction d as [|[k' v'] d IH]; cbn in *.
  - by rewrite Hne.
  - destruct (pyval_eqb k' k1) eqn:Hk1; [done|].
    destruct (pyval_eqb k' k2) eqn:Hk2; [done|].
    cbn. rewrite Hk2. by apply IH.
Qed.

(** C10: without a resolver the cache key of a call is the string of the
    tuple of its positional arguments followed by the string of the dict of
    its keyword arguments, each written with the [repr] of its items: a
    tuple of one item as [(item,)], any other tuple with its items between
    parentheses and separated by comma and space, the dict as its
    [key: value] items between braces; so the keys of the docstring are
    [(1,){}] and [(1, 2, 3){}].  A call whose key is not in the cache
    enters [func] once and, when [func] returns, stores the result under the
    key; a call whose key is in the cache returns the stored value and
    changes nothing, [func] is not entered; no call removes or changes an
    entry.  So after a first call, a second call whose arguments give the
    same key string, equal arguments or not, returns the result of the
    first, and [func] has been entered once in all; and a second call whose
    arguments give another key string that is not in the cache enters
    [func] again and gets an entry of its own. *)
Theorem C10_memoize_keys_by_string
    (func : @pycallable W) (args : list pyval) (kw : kwargs) (σ : memo_store) :
  (default_key repr args kw = VStr (tuple_str repr args +:+ dict_str repr kw)
   ∧ (∀ a, tuple_str repr [a] = "(" +:+ repr a +:+ ",)")
   ∧ (∀ l, length l ≠ 1 →
           tuple_str repr l = "(" +:+ join ", " (repr <$> l) +:+ ")")
   ∧ (∀ k : kwargs,
        dict_str repr k
        = "{" +:+ join ", " ((λ kv, repr (VStr kv.1) +:+ ": " +:+ repr kv.2) <$> k)
              +:+ "}")
   ∧ (repr (VInt 1) = "1" → repr (VInt 2) = "2" → repr (VInt 3) = "3" →
      default_key repr [VInt 1] [] = VStr "(1,){}" ∧
      default_key repr [VInt 1; VInt 2; VInt 3] [] = VStr "(1, 2, 3){}"))
  ∧ (memoize repr func None).2 = []
  ∧ (∀ v w',
       dict_get (default_key repr args kw) (cache σ) = None →
       func args kw (memo_world σ) = (Ok v, w') →
       ∃ σ1,
         memoized repr func None args kw σ = (Ok v, σ1) ∧
         dict_get (default_key repr args kw) (cache σ1) = Some v ∧
         memo_world σ1 = w' ∧
         func_calls σ1 = func_calls σ ++ [(args, kw)] ∧
         (∀ args2 kw2,
            tuple_str repr args2 +:+ dict_str repr kw2
            = tuple_str repr args +:+ dict_str repr kw →
            memoized repr func None args2 kw2 σ1 = (Ok v, σ1)) ∧
         (∀ args2 kw2 v2 w2,
            tuple_str repr args2 +:+ dict_str repr kw2
            ≠ tuple_str repr args +:+ dict_str repr kw →
            dict_get (default_key repr args2 kw2) (cache σ) = None →
            func args2 kw2 w' = (Ok v2, w2) →
            ∃ σ2,
              memoized repr func None args2 kw2 σ1 = (Ok v2, σ2) ∧
              func_calls σ2 = func_calls σ ++ [(args, kw); (args2, kw2)] ∧
              dict_get (default_key repr args kw) (cache σ2) = Some v ∧
              dict_get (default_key repr args2 kw2) (cache σ2) = Some v2))
  ∧ (∀ v, dict_get (default_key repr args kw) (cache σ) = Some v →
          memoized repr func None args kw σ = (Ok v, σ))
  ∧ (∀ r σ' k v, memoized repr func None args kw σ = (r, σ') →
                 dict_get k (cache σ) = Some v →
                 dict_get k (cache σ') = Some v).
Proof.
  split.
  { split; [done|]. split; [done|]. split.
    { intros l Hl. by destruct l as [|a [|b l]]. }
    split; [done|]. intros H1 H2 H3.
    unfold default_key, tuple_str, dict_str. cbn [fmap list_fmap join].
    by rewrite H1, H2, H3. }
  split; [done|]. split; [|split].
  - intros v w' Hmiss Hf. eexists. split; [by apply memoized_miss|].
    assert (dict_get (default_key repr args kw)
              (dict_set (default_key repr args kw) v (cache σ)) = Some v) as Hget.
    { apply dict_get_set_eq. unfold default_key. rewrite pyval_eqb_VStr.
      apply String.eqb_refl. }
    cbn [cache memo_world func_calls].
    split; [done|]. split; [done|]. split; [done|]. split.
    + intros args2 kw2 Hkey. apply memoized_hit. cbn [cache].
      unfold default_key in *. by rewrite Hkey.
    + intros args2 kw2 v2 w2 Hkey Hmiss2 Hf2.
      eexists. split.
      { apply memoized_miss; cbn [cache memo_world]; [|exact Hf2].
        apply dict_get_set_other; [done..|].
        unfold default_key. rewrite pyval_eqb_VStr.
        apply String.eqb_neq. congruence. }
      cbn [cache memo_world func_calls].
      split; [by rewrite <-app_assoc|]. split.
      * apply dict_get_set_miss; [|done].
        apply dict_get_set_other; [done..|].
        unfold default_key. rewrite pyval_eqb_VStr.
        apply String.eqb_neq. congruence.
      * apply dict_get_set_eq. unfold default_key. rewrite pyval_eqb_VStr.
        apply String.eqb_refl.
  - intros v. apply memoized_hit.
  - intros r σ' k v. apply memoized_keeps.
Qed.
End utilities_properties.

Lemma C9_attempt_returns_result_or_exception_witness :
  attempt (λ _ _ (w : unit), (Ok (VInt 1), w)) [] [] tt = (Ok (VInt 1), tt)
  ∧ attempt (λ _ _ (w : unit),
               (Raise (mk_exception ["ZeroDivisionError"; "ArithmeticError";
                                     "Exception"; "BaseException"]
                         "division by zero"), w)) [VInt 1] [] tt
    = (Ok (VExc (mk_exception ["ZeroDivisionError"; "ArithmeticError";
                               "Exception"; "BaseException"]
                   "division by zero")), tt)
  ∧ attempt (λ _ _ (w : unit),
               (Raise (mk_exception ["KeyboardInterrupt"; "BaseException"] ""), w))
      [] [] tt
    = (Raise (mk_exception ["KeyboardInterrupt"; "BaseException"] ""), tt).
Proof.
  split; [|split].
  - apply (proj1 (C9_attempt_returns_result_or_exception
                    (λ _ _ (w : unit), (Ok (VInt 1), w)) [] [] tt)).
    reflexivity.
  - apply (proj1 (proj2 (C9_attempt_returns_result_or_exception
                    (λ _ _ (w : unit),
                       (Raise (mk_exception ["ZeroDivisionError"; "ArithmeticError";
                                             "Exception"; "BaseException"]
                                 "division by zero"), w)) [VInt 1] [] tt))).
    + reflexivity.
    + vm_compute. reflexivity.
  - apply (proj2 (proj2 (C9_attempt_returns_result_or_exception
                    (λ _ _ (w : unit),
                       (Raise (mk_exception ["KeyboardInterrupt"; "BaseException"] ""), w))
                    [] [] tt))).
    + reflexivity.
    + vm_compute. reflexivity.
Defined.

Lemma C10_memoize_keys_by_string_witness :
  (default_key repr_numbers [VInt 1] [] = VStr "(1,){}" ∧
   default_key repr_numbers [VInt 1; VInt 2; VInt 3] [] = VStr "(1, 2, 3){}")
  ∧ (∃ σ1,
       memoized repr_constant_objects (λ a _ (w : nat), (Ok (VTuple a), S w)) None
         [VObj 1] [] (mk_memo_store [] 0 [])
       = (Ok (VTuple [VObj 1]), σ1) ∧
       func_calls σ1 = [([VObj 1], [])] ∧
       memoized repr_constant_objects (λ a _ (w : nat), (Ok (VTuple a), S w)) None
         [VObj 2] [] σ1
       = (Ok (VTuple [VObj 1]), σ1))
  ∧ (∃ σ1 σ2,
       memoized repr_numbers (λ a _ (w : nat), (Ok (VTuple a), S w)) None
         [VInt 1] [] (mk_memo_store [] 0 [])
       = (Ok (VTuple [VInt 1]), σ1) ∧
       memoized repr_numbers (λ a _ (w : nat), (Ok (VTuple a), S w)) None
         [VInt 2] [] σ1
       = (Ok (VTuple [VInt 2]), σ2) ∧
       func_calls σ2 = [([VInt 1], []); ([VInt 2], [])] ∧
       dict_get (VStr "(1,){}") (cache σ2) = Some (VTuple [VInt 1]) ∧
       dict_get (VStr "(2,){}") (cache σ2) = Some (VTuple [VInt 2])).
Proof.
  split; [|split].
  - apply (proj2 (proj2 (proj2 (proj2 (proj1
             (C10_memoize_keys_by_string repr_numbers
                (λ a _ (w : nat), (Ok (VTuple a), S w)) [] []
                (mk_memo_store [] 0 []))))))); reflexivity.
  - destruct (proj1 (proj2 (proj2 (C10_memoize_keys_by_string repr_constant_objects
                (λ a _ (w : nat), (Ok (VTuple a), S w)) [VObj 1] []
                (mk_memo_store [] 0 []))))
                (VTuple [VObj 1]) 1 eq_refl eq_refl)
      as (σ1 & H1 & _ & _ & H2 & H3 & _).
    exists σ1. split; [exact H1|]. split; [exact H2|].
    apply (H3 [VObj 2] []). reflexivity.
  - destruct (proj1 (proj2 (proj2 (C10_memoize_keys_by_string repr_numbers
                (λ a _ (w : nat), (Ok (VTuple a), S w)) [VInt 1] []
                (mk_memo_store [] 0 []))))
                (VTuple [VInt 1]) 1 eq_refl eq_refl)
      as (σ1 & H1 & _ & _ & _ & _ & H4).
    destruct (H4 [VInt 2] [] (VTuple [VInt 2]) 2) as (σ2 & G1 & G2 & G3 & G4).
    + vm_compute. discriminate.
    + reflexivity.
    + reflexivity.
    + exists σ1, σ2. split; [exact H1|]. split; [exact G1|].
      split; [exact G2|]. split; [exact G3|exact G4].
Defined.

(** *** [retry] *)

Section retry_properties.
Context {W : Type} (draw : Q → Q → W → Q * W).

Lemma count_Called_app evs1 evs2 :
  count_Called (evs1 ++ evs2) = count_Called evs1 + count_Called evs2.
Proof. unfold count_Called. by rewrite filter_app, length_app. Qed.

Lemma count_Observed_app evs1 evs2 :
  count_Observed (evs1 ++ evs2) = count_Observed evs1 + count_Observed evs2.
Proof. unfold count_Observed. by rewrite filter_app, length_app. Qed.

(** With [delay=0] and the default [jitter], [max_delay] and [scale], the
    delay stays 0. *)
Ltac no_delay :=
  change (truthy 0%Q) with false; cbv beta iota zeta;
  change (Qlt_bool 0%Q 0%Q) with false; cbv beta iota zeta;
  change (truthy 150%Q) with true; cbv beta iota zeta;
  change (Qlt_bool 150%Q 0%Q) with false; cbv beta iota zeta;
  change (0 * 2)%Q with 0%Q.

Lemma decorated_loop_failing_run (n : Z) excs obs (func : @pycallable W)
    (args : list pyval) (kw : kwargs) (todo : nat) (attempt : Z) σ :
  always_raises excs func args kw → observer_returns obs →
  (n = attempt + Z.of_nat todo)%Z →
  ∃ e σ' evs,
    decorated_loop draw (retry_args_for n excs obs) func args kw
      (S todo) attempt 0%Q σ = (Raise e, σ') ∧
    retry_log σ' = retry_log σ ++ evs ∧
    failing_run func obs args kw (S todo) attempt (retry_world σ) evs e
      (retry_world σ').
Proof.
  intros Hf Hobs. revert attempt σ.
  induction todo as [|todo IH]; intros attempt σ Hn.
  - destruct (Hf (retry_world σ)) as (e & w1 & Hc & Hcaught).
    cbn [decorated_loop]. rewrite Hc. cbn [exceptions retry_args_for on_exception attempts].
    rewrite Hcaught. cbn [negb].
    assert (attempt = n) as -> by lia.
    rewrite Z.eqb_refl.
    destruct obs as [o|].
    + destruct (Hobs o eq_refl e n w1) as (v & w2 & Ho).
      rewrite Ho. exists e. eexists. exists [Called n (Raise e); Observed e n].
      split; [done|]. cbn [retry_log retry_world].
      split; [by rewrite <-app_assoc|].
      apply (failing_run_last func (Some o) args kw n _ e w1 w2 Hc).
      by exists v.
    + exists e. eexists. exists [Called n (Raise e)].
      split; [done|]. split; [done|].
      by apply (failing_run_last func None args kw n _ e w1 w1 Hc).
  - destruct (Hf (retry_world σ)) as (e & w1 & Hc & Hcaught).
    remember (S todo) as todo1 eqn:Htodo.
    cbn [decorated_loop]. rewrite Hc. cbn [exceptions retry_args_for on_exception attempts].
    rewrite Hcaught. cbn [negb]. subst todo1.
    assert ((attempt =? n)%Z = false) as Hne by (apply Z.eqb_neq; lia).
    destruct obs as [o|].
    + destruct (Hobs o eq_refl e attempt w1) as (v & w2 & Ho).
      rewrite Ho, Hne.
      cbn [jitter retry_args_for retry_defaults max_delay scale].
      no_delay.
      edestruct (IH (attempt + 1)%Z) as (e' & σ' & evs & -> & Hlog & Hrun); [lia|].
      exists e', σ'.
      exists (Called attempt (Raise e) :: [Observed e attempt] ++ Slept 0 :: evs).
      split; [done|]. cbn [retry_log retry_world] in *.
      split; [rewrite Hlog; cbn; by rewrite <-!app_assoc|].
      apply (failing_run_more func (Some o) args kw todo attempt _ e w1 w2 evs e' _ Hc);
        [by exists v|exact Hrun].
    + rewrite Hne.
      cbn [jitter retry_args_for retry_defaults max_delay scale].
      no_delay.
      edestruct (IH (attempt + 1)%Z) as (e' & σ' & evs & -> & Hlog & Hrun); [lia|].
      exists e', σ'.
      exists (Called attempt (Raise e) :: [] ++ Slept 0 :: evs).
      split; [done|]. cbn [retry_log retry_world] in *.
      split; [rewrite Hlog; cbn; by rewrite <-!app_assoc|].
      by apply (failing_run_more func None args kw todo attempt _ e w1 w1 evs e' _ Hc).
Qed.

(** What a run of failing attempts amounts to: as many calls of [func] as
    attempts, as many calls of the observer when there is one, and at the
    end the last call, then the observer. *)
Lemma failing_run_counts obs (func : @pycallable W) (args : list pyval)
    (kw : kwargs) (k : nat) (attempt : Z) (w w' : W) evs e :
  failing_run func obs args kw k attempt w evs e w' →
  count_Called evs = k ∧
  count_Observed evs = match obs with Some _ => k | None => 0 end ∧
  ∃ evs0, evs = evs0 ++ last_attempt obs e (attempt + Z.of_nat k - 1).
Proof.
  induction 1 as [attempt w e w1 w2 Hc Ho
                 |todo attempt w e w1 w2 evs e' w' Hc Ho Hrun (IH1 & IH2 & evs0 & IH3)].
  - assert (attempt + Z.of_nat 1 - 1 = attempt)%Z as -> by lia.
    unfold count_Called, count_Observed, last_attempt, observer_events.
    destruct obs; simpl; (split; [done|]); (split; [done|]); by exists [].
  - assert (attempt + Z.of_nat (S (S todo)) - 1
            = attempt + 1 + Z.of_nat (S todo) - 1)%Z as -> by lia.
    change (Called attempt (Raise e) :: observer_events obs e attempt ++ Slept 0 :: evs)
      with ([Called attempt (Raise e)] ++ observer_events obs e attempt
              ++ [Slept 0] ++ evs).
    rewrite !count_Called_app, !count_Observed_app, IH1, IH2.
    split; [|split].
    + unfold count_Called, observer_events. destruct obs; simpl; lia.
    + unfold count_Observed, observer_events. destruct obs; simpl; lia.
    + rewrite IH3.
      exists ([Called attempt (Raise e)] ++ observer_events obs e attempt
                ++ [Slept 0] ++ evs0).
      by rewrite <-!app_assoc.
Qed.

Lemma retry_args_for_valid (n : Z) excs obs :
  (0 < n)%Z → forallb (λ c, issubclass c "Exception") excs = true →
  retry draw (retry_args_for n excs obs)
  = Ok (decorated draw (retry_args_for n excs obs)).
Proof.
  intros Hn Hex. unfold retry.
  cbn [attempts delay max_delay scale jitter exceptions on_exception
       retry_args_for retry_defaults].
  assert ((n <=? 0)%Z = false) as -> by (apply Z.leb_gt; lia).
  by rewrite Hex.
Qed.

End retry_properties.


(* ===================================================================== *)
(** * Part III: further properties *)
(* ===================================================================== *)

(** ** Paths *)

Lemma RE_PATH_KEY_DELIM_plain ab (c : ascii) (r : string) :
  c ≠ "."%char → c ≠ "["%char → c ≠ backslash →
  RE_PATH_KEY_DELIM ab (String c r) = None.
Proof.
  intros H1 H2 H3. unfold RE_PATH_KEY_DELIM.
  rewrite bracket_int_not_bracket by done.
  destruct ab; [done|]. by rewrite bs_pairs_dot_other.
Qed.

Lemma no_special_cons (c : ascii) (r : string) :
  no_special (String c r) = true →
  c ≠ "."%char ∧ c ≠ "["%char ∧ c ≠ backslash ∧ no_special r = true.
Proof.
  simpl. intros H. repeat (apply andb_prop in H as [H ?]).
  repeat split; try done; apply ascii_eqb_neq; by apply negb_true_iff.
Qed.

Lemma re_split_at_no_special ab (k : string) :
  no_special k = true → re_split_at ab k = [Some k].
Proof.
  revert ab. induction k as [|c r IH]; intros ab Hk.
  - apply re_split_at_nil.
  - apply no_special_cons in Hk as (H1 & H2 & H3 & Hr).
    rewrite re_split_at_char by by apply RE_PATH_KEY_DELIM_plain.
    by rewrite IH.
Qed.

Lemma ends_with_backslash_no_special (k : string) :
  no_special k = true → ends_with_backslash false k = false.
Proof.
  assert (∀ ab, ab = false → no_special k = true →
                ends_with_backslash ab k = false) as H; [|by apply H].
  induction k as [|c r IH]; intros ab Hab Hk; [done|].
  apply no_special_cons in Hk as (_ & _ & H3 & Hr). simpl.
  apply IH; [|done]. by apply ascii_eqb_neq.
Qed.

Lemma contains_char_no_special (c : ascii) (k : string) :
  c = "."%char ∨ c = "["%char → no_special k = true →
  contains_char c k = false.
Proof.
  intros Hc. induction k as [|d r IH]; [done|].
  intros (H1 & H2 & _ & Hr)%no_special_cons. simpl. rewrite IH by done.
  rewrite orb_false_r. apply ascii_eqb_neq. by destruct Hc as [->| ->].
Qed.

Lemma unescape_path_key_no_special (k : string) :
  no_special k = true → unescape_path_key k = k.
Proof.
  induction k as [|c r IH]; [done|].
  intros (_ & _ & H3 & Hr)%no_special_cons.
  by rewrite unescape_path_key_other, IH.
Qed.

Lemma key_token_plain (k : string) :
  no_special k = true →
  key_token k = Ok (mk_PathToken (VStr k) py_dict).
Proof.
  intros Hk. rewrite key_token_segment.
  - by rewrite unescape_path_key_no_special.
  - destruct k as [|c r]; [done|].
    apply no_special_cons in Hk as (_ & H2 & _). by apply bracket_int_not_bracket.
Qed.

Lemma key_tokens_plain (keys : list string) :
  forallb plain_key keys = true →
  key_tokens keys = Ok ((λ k, mk_PathToken (VStr k) py_dict) <$> keys).
Proof.
  induction keys as [|k keys IH]; [done|]. simpl.
  intros [[_ Hk]%andb_prop Hks]%andb_prop.
  by rewrite key_token_plain, IH.
Qed.

Lemma join_cons_cons (sep x y : string) (tl : list string) :
  join sep (x :: y :: tl) = x +:+ sep +:+ join sep (y :: tl).
Proof. reflexivity. Qed.

Lemma plain_key_nonempty (k : string) :
  plain_key k = true → ∃ c r, k = String c r.
Proof. destruct k as [|c r]; [done|]. eauto. Qed.

Lemma filter_None_join (keys : list string) :
  keys ≠ [] → forallb plain_key keys = true →
  filter_None (re_split_at false (join "." keys)) = keys.
Proof.
  induction keys as [|k keys IH]; [done|]. intros _.
  simpl forallb. intros [Hk Hks]%andb_prop.
  destruct (plain_key_nonempty k Hk) as (c & r & ->).
  apply andb_prop in Hk as [_ Hk].
  destruct keys as [|k2 keys].
  - simpl join. by rewrite re_split_at_no_special.
  - rewrite join_cons_cons.
    change (String c r +:+ "." +:+ join "." (k2 :: keys))
      with (String c r +:+ backslashes 0 +:+ String "." (join "." (k2 :: keys))).
    rewrite re_split_at_plain_dot;
      [|done|by apply ends_with_backslash_no_special].
    rewrite re_split_at_no_special by done.
    rewrite !filter_None_app. change (filter_None [None]) with (@nil string).
    rewrite IH by done. done.
Qed.

(** X1: [to_path] returns on every value that is not a string and on every
    string of at most 4302 characters, and [to_path] of the list it returned
    is that list again.  When it raises, it was given a longer string, and
    what it raises is the [ValueError] of [int] on a bracketed integer of
    more than 4300 digits. *)
Theorem to_path_returns_or_raises_ValueError (value : pyval) :
  (∃ path, to_path value = Ok path ∧ to_path (VList path) = Ok path)
  ∨ (∃ s e, value = VStr s ∧ (4302 < Z.of_nat (String.length s))%Z ∧
            to_path_tokens value = Raise e ∧ to_path value = Raise e ∧
            isinstance_exc e "ValueError" = true).
Proof.
  destruct (to_path_tokens value) as [keys|e] eqn:Hk.
  - left. unfold to_path at 1. rewrite Hk.
    destruct keys as [ts|v]; [by eexists|].
    destruct v; by eexists.
  - right. destruct value as [| |z|s|l|l|e'|id]; try done.
    exists s, e. split; [done|].
    unfold to_path. rewrite Hk. revert Hk. unfold to_path_tokens.
    destruct (contains_char "." s || contains_char "[" s); [|done].
    destruct (split_keys s) as [ts|e'] eqn:Hs; [done|]. intros [= ->].
    split; [|split; [done|split; [done|by eapply key_tokens_raises]]].
    destruct (decide (Z.of_nat (String.length s) <= 4302)%Z) as [Hlen|Hlen]; [|lia].
    destruct (split_keys_short s Hlen) as [ts Hts]. congruence.
Qed.

(** X2: a non-empty list of plain keys (not empty, no dot, no opening
    bracket, no backslash) joined with dots is read back by [to_path] as
    those keys, in order. *)
Theorem to_path_of_dotted_join (keys : list string) :
  keys ≠ [] → forallb plain_key keys = true →
  to_path (VStr (join "." keys)) = Ok (VStr <$> keys).
Proof.
  intros Hne Hall. unfold to_path, to_path_tokens.
  destruct (contains_char "." (join "." keys) || contains_char "[" (join "." keys))
    eqn:Hd.
  - unfold split_keys. rewrite re_split_eq, filter_None_join by done.
    rewrite key_tokens_plain by done. f_equal.
    rewrite <-list_fmap_compose. by apply list_fmap_ext.
  - destruct keys as [|k [|k2 keys]]; [done|done|].
    rewrite join_cons_cons in Hd.
    assert (contains_char "." (k +:+ "." +:+ join "." (k2 :: keys)) = true) as Hc.
    { by apply contains_char_app_r. }
    by rewrite Hc in Hd.
Qed.

Lemma to_path_of_dotted_join_witness :
  to_path (VStr (join "." ["a"; "b-1"; "c d"]))
  = Ok (VStr <$> ["a"; "b-1"; "c d"]).
Proof.
  apply (to_path_of_dotted_join ["a"; "b-1"; "c d"]).
  - discriminate.
  - reflexivity.
Defined.

(** X3: paths compose with a dot: when [p] does not end with a backslash,
    the tokens of [p.q] are the tokens the comprehension gives for [p]
    followed by those it gives for [q], and the tokenizer raises on [p.q]
    what the comprehension raises on [p] or, if it returns there, on [q]. *)
Theorem to_path_tokens_of_dotted_concat (p q : string) :
  ends_with_backslash false p = false →
  to_path_tokens (VStr (p +:+ "." +:+ q)) =
    match split_keys p with
    | Ok tp =>
        match split_keys q with
        | Ok tq => Ok (Tokens (tp ++ tq))
        | Raise e => Raise e
        end
    | Raise e => Raise e
    end.
Proof.
  intros Hp. unfold to_path_tokens.
  assert (contains_char "." (p +:+ "." +:+ q) = true) as ->.
  { by apply contains_char_app_r. }
  cbn [orb]. unfold split_keys.
  rewrite (re_split_eq p), (re_split_eq q), (re_split_eq (_ +:+ _)).
  change (p +:+ "." +:+ q) with (p +:+ backslashes 0 +:+ String "." q).
  rewrite re_split_at_plain_dot by done.
  rewrite !filter_None_app. change (filter_None [None]) with (@nil string).
  rewrite app_nil_l, key_tokens_app_eq.
  destruct (key_tokens (filter_None (re_split_at false p))) as [tp|]; [|done].
  by destruct (key_tokens (filter_None (re_split_at false q))).
Qed.

Lemma to_path_tokens_of_dotted_concat_witness :
  to_path_tokens (VStr ("a[0]" +:+ "." +:+ "b\.c"))
  = Ok (Tokens ([mk_PathToken (VStr "a") py_dict; mk_PathToken (VInt 0) py_list]
                  ++ [mk_PathToken (VStr "b.c") py_dict])).
Proof.
  apply (to_path_tokens_of_dotted_concat "a[0]" "b\.c"). reflexivity.
Defined.

(** ** Chains: laziness, failure while building, caching *)

Section chaining_more.
Context {W : Type} (pyd : string → option (@attribute W)).

Implicit Types (σ : @store W) (l b c : loc).

Lemma extends_refl σ : extends σ σ.
Proof. by repeat split. Qed.

Lemma extends_trans σ1 σ2 σ3 : extends σ1 σ2 → extends σ2 σ3 → extends σ1 σ3.
Proof.
  intros (H1 & H2 & H3 & H4) (H1' & H2' & H3' & H4').
  repeat split; [eauto|eauto|congruence|congruence].
Qed.

Lemma chain_link_extends c (lk : link) f ch σ :
  pyd (link_name lk) = Some (Callable f) → chains σ !! c = Some ch →
  ∃ c' σ',
    (b ← Chain_getattr pyd c (link_name lk);
     ChainWrapper_call b (link_args lk) (link_kargs lk)) σ = Some (Ok c', σ') ∧
    chains σ' !! c' = Some (mk_Chain (Wrapper (fresh (dom (wrappers σ))))) ∧
    wrappers σ' !! fresh (dom (wrappers σ))
    = Some (mk_ChainWrapper (chain_value ch) f (link_args lk) (link_kargs lk)) ∧
    extends σ σ'.
Proof.
  intros Hp Hc. unfold mbind at 1, M_bind at 1.
  rewrite (Chain_getattr_callable _ _ _ _ _ _ Hp Hc).
  erewrite ChainWrapper_call_eq; [|cbn [wrappers]; apply lookup_insert_eq].
  cbn [chains wrappers world calls wrapper_value method].
  rewrite insert_insert_eq.
  eexists _, _. split; [done|]. cbn [chains wrappers world calls].
  rewrite !lookup_insert_eq. split; [done|]. split; [done|].
  repeat split; try done.
  - intros c0 ch0 H0. cbn [chains]. rewrite lookup_insert_ne; [done|].
    intros <-. by rewrite fresh_lookup_None in H0.
  - intros l0 w0 H0. cbn [wrappers]. rewrite lookup_insert_ne; [done|].
    intros <-. by rewrite fresh_lookup_None in H0.
Qed.

Lemma hook_links_extends (links : list link) c ch σ :
  forallb (λ lk, callable_name pyd (link_name lk)) links = true →
  chains σ !! c = Some ch →
  ∃ c' ch' σ',
    hook_links pyd c links σ = Some (Ok c', σ') ∧
    chains σ' !! c' = Some ch' ∧ extends σ σ'.
Proof.
  revert c ch σ. induction links as [|lk links IH]; intros c ch σ Hall Hc.
  - exists c, ch, σ. split; [done|]. split; [done|apply extends_refl].
  - simpl in Hall. apply andb_prop in Hall as [Hlk Hall].
    unfold callable_name in Hlk.
    destruct (pyd (link_name lk)) as [[f|?]|] eqn:Hp; [|done..].
    destruct (chain_link_extends c lk f ch σ Hp Hc) as (c1 & σ1 & H1 & H2 & _ & H3).
    destruct (IH c1 _ σ1 Hall H2) as (c' & ch' & σ' & H4 & H5 & H6).
    exists c', ch', σ'. split; [|split; [done|by eapply extends_trans]].
    cbn [hook_links]. unfold mbind, M_bind in *.
    destruct (Chain_getattr pyd c (link_name lk) σ) as [[[b|e] σb]|]; [|done..].
    by rewrite H1.
Qed.

Lemma hook_links_app (l1 l2 : list link) c σ :
  hook_links pyd c (l1 ++ l2) σ =
    match hook_links pyd c l1 σ with
    | Some (Ok c', σ') => hook_links pyd c' l2 σ'
    | Some (Raise e, σ') => Some (Raise e, σ')
    | None => None
    end.
Proof.
  revert c σ. induction l1 as [|lk l1 IH]; intros c σ; [done|].
  cbn [app hook_links]. unfold mbind, M_bind.
  destruct (Chain_getattr pyd c (link_name lk) σ) as [[[b|e] σb]|]; [|done..].
  destruct (ChainWrapper_call b _ _ σb) as [[[c1|e] σ1]|]; [|done..].
  apply IH.
Qed.

Lemma chain_links_app (fuel : nat) (o : object) (l1 l2 : list link) σ :
  chain_links pyd fuel o (l1 ++ l2) σ =
    match chain_links pyd fuel o l1 σ with
    | Some (Ok o', σ') => chain_links pyd fuel o' l2 σ'
    | Some (Raise e, σ') => Some (Raise e, σ')
    | None => None
    end.
Proof.
  revert o σ. induction l1 as [|lk l1 IH]; intros o σ; [done|].
  cbn [app chain_links]. unfold mbind, M_bind.
  destruct (link_step pyd fuel o lk σ) as [[[o1|e] σ1]|]; [|done..].
  apply IH.
Qed.

(** X4: chaining is lazy.  Building [chain(seed).name1(...)...nameN(...)]
    from names that are callables of the package, and that are not found on
    the chain itself, returns a chain, calls none of the functions, leaves
    the world as it was and changes no object that existed before. *)
Theorem chain_building_is_lazy (fuel : nat) (seed : pyval) (links : list link) σ :
  forallb (λ lk, callable_name pyd (link_name lk)) links = true →
  forallb (λ lk, reaches_getattr (link_name lk)) links = true →
  ∃ c ch σ',
    (c0 ← chain seed; chain_links pyd fuel (A_chain c0) links) σ
    = Some (Ok (A_chain c), σ') ∧
    chains σ' !! c = Some ch ∧
    calls σ' = calls σ ∧ world σ' = world σ ∧
    (∀ c1 ch1, chains σ !! c1 = Some ch1 → chains σ' !! c1 = Some ch1) ∧
    (∀ l1 (w1 : @ChainWrapper W),
       wrappers σ !! l1 = Some w1 → wrappers σ' !! l1 = Some w1).
Proof.
  intros Hall Hreach. unfold chain, new_Chain, mbind, M_bind.
  set (c0 := fresh (dom (chains σ))). set (σ0 := mk_store _ _ _ _).
  destruct (hook_links_extends links c0 (mk_Chain (Plain seed)) σ0 Hall)
    as (c & ch & σ' & H1 & H2 & H3 & H4 & H5 & H6).
  { subst σ0. cbn. by rewrite lookup_insert_eq. }
  exists c, ch, σ'. rewrite chain_links_hook, H1 by done.
  repeat split; try done.
  intros c1 ch1 Hc1. apply H3. subst σ0. cbn.
  rewrite lookup_insert_ne; [done|]. intros <-. subst c0.
  by rewrite fresh_lookup_None in Hc1.
Qed.

(** X5: building stops at the first name that normal lookup does not find
    and that is not a callable of the package: the links before it are
    chained, then [InvalidMethod] is raised for that name; the links after
    it are never looked at and, again, no function has been called. *)
Theorem chain_building_fails_at_first_invalid_name (fuel : nat)
    (good : list link) (bad : link) (rest : list link) c ch σ :
  forallb (λ lk, callable_name pyd (link_name lk)) good = true →
  forallb (λ lk, reaches_getattr (link_name lk)) good = true →
  callable_name pyd (link_name bad) = false →
  reaches_getattr (link_name bad) = true →
  chains σ !! c = Some ch →
  ∃ σ',
    chain_links pyd fuel (A_chain c) (good ++ bad :: rest) σ
    = Some (Raise (InvalidMethod ("Invalid pydash method: " +:+ link_name bad)), σ') ∧
    calls σ' = calls σ ∧ world σ' = world σ.
Proof.
  intros Hgood Hreach Hbad Hrb Hc.
  destruct (hook_links_extends good c ch σ Hgood Hc)
    as (c' & ch' & σ' & H1 & H2 & _ & _ & H3 & H4).
  exists σ'. rewrite chain_links_app, chain_links_hook, H1 by done.
  split; [|done].
  cbn [chain_links]. unfold mbind at 1, M_bind at 1.
  rewrite link_step_hook by done. unfold mbind, M_bind, Chain_getattr.
  unfold callable_name in Hbad.
  by destruct (pyd (link_name bad)) as [[f|?]|].
Qed.

(** X6: [Chain.value] keeps what it computed.  Once it has returned, calling
    it again returns the same value and makes no call to any function: the
    store is left exactly as it was. *)
Theorem Chain_value_is_cached (fuel fuel' : nat) c (v : pyval) σ σ' :
  Chain_value fuel c σ = Some (Ok v, σ') →
  Chain_value fuel' c σ' = Some (Ok v, σ').
Proof.
  unfold Chain_value, mbind, M_bind, get_Chain.
  destruct (chains σ !! c) as [[s]|] eqn:Hc; [|done]. cbn [chain_value].
  destruct s as [v0|w].
  - intros [= <- <-]. by rewrite Hc.
  - destruct (ChainWrapper_unwrap fuel w σ) as [[[v1|e] σ1]|]; [|done..].
    unfold set_Chain. intros [= <- <-]. cbn. by rewrite lookup_insert_eq.
Qed.

(** X7: a wrapper keeps the value its upstream resolved to, but not its
    own result.  After [unwrap] has returned, the wrapper holds a plain
    upstream value, and unwrapping it again is exactly one more call of its
    own method on that value, with the arguments it holds: nothing upstream
    is entered again. *)
Theorem unwrap_again_calls_own_method_only (fuel : nat) l (v : pyval) σ σ' :
  ChainWrapper_unwrap fuel l σ = Some (Ok v, σ') →
  ∃ (w' : @ChainWrapper W) u,
    wrappers σ' !! l = Some w' ∧ wrapper_value w' = Plain u ∧
    ∀ fuel', ChainWrapper_unwrap (S fuel') l σ'
             = invoke (method w') u (args w') (kargs w') σ'.
Proof.
  destruct fuel as [|fuel]; [done|].
  rewrite ChainWrapper_unwrap_S.
  destruct (wrappers σ !! l) as [w|] eqn:Hw; [|done].
  destruct (wrapper_value w) as [u|up] eqn:Hv.
  - rewrite invoke_eq. intros [= _ <-]. exists w, u. cbn [wrappers].
    split; [done|]. split; [done|]. intros fuel'.
    by rewrite ChainWrapper_unwrap_S; cbn [wrappers]; rewrite Hw, Hv.
  - destruct (ChainWrapper_unwrap fuel up σ) as [[[u|e] σ1]|]; [|done..].
    destruct (wrappers σ1 !! l) as [w1|] eqn:Hw1; [|done].
    rewrite invoke_eq. intros [= _ <-].
    exists (mk_ChainWrapper (Plain u) (method w1) (args w1) (kargs w1)), u.
    unfold with_value. cbn [wrappers].
    rewrite lookup_insert_eq. split; [done|]. split; [done|]. intros fuel'.
    by rewrite ChainWrapper_unwrap_S; cbn [wrappers]; rewrite lookup_insert_eq.
Qed.

(** X8: [Chain.value] touches one chain object only.  Every other chain is
    left as it was (a chain a finalized chain was built from stays pending);
    when it returns, the chain holds the value; when the resolution raises,
    the chain is left as it was, still pending. *)
Theorem Chain_value_changes_its_own_chain_only (fuel : nat) c r σ σ' :
  Chain_value fuel c σ = Some (r, σ') →
  (∀ c', c' ≠ c → chains σ' !! c' = chains σ !! c') ∧
  match r with
  | Ok v => chains σ' !! c = Some (mk_Chain (Plain v))
  | Raise _ => chains σ' !! c = chains σ !! c
  end.
Proof.
  unfold Chain_value, mbind, M_bind, get_Chain.
  destruct (chains σ !! c) as [[s]|] eqn:Hc; [|done]. cbn [chain_value].
  destruct s as [v0|w].
  - intros [= <- <-]. by rewrite Hc.
  - destruct (ChainWrapper_unwrap fuel w σ) as [[[v1|e] σ1]|] eqn:Hu; [| |done].
    + apply unwrap_same_calls in Hu as [Hch _].
      unfold set_Chain. intros [= <- <-]. cbn. rewrite Hch. split.
      * intros c' Hne. by rewrite lookup_insert_ne.
      * by rewrite lookup_insert_eq.
    + apply unwrap_same_calls in Hu as [Hch _].
      intros [= <- <-]. by rewrite Hch.
Qed.
End chaining_more.

Lemma chain_building_is_lazy_witness :
  ∃ c ch σ',
    (c0 ← chain (VInt 3);
     chain_links pyd_numerical 0 (A_chain c0)
       [mk_link "add" [VInt 4] []; mk_link "multiply" [VInt 2] []])
      (empty_store tt) = Some (Ok (A_chain c), σ') ∧
    chains σ' !! c = Some ch ∧ calls σ' = [] ∧ world σ' = tt.
Proof.
  destruct (chain_building_is_lazy pyd_numerical 0 (VInt 3)
              [mk_link "add" [VInt 4] []; mk_link "multiply" [VInt 2] []]
              (empty_store tt) eq_refl eq_refl)
    as (c & ch & σ' & H1 & H2 & H3 & H4 & _).
  by exists c, ch, σ'.
Defined.

Lemma chain_building_fails_at_first_invalid_name_witness :
  ∃ σ',
    chain_links pyd_numerical 0 (A_chain 0)
      ([mk_link "add" [VInt 4] []] ++ mk_link "nope" [] []
         :: [mk_link "multiply" [VInt 2] []])
      (mk_store {[0 := mk_Chain (Plain (VInt 3))]} ∅ tt [])
    = Some (Raise (InvalidMethod ("Invalid pydash method: " +:+ "nope")), σ') ∧
    calls σ' = [] ∧ world σ' = tt.
Proof.
  assert (chains (mk_store {[0 := mk_Chain (Plain (VInt 3))]} ∅ tt [])
          !! 0 = Some (mk_Chain (Plain (VInt 3)))) as Hc.
  { vm_compute. reflexivity. }
  apply (chain_building_fails_at_first_invalid_name pyd_numerical 0
           [mk_link "add" [VInt 4] []] (mk_link "nope" [] [])
           [mk_link "multiply" [VInt 2] []] 0 _ _
           eq_refl eq_refl eq_refl eq_refl Hc).
Defined.

Lemma Chain_value_is_cached_witness :
  ∃ σ' : @store unit,
    Chain_value 1 0
      (mk_store {[0 := mk_Chain (Wrapper 0)]}
         {[0 := mk_ChainWrapper (Plain (VInt 3)) add [VInt 4] []]} tt [])
    = Some (Ok (VInt 7), σ') ∧
    Chain_value 0 0 σ' = Some (Ok (VInt 7), σ').
Proof.
  assert (∃ σ' : @store unit,
            Chain_value 1 0
              (mk_store {[0 := mk_Chain (Wrapper 0)]}
                 {[0 := mk_ChainWrapper (Plain (VInt 3)) add [VInt 4] []]} tt [])
            = Some (Ok (VInt 7), σ')) as [σ' Hv].
  { eexists. vm_compute. reflexivity. }
  exists σ'. split; [exact Hv|].
  exact (Chain_value_is_cached 1 0 0 (VInt 7) _ σ' Hv).
Defined.


Lemma unwrap_again_calls_own_method_only_witness :
  ∃ (σ' : @store unit) w' u,
    ChainWrapper_unwrap 2 1
      (mk_store ∅
         {[0 := mk_ChainWrapper (Plain (VInt 3)) add [VInt 4] [];
           1 := mk_ChainWrapper (Wrapper 0) multiply [VInt 2] []]} tt [])
    = Some (Ok (VInt 14), σ') ∧
    wrappers σ' !! 1 = Some w' ∧ wrapper_value w' = Plain u ∧
    ∀ fuel', ChainWrapper_unwrap (S fuel') 1 σ'
             = invoke (method w') u (args w') (kargs w') σ'.
Proof.
  assert (∃ σ' : @store unit,
            ChainWrapper_unwrap 2 1
              (mk_store ∅
                 {[0 := mk_ChainWrapper (Plain (VInt 3)) add [VInt 4] [];
                   1 := mk_ChainWrapper (Wrapper 0) multiply [VInt 2] []]} tt [])
            = Some (Ok (VInt 14), σ')) as [σ' Hu].
  { eexists. vm_compute. reflexivity. }
  destruct (unwrap_again_calls_own_method_only 2 1 (VInt 14) _ σ' Hu)
    as (w' & u & H1 & H2 & H3).
  by exists σ', w', u.
Defined.

Lemma Chain_value_changes_its_own_chain_only_witness :
  ∃ σ' : @store unit,
    Chain_value 1 1
      (mk_store {[0 := mk_Chain (Plain (VInt 3)); 1 := mk_Chain (Wrapper 0)]}
         {[0 := mk_ChainWrapper (Plain (VInt 3)) add [VInt 4] []]} tt [])
    = Some (Ok (VInt 7), σ') ∧
    chains σ' !! 0 = Some (mk_Chain (Plain (VInt 3))) ∧
    chains σ' !! 1 = Some (mk_Chain (Plain (VInt 7))).
Proof.
  assert (∃ σ' : @store unit,
            Chain_value 1 1
              (mk_store {[0 := mk_Chain (Plain (VInt 3)); 1 := mk_Chain (Wrapper 0)]}
                 {[0 := mk_ChainWrapper (Plain (VInt 3)) add [VInt 4] []]} tt [])
            = Some (Ok (VInt 7), σ')) as [σ' Hv].
  { eexists. vm_compute. reflexivity. }
  destruct (Chain_value_changes_its_own_chain_only 1 1 _ _ σ' Hv) as [H1 H2].
  exists σ'. split; [exact Hv|]. split; [|exact H2].
  etrans; [apply (H1 0); done|]. vm_compute. reflexivity.
Defined.


(** ** [memoize] with a resolver *)

Lemma pyval_eqb_refl : ∀ v : pyval, pyval_eqb v v = true.
Proof.
  fix IH 1. intros [| |z|s|l|l|e|n]; cbn; try done.
  - apply Z.eqb_refl.
  - apply String.eqb_refl.
  - induction l as [|x l IHl]; [done|]. by rewrite IH, IHl.
  - induction l as [|x l IHl]; [done|]. by rewrite IH, IHl.
  - rewrite bool_decide_eq_true_2 by done. apply String.eqb_refl.
  - apply Nat.eqb_refl.
Qed.

Section memoize_more.
Context {W : Type} (repr : pyval → string).

Implicit Types (func : @pycallable W) (resolver : option (@pycallable W))
  (σ : @memo_store W).

(** One call of the memoized function, read backwards from its outcome. *)
Lemma memoized_call_inv func resolver (args : list pyval) (kw : kwargs)
    σ r σ' :
  memoized repr func resolver args kw σ = (r, σ') →
  (∀ k v, dict_get k (cache σ) = Some v → dict_get k (cache σ') = Some v) ∧
  (func_calls σ' = func_calls σ ∨ func_calls σ' = func_calls σ ++ [(args, kw)]) ∧
  match r with
  | Ok v => ∃ key, dict_get key (cache σ') = Some v
  | Raise _ => cache σ' = cache σ
  end.
Proof.
  unfold memoized.
  destruct (match resolver with
            | Some resolve => resolve args kw (memo_world σ)
            | None => (Ok (default_key repr args kw), memo_world σ)
            end) as [[key|e] w1]; [|intros [= <- <-]; cbn; by eauto].
  destruct (hashable key); cbn [negb]; [|intros [= <- <-]; cbn; by eauto].
  destruct (dict_get key (cache σ)) as [v0|] eqn:Hget.
  { intros [= <- <-]; cbn; by eauto. }
  destruct (func args kw w1) as [[v1|e] w2]; intros [= <- <-]; cbn.
  - split; [|split; [by right|]].
    + intros k v Hk. by apply dict_get_set_miss.
    + exists key. apply dict_get_set_eq, pyval_eqb_refl.
  - by eauto.
Qed.

(** X9: what one call of a memoized function can do, whatever the resolver.
    Entries of the cache keep their values; [func] is entered at most once,
    with the arguments of the call; a call that raises stores nothing; a
    call that returns [v] leaves [v] in the cache under some key. *)
Theorem memoized_call_effect func resolver (args : list pyval) (kw : kwargs)
    σ r σ' :
  memoized repr func resolver args kw σ = (r, σ') →
  (∀ k v, dict_get k (cache σ) = Some v → dict_get k (cache σ') = Some v) ∧
  (func_calls σ' = func_calls σ ∨ func_calls σ' = func_calls σ ++ [(args, kw)]) ∧
  match r with
  | Ok v => ∃ key, dict_get key (cache σ') = Some v
  | Raise _ => cache σ' = cache σ
  end.
Proof. apply memoized_call_inv. Qed.

(** X10: what is cached stays cached.  After any sequence of calls of the
    memoized function, with any resolver and whether the calls return or
    raise, an entry the cache had before is still there with the same value,
    and [func] has been entered at most once per call. *)
Theorem memoize_cache_entries_are_final func resolver
    (cs : list (list pyval * kwargs)) σ (k v : pyval) :
  dict_get k (cache σ) = Some v →
  dict_get k (cache (memoized_calls repr func resolver cs σ)) = Some v ∧
  length (func_calls (memoized_calls repr func resolver cs σ))
  ≤ length (func_calls σ) + length cs.
Proof.
  revert σ. induction cs as [|[args kw] cs IH]; intros σ Hk.
  - cbn. split; [done|lia].
  - cbn [memoized_calls length].
    destruct (memoized repr func resolver args kw σ) as [r σ1] eqn:Hm.
    destruct (memoized_call_inv _ _ _ _ _ _ _ Hm) as (H1 & H2 & _).
    destruct (IH σ1 (H1 _ _ Hk)) as [H3 H4]. cbn [snd]. split; [done|].
    destruct H2 as [H2|H2]; rewrite H2 in H4; [lia|].
    rewrite length_app in H4. cbn in H4. lia.
Qed.

(** X11: the resolver decides what shares a result.  When the resolver
    gives a hashable key that is not in the cache and holds no exception
    instance, and [func] returns [v], a later call for which the resolver
    gives the same key returns [v] without entering [func], whatever its
    arguments are. *)
Theorem memoize_resolver_decides_sharing func (resolve : @pycallable W)
    (args1 args2 : list pyval) (kw1 kw2 : kwargs) σ (k v : pyval) (w1 w2 w3 : W) :
  resolve args1 kw1 (memo_world σ) = (Ok k, w1) →
  hashable k = true → exception_free k = true →
  dict_get k (cache σ) = None →
  func args1 kw1 w1 = (Ok v, w2) →
  resolve args2 kw2 w2 = (Ok k, w3) →
  ∃ σ1,
    memoized repr func (Some resolve) args1 kw1 σ = (Ok v, σ1) ∧
    func_calls σ1 = func_calls σ ++ [(args1, kw1)] ∧
    memoized repr func (Some resolve) args2 kw2 σ1
    = (Ok v, mk_memo_store (cache σ1) w3 (func_calls σ1)).
Proof.
  intros Hr1 Hh _ Hget Hf Hr2. unfold memoized at 1.
  rewrite Hr1, Hh. cbn [negb]. rewrite Hget, Hf.
  eexists. split; [done|]. cbn [func_calls]. split; [done|].
  unfold memoized. cbn [memo_world cache func_calls]. rewrite Hr2, Hh. cbn [negb].
  by rewrite dict_get_set_eq by apply pyval_eqb_refl.
Qed.
End memoize_more.

Lemma memoized_call_effect_witness :
  ∃ σ' : @memo_store unit,
    memoized repr_constant_objects (λ a _ (w : unit), (Ok (VTuple a), w)) None
      [VInt 1] [] (mk_memo_store [(VStr "k", VInt 5)] tt []) = (Ok (VTuple [VInt 1]), σ') ∧
    dict_get (VStr "k") (cache σ') = Some (VInt 5) ∧
    ∃ key, dict_get key (cache σ') = Some (VTuple [VInt 1]).
Proof.
  destruct (memoized repr_constant_objects (λ a _ (w : unit), (Ok (VTuple a), w)) None
              [VInt 1] [] (mk_memo_store [(VStr "k", VInt 5)] tt []))
    as [r σ'] eqn:Hm.
  destruct (memoized_call_effect _ _ _ _ _ _ _ _ Hm) as (H1 & _ & H3).
  assert (r = Ok (VTuple [VInt 1])) as ->.
  { vm_compute in Hm. by injection Hm as <- _. }
  exists σ'. split; [done|]. split; [|exact H3].
  apply H1. reflexivity.
Defined.

Lemma memoize_cache_entries_are_final_witness :
  dict_get (VStr "k")
    (cache (memoized_calls repr_constant_objects
              (λ a _ (w : unit), (Ok (VTuple a), w))
              (Some (λ a _ (w : unit), (Ok (VTuple a), w)))
              [([VInt 1], []); ([VList []], []); ([VStr "k"], [])]
              (mk_memo_store [(VStr "k", VInt 5)] tt []))) = Some (VInt 5).
Proof.
  apply (memoize_cache_entries_are_final repr_constant_objects
           (λ a _ (w : unit), (Ok (VTuple a), w))
           (Some (λ a _ (w : unit), (Ok (VTuple a), w)))
           [([VInt 1], []); ([VList []], []); ([VStr "k"], [])]
           (mk_memo_store [(VStr "k", VInt 5)] tt []) (VStr "k") (VInt 5)).
  reflexivity.
Defined.

Lemma memoize_resolver_decides_sharing_witness :
  ∃ σ1 : @memo_store unit,
    memoized repr_constant_objects (λ a _ (w : unit), (Ok (VTuple a), w))
      (Some (λ a _ (w : unit), (Ok (default (VNone) (head a)), w)))
      [VInt 1; VInt 2] [] (mk_memo_store [] tt []) = (Ok (VTuple [VInt 1; VInt 2]), σ1) ∧
    func_calls σ1 = [([VInt 1; VInt 2], [])] ∧
    memoized repr_constant_objects (λ a _ (w : unit), (Ok (VTuple a), w))
      (Some (λ a _ (w : unit), (Ok (default (VNone) (head a)), w)))
      [VInt 1; VInt 3] [] σ1
    = (Ok (VTuple [VInt 1; VInt 2]), mk_memo_store (cache σ1) tt (func_calls σ1)).
Proof.
  apply (memoize_resolver_decides_sharing repr_constant_objects
           (λ a _ (w : unit), (Ok (VTuple a), w))
           (λ a _ (w : unit), (Ok (default (VNone) (head a)), w))
           [VInt 1; VInt 2] [VInt 1; VInt 3] [] [] (mk_memo_store [] tt [])
           (VInt 1) (VTuple [VInt 1; VInt 2]) tt tt tt);
    reflexivity.
Defined.


(** ** [retry]: accepted arguments, bounds on calls and sleeps *)

Lemma Qlt_bool_false (x y : Q) : Qlt_bool x y = false ↔ (y <= x)%Q.
Proof.
  unfold Qlt_bool. rewrite negb_false_iff. apply Qle_bool_iff.
Qed.

Lemma Qlt_bool_true (x y : Q) : Qlt_bool x y = true ↔ (x < y)%Q.
Proof.
  unfold Qlt_bool. rewrite negb_true_iff. split.
  - intros H. apply Qnot_le_lt. intros Hle. apply Qle_bool_iff in Hle. congruence.
  - intros H. destruct (Qle_bool y x) eqn:Hle; [|done].
    apply Qle_bool_iff in Hle. by apply Qlt_not_le in H.
Qed.

Lemma Qle_bool_false (x y : Q) : Qle_bool x y = false ↔ (y < x)%Q.
Proof.
  rewrite <-Qlt_bool_true. unfold Qlt_bool. by rewrite negb_true_iff.
Qed.

Section retry_more.
Context {W : Type} (draw : Q → Q → W → Q * W).

Implicit Types (a : @retry_args W) (func : @pycallable W)
  (σ : @retry_store W) (evs : list retry_event).

Lemma count_Slept_app evs1 evs2 :
  count_Slept (evs1 ++ evs2) = count_Slept evs1 + count_Slept evs2.
Proof. unfold count_Slept. by rewrite filter_app, length_app. Qed.

(** The checks of [retry], one after the other. *)
Lemma retry_accepts_spec a :
  ((∃ dec, retry draw a = Ok dec) ↔ retry_accepts a) ∧
  ∀ e, retry draw a = Raise e →
       isinstance_exc e "ValueError" = true ∨ isinstance_exc e "TypeError" = true.
Proof.
  unfold retry, retry_accepts.
  destruct (attempts a <=? 0)%Z eqn:H1.
  { apply Z.leb_le in H1. split; [|intros e [= <-]; by left].
    split; [by intros [? ?]|]. intros (? & _). lia. }
  apply Z.leb_gt in H1.
  destruct (Qlt_bool (delay a) 0) eqn:H2.
  { apply Qlt_bool_true in H2. split; [|intros e [= <-]; by left].
    split; [by intros [? ?]|]. intros (_ & ? & _). by apply Qlt_not_le in H2. }
  apply Qlt_bool_false in H2.
  destruct (Qlt_bool (max_delay a) 0) eqn:H3.
  { apply Qlt_bool_true in H3. split; [|intros e [= <-]; by left].
    split; [by intros [? ?]|]. intros (_ & _ & ? & _). by apply Qlt_not_le in H3. }
  apply Qlt_bool_false in H3.
  destruct (Qle_bool (scale a) 0) eqn:H4.
  { apply Qle_bool_iff in H4. split; [|intros e [= <-]; by left].
    split; [by intros [? ?]|]. intros (_ & _ & _ & ? & _). by apply Qlt_not_le in H.  }
  apply Qle_bool_false in H4.
  destruct (match jitter a with
            | JitterNumber j => Qlt_bool j 0
            | JitterTuple l => negb (length l =? 2)%nat
            end) eqn:H5.
  { split; [|intros e [= <-]; by left].
    split; [by intros [? ?]|]. intros (_ & _ & _ & _ & H & _).
    destruct (jitter a) as [j|l].
    - apply Qlt_bool_true in H5. by apply Qlt_not_le in H5.
    - rewrite H in H5. done. }
  destruct (forallb (λ c, issubclass c "Exception") (exceptions a)) eqn:H6; cbn [negb].
  - split; [|done]. split; [intros _|by eauto].
    repeat split; try done.
    + destruct (jitter a) as [j|l]; [by apply Qlt_bool_false in H5|].
      apply negb_false_iff in H5. by apply Nat.eqb_eq in H5.
    + apply Forall_forall. intros c Hc.
      rewrite forallb_forall in H6. apply H6. by apply list_elem_of_In.
  - split; [|intros e [= <-]; by right].
    split; [by intros [? ?]|]. intros (_ & _ & _ & _ & _ & H).
    assert (forallb (λ c, issubclass c "Exception") (exceptions a) = true); [|congruence].
    apply forallb_forall. intros c Hc. rewrite Forall_forall in H.
    apply H. by apply list_elem_of_In.
Qed.


(** One turn of the loop: [func] is entered, perhaps the observer is called,
    and either the call is over, or the loop sleeps (or not) and goes on
    with the next attempt. *)
Lemma decorated_loop_turn a func (args : list pyval) (kw : kwargs)
    (todo : nat) (attempt : Z) (delay_time : Q) σ r σ' :
  (0 <= max_delay a)%Q →
  decorated_loop draw a func args kw (S todo) attempt delay_time σ = (r, σ') →
  ∃ r0 seen,
    (seen = [] ∨ ∃ exc, seen = [Observed exc attempt]) ∧
    ((retry_log σ' = retry_log σ ++ Called attempt r0 :: seen ∧
      ∀ v, r = Ok v → r0 = Ok v ∧ seen = [])
     ∨ (attempt ≠ attempts a ∧
        ∃ (w3 : W) (delay_time' : Q) slept,
          (slept = [] ∨ ∃ d, slept = [Slept d] ∧ sleep_within a (Slept d)) ∧
          decorated_loop draw a func args kw todo (attempt + 1)%Z delay_time'
            (mk_retry_store w3 (retry_log σ ++ Called attempt r0 :: seen ++ slept))
          = (r, σ'))).
Proof.
  intros Hmax Hrun. cbn [decorated_loop] in Hrun.
  destruct (func args kw (retry_world σ)) as [r0 w1].
  exists r0. destruct r0 as [v|exc].
  { injection Hrun as <- <-. exists []. split; [by left|]. left. split; [done|].
    by intros v' [= <-]. }
  destruct (caught_by (exceptions a) exc); cbn [negb].
  2:{ injection Hrun as <- <-. exists []. split; [by left|]. by left. }
  set (seen := match on_exception a with Some _ => [Observed exc attempt] | None => [] end).
  assert (seen = [] ∨ ∃ exc0, seen = [Observed exc0 attempt]) as Hseen.
  { subst seen. destruct (on_exception a); eauto. }
  exists seen. split; [done|].
  destruct (match on_exception a with
            | Some obs =>
                let '(r', w2) := obs exc attempt w1 in
                (match r' with Ok _ => None | Raise e => Some e end, w2,
                 (retry_log σ ++ [Called attempt (Raise exc)]) ++ [Observed exc attempt])
            | None => (None, w1, retry_log σ ++ [Called attempt (Raise exc)])
            end) as [[raised w2] log2] eqn:Hobs.
  assert (log2 = retry_log σ ++ Called attempt (Raise exc) :: seen) as ->.
  { subst seen. destruct (on_exception a) as [obs|].
    - destruct (obs exc attempt w1) as [r' w2']. injection Hobs as _ _ <-.
      by rewrite <-app_assoc.
    - by injection Hobs as _ _ <-. }
  clear Hobs.
  destruct raised as [e|].
  { injection Hrun as <- <-. by left. }
  destruct (attempt =? attempts a)%Z eqn:Hlast.
  { injection Hrun as <- <-. by left. }
  apply Z.eqb_neq in Hlast.
  destruct (match jitter a with
            | JitterNumber j =>
                if truthy j
                then (Raise (TypeError "argument after * must be an iterable"), w2)
                else (Ok delay_time, w2)
            | JitterTuple [] => (Ok delay_time, w2)
            | JitterTuple [lo; hi] =>
                let '(rnd, w3) := random draw lo hi w2 in
                (Ok (delay_time + (if Qlt_bool 0 rnd then rnd else 0))%Q, w3)
            | JitterTuple _ => (Raise (TypeError "random() arguments"), w2)
            end) as [[d|e] w3].
  2:{ injection Hrun as <- <-. by left. }
  destruct (Qlt_bool d 0) eqn:Hneg.
  - rename Hrun into Hrec. right. split; [done|]. exists w3, d, [].
    split; [by left|]. by rewrite app_nil_r.
  - rename Hrun into Hrec. right. split; [done|]. apply Qlt_bool_false in Hneg.
    eexists w3, _, [Slept _]. split; [right; eexists; split; [done|]|].
    2:{ rewrite <-Hrec. f_equal. f_equal. rewrite <-!app_assoc. done. }
    cbn [sleep_within]. unfold truthy.
    destruct (Qeq_bool (max_delay a) 0) eqn:Hz; cbn [negb].
    + apply Qeq_bool_iff in Hz. split; [done|]. by intros [].
    + destruct (Qlt_bool (max_delay a) d) eqn:Hcap.
      * split; [done|]. intros _. apply Qle_refl.
      * apply Qlt_bool_false in Hcap. by split.
Qed.


Lemma called_attempts_app evs1 evs2 :
  called_attempts (evs1 ++ evs2) = called_attempts evs1 ++ called_attempts evs2.
Proof. unfold called_attempts. apply omap_app. Qed.

Lemma turn_counts a (attempt : Z) (r0 : result pyval) seen slept :
  (seen = [] ∨ ∃ exc, seen = [Observed exc attempt]) →
  (slept = [] ∨ ∃ d, slept = [Slept d] ∧ sleep_within a (Slept d)) →
  count_Called (Called attempt r0 :: seen ++ slept) = 1 ∧
  count_Observed (Called attempt r0 :: seen ++ slept) ≤ 1 ∧
  count_Slept (Called attempt r0 :: seen ++ slept) = length slept ∧
  length slept ≤ 1 ∧
  called_attempts (Called attempt r0 :: seen ++ slept) = [attempt] ∧
  Forall (sleep_within a) (Called attempt r0 :: seen ++ slept).
Proof.
  unfold count_Called, count_Observed, count_Slept, called_attempts.
  intros [->|[exc ->]] [->|(d & -> & Hd)]; simpl;
    (split; [done|]); (split; [lia|]); (split; [done|]); (split; [lia|]);
    (split; [done|]); repeat constructor; apply Hd.
Qed.

Lemma decorated_loop_bounds a func (args : list pyval) (kw : kwargs)
    (todo : nat) (attempt : Z) (delay_time : Q) σ r σ' :
  (0 <= max_delay a)%Q →
  (attempt + Z.of_nat todo = attempts a)%Z →
  decorated_loop draw a func args kw (S todo) attempt delay_time σ = (r, σ') →
  ∃ evs,
    retry_log σ' = retry_log σ ++ evs ∧
    1 ≤ count_Called evs ∧ count_Called evs ≤ S todo ∧
    called_attempts evs = seqZ attempt (Z.of_nat (count_Called evs)) ∧
    count_Observed evs ≤ count_Called evs ∧
    count_Slept evs < count_Called evs ∧
    Forall (sleep_within a) evs ∧
    ∀ v, r = Ok v → ∃ k, last evs = Some (Called k (Ok v)).
Proof.
  intros Hmax. revert attempt delay_time σ.
  induction todo as [|todo IH]; intros attempt delay_time σ Hinv Hrun;
    apply decorated_loop_turn in Hrun
      as (r0 & seen & Hseen &
          [[Hlog Hok]|(Hne & w3 & dt & slept & Hslept & Hrec)]); try done;
    try lia.
  - destruct (turn_counts a attempt r0 seen [] Hseen (or_introl eq_refl))
      as (H1 & H2 & H3 & _ & H4 & H5).
    rewrite app_nil_r in *. cbn [length] in H3.
    exists (Called attempt r0 :: seen). rewrite H1, H4.
    repeat split; try done; try lia.
    intros v Hv. destruct (Hok v Hv) as [-> ->]. by exists attempt.
  - destruct (turn_counts a attempt r0 seen [] Hseen (or_introl eq_refl))
      as (H1 & H2 & H3 & _ & H4 & H5).
    rewrite app_nil_r in *. cbn [length] in H3.
    exists (Called attempt r0 :: seen). rewrite H1, H4.
    repeat split; try done; try lia.
    intros v Hv. destruct (Hok v Hv) as [-> ->]. by exists attempt.
  - destruct (turn_counts a attempt r0 seen slept Hseen Hslept)
      as (H1 & H2 & H3 & H3' & H4 & H5).
    apply IH in Hrec as (evs & Hlog & G1 & G2 & G3 & G4 & G5 & G6 & G7); [|lia].
    cbn [retry_log] in Hlog.
    exists ((Called attempt r0 :: seen ++ slept) ++ evs).
    rewrite count_Called_app, count_Observed_app, count_Slept_app,
      called_attempts_app, Forall_app, H1, H4, G3.
    split; [by rewrite Hlog, <-app_assoc|].
    repeat split; try done; try lia.
    + rewrite (seqZ_cons attempt) by lia. cbn [app]. do 2 f_equal. lia.
    + intros v Hv. destruct (G7 v Hv) as [k Hk]. exists k.
      by rewrite last_app, Hk.
Qed.

Lemma retry_Ok_decorated a dec :
  retry draw a = Ok dec →
  ∃ j, dec = decorated draw
               (mk_retry_args (attempts a) (delay a) (max_delay a) (scale a) j
                  (exceptions a) (on_exception a)).
Proof.
  unfold retry. intros H.
  repeat match type of H with
         | (if ?b then _ else _) = _ => destruct b; [done|]
         end.
  cbv zeta in H. injection H as <-. by eexists.
Qed.

(** X13: a function decorated by [retry] stays within its bounds.  In one
    decorated call, [func] is entered at least once and at most [attempts]
    times, with the attempts numbered 1, 2, ... in order; the observer is
    called at most once per call of [func]; there are fewer sleeps than
    calls of [func]; no sleep is negative, nor longer than [max_delay] when
    [max_delay] is not 0; and a value that is returned is the value of the
    last call of [func]. *)
Theorem retry_stays_within_bounds a dec func (args : list pyval) (kw : kwargs)
    σ r σ' :
  retry draw a = Ok dec →
  dec func args kw σ = (r, σ') →
  ∃ evs,
    retry_log σ' = retry_log σ ++ evs ∧
    1 ≤ count_Called evs ∧ (Z.of_nat (count_Called evs) <= attempts a)%Z ∧
    called_attempts evs = seqZ 1 (Z.of_nat (count_Called evs)) ∧
    count_Observed evs ≤ count_Called evs ∧
    count_Slept evs < count_Called evs ∧
    Forall (sleep_within a) evs ∧
    ∀ v, r = Ok v → ∃ k, last evs = Some (Called k (Ok v)).
Proof.
  intros Hretry Hrun.
  destruct (proj1 (proj1 (retry_accepts_spec a)) (ex_intro _ dec Hretry))
    as (Hn & _ & Hmax & _).
  apply retry_Ok_decorated in Hretry as [j ->].
  unfold decorated in Hrun. cbn [attempts delay] in Hrun.
  replace (Z.to_nat (attempts a)) with (S (Z.to_nat (attempts a) - 1)) in Hrun by lia.
  apply decorated_loop_bounds in Hrun
    as (evs & Hlog & G1 & G2 & G3 & G4 & G5 & G6 & G7);
    [|exact Hmax|cbn [attempts]; lia].
  exists evs. repeat split; try done. lia.
Qed.

(** X14: the first attempt can end the call.  When the first call of
    [func] returns, or raises an exception that is not an instance of a
    class of [exceptions], the decorated function gives that very outcome
    after this one call: no observer, no sleep, no second attempt.  When it
    raises a caught exception and the observer raises in turn, the exception
    of the observer is what the caller gets, and [func] is not entered
    again. *)
Theorem retry_first_attempt_can_end_the_call a dec func
    (args : list pyval) (kw : kwargs) σ (r : result pyval) (w1 : W) :
  retry draw a = Ok dec →
  func args kw (retry_world σ) = (r, w1) →
  (match r with Ok _ => True | Raise exc => caught_by (exceptions a) exc = false end →
   dec func args kw σ = (r, mk_retry_store w1 (retry_log σ ++ [Called 1 r]))) ∧
  (∀ exc obs e' w2,
     r = Raise exc → caught_by (exceptions a) exc = true →
     on_exception a = Some obs → obs exc 1%Z w1 = (Raise e', w2) →
     dec func args kw σ
     = (Raise e', mk_retry_store w2
                    (retry_log σ ++ [Called 1 (Raise exc); Observed exc 1]))).
Proof.
  intros Hretry Hf.
  destruct (proj1 (proj1 (retry_accepts_spec a)) (ex_intro _ dec Hretry))
    as (Hn & _).
  apply retry_Ok_decorated in Hretry as [j ->].
  unfold decorated. cbn [attempts delay].
  replace (Z.to_nat (attempts a)) with (S (Z.to_nat (attempts a) - 1)) by lia.
  cbn [decorated_loop]. rewrite Hf. cbn [exceptions on_exception]. split.
  - destruct r as [v|exc]; [done|]. by intros ->.
  - intros exc obs e' w2 -> Hc Ho Hobs. rewrite Hc, Ho, Hobs. cbn [negb].
    by rewrite <-app_assoc.
Qed.
End retry_more.


Lemma retry_stays_within_bounds_witness :
  ∃ σ' evs,
    retry (@draw_low nat) (@mk_retry_args nat 5 (1 # 2) 1 2 (JitterNumber 0) [Exception] None)
    = Ok (decorated (@draw_low nat)
            (@mk_retry_args nat 5 (1 # 2) 1 2 (JitterNumber 0) [Exception] None)) ∧
    decorated (@draw_low nat)
      (@mk_retry_args nat 5 (1 # 2) 1 2 (JitterNumber 0) [Exception] None)
      third_time_lucky [] [] (mk_retry_store 0 []) = (Ok (VInt 2), σ') ∧
    retry_log σ' = [] ++ evs ∧
    called_attempts evs = seqZ 1 (Z.of_nat (count_Called evs)) ∧
    count_Slept evs < count_Called evs ∧
    Forall (sleep_within
              (@mk_retry_args nat 5 (1 # 2) 1 2 (JitterNumber 0) [Exception] None)) evs.
Proof.
  assert (retry (@draw_low nat)
            (@mk_retry_args nat 5 (1 # 2) 1 2 (JitterNumber 0) [Exception] None)
          = Ok (decorated (@draw_low nat)
                  (@mk_retry_args nat 5 (1 # 2) 1 2 (JitterNumber 0) [Exception] None)))
    as Hretry by reflexivity.
  assert (∃ σ', decorated (@draw_low nat)
            (@mk_retry_args nat 5 (1 # 2) 1 2 (JitterNumber 0) [Exception] None)
            third_time_lucky [] [] (mk_retry_store 0 []) = (Ok (VInt 2), σ'))
    as [σ' Hrun].
  { eexists. vm_compute. reflexivity. }
  destruct (retry_stays_within_bounds (@draw_low nat) _ _ third_time_lucky [] []
              (mk_retry_store 0 []) _ σ' Hretry Hrun)
    as (evs & H1 & _ & _ & H2 & _ & H3 & H4 & _).
  exists σ', evs. repeat split; assumption.
Defined.

Lemma retry_first_attempt_can_end_the_call_witness :
  decorated draw_lowest
    (mk_retry_args 3 (1 # 2) 150 2 (JitterNumber 0)
       [mk_pyclass "KeyError" ["KeyError"; "LookupError"; "Exception"; "BaseException"]]
       None)
    always_boom [] [] (mk_retry_store tt [])
  = (Raise (ValueError "boom"),
     mk_retry_store tt ([] ++ [Called 1 (Raise (ValueError "boom"))])).
Proof.
  apply (retry_first_attempt_can_end_the_call draw_lowest
           (mk_retry_args 3 (1 # 2) 150 2 (JitterNumber 0)
              [mk_pyclass "KeyError"
                 ["KeyError"; "LookupError"; "Exception"; "BaseException"]]
              None)
           _ always_boom [] [] (mk_retry_store tt [])
           (Raise (ValueError "boom")) tt).
  - reflexivity.
  - reflexivity.
  - vm_compute. reflexivity.
Defined.


(** ** Defaults *)

(** X15: [default_to_any] returns the first of [value, *default_values]
    that is not [None], falsy values such as 0 or the empty string included;
    it returns [None] exactly when all of them are [None]; and it is
    [default_to] folded over the defaults from the left. *)
Theorem default_to_any_is_first_not_None (value : pyval) (default_values : list pyval) :
  (∀ before val after,
     value :: default_values = before ++ val :: after →
     Forall (λ v, v = VNone) before → val ≠ VNone →
     default_to_any value default_values = val) ∧
  (default_to_any value default_values = VNone
   ↔ Forall (λ v, v = VNone) (value :: default_values)) ∧
  default_to_any value default_values = foldl default_to value default_values.
Proof.
  unfold default_to_any. split; [|split].
  - generalize (value :: default_values). intros l before.
    revert l. induction before as [|b before IH]; intros l val after -> Hb Hv.
    + cbn. by destruct val.
    + apply Forall_cons in Hb as [-> Hb]. cbn [app first_not_None]. by eapply IH.
  - generalize (value :: default_values). intros l.
    induction l as [|v l IH]; [by split|].
    cbn [first_not_None]. rewrite Forall_cons.
    destruct v; try (split; [done|by intros [? _]]).
    rewrite IH. split; [by intros ?|by intros [_ ?]].
  - revert value. induction default_values as [|d ds IH]; intros value.
    + cbn. by destruct value.
    + cbn [foldl]. rewrite <-IH. unfold default_to, default_to_any.
      cbn. by destruct value, d.
Qed.

Lemma default_to_any_is_first_not_None_witness :
  default_to_any VNone [VNone; VInt 0; VInt 20] = VInt 0.
Proof.
  apply (proj1 (default_to_any_is_first_not_None VNone [VNone; VInt 0; VInt 20])
           [VNone; VNone] (VInt 0) [VInt 20]).
  - reflexivity.
  - repeat constructor.
  - discriminate.
Defined.

(** ** Function lists *)

Section function_lists_properties.
Context {W : Type} (truth : pyval → bool).

Implicit Types (funcs fs gs : list (@pycallable W)).

Lemma over_app fs gs (args : list pyval) (w : W) :
  over (fs ++ gs) args w =
    match over fs args w with
    | (Ok vs1, w1) =>
        match over gs args w1 with
        | (Ok vs2, w2) => (Ok (vs1 ++ vs2), w2)
        | (Raise e, w2) => (Raise e, w2)
        end
    | (Raise e, w1) => (Raise e, w1)
    end.
Proof.
  revert w. induction fs as [|f fs IH]; intros w.
  - cbn. by destruct (over gs args w) as [[?|?] ?].
  - cbn [app over]. destruct (f args [] w) as [[v|e] w1]; [|done].
    rewrite IH. destruct (over fs args w1) as [[vs1|e] w2]; [|done].
    by destruct (over gs args w2) as [[?|?] ?].
Qed.

(** X16: [over] calls the functions in order with the positional
    arguments, each on the world the previous one left.  With no function it
    returns the empty list and calls nothing; with one function it returns
    the list of the one result of that function, or raises what it raises;
    over the concatenation of two lists it runs the first, then the second,
    and joins the results; an exception of a function ends it with nothing
    after it called.  When it returns, there is one result per function. *)
Theorem over_runs_functions_in_order (f : @pycallable W) fs gs
    (args : list pyval) (w : W) :
  over [] args w = (Ok [], w)
  ∧ over [f] args w =
      match f args [] w with
      | (Ok v, w1) => (Ok [v], w1)
      | (Raise e, w1) => (Raise e, w1)
      end
  ∧ over (fs ++ gs) args w =
      match over fs args w with
      | (Ok vs1, w1) =>
          match over gs args w1 with
          | (Ok vs2, w2) => (Ok (vs1 ++ vs2), w2)
          | (Raise e, w2) => (Raise e, w2)
          end
      | (Raise e, w1) => (Raise e, w1)
      end
  ∧ (∀ vs w1 e w2,
       over fs args w = (Ok vs, w1) → f args [] w1 = (Raise e, w2) →
       over (fs ++ f :: gs) args w = (Raise e, w2))
  ∧ ∀ vs w', over fs args w = (Ok vs, w') → length vs = length fs.
Proof.
  split; [done|]. split.
  { cbn [over]. by destruct (f args [] w) as [[?|?] ?]. }
  split; [apply over_app|]. split.
  - intros vs w1 e w2 Hfs Hf. rewrite over_app, Hfs. cbn [over]. by rewrite Hf.
  - revert w. induction fs as [|f' fs IH]; intros w vs w'.
    + by intros [= <- <-].
    + cbn [over]. destruct (f' args [] w) as [[v|e] w1]; [|done].
      destruct (over fs args w1) as [[vs1|e] w2] eqn:Hfs; [|done].
      intros [= <- <-]. cbn. f_equal. by eapply IH.
Qed.

(** X17: [over_every] and [over_some] are [all] and [any] of the results of
    [over]: whenever [over] returns the list of results, [over_every]
    returns whether all of them are truthy and [over_some] whether one of
    them is. *)
Theorem over_every_and_over_some_agree_with_over funcs (args : list pyval)
    (w w' : W) (vs : list pyval) :
  over funcs args w = (Ok vs, w') →
  (∃ w1, over_every truth funcs args w = (Ok (forallb truth vs), w1)) ∧
  (∃ w2, over_some truth funcs args w = (Ok (existsb truth vs), w2)).
Proof.
  revert w vs. induction funcs as [|f funcs IH]; intros w vs.
  - intros [= <- <-]. cbn. eauto.
  - cbn [over over_every over_some].
    destruct (f args [] w) as [[v|e] w1]; [|done].
    destruct (over funcs args w1) as [[vs1|e] w2] eqn:Hfs; [|done].
    intros [= <- <-]. cbn [forallb existsb].
    destruct (IH _ _ Hfs) as [[w3 H3] [w4 H4]].
    destruct (truth v); cbn [andb orb]; eauto.
Qed.

Lemma over_every_app fs gs (args : list pyval) (w : W) :
  over_every truth (fs ++ gs) args w =
    match over_every truth fs args w with
    | (Ok true, w1) => over_every truth gs args w1
    | other => other
    end.
Proof.
  revert w; induction fs as [|f fs IH]; intros w; try done.
  cbn [app over_every]. destruct (f args [] w) as [[v|e] w1]; try done.
  destruct (truth v); try done; apply IH.
Qed.

Lemma over_some_app fs gs (args : list pyval) (w : W) :
  over_some truth (fs ++ gs) args w =
    match over_some truth fs args w with
    | (Ok false, w1) => over_some truth gs args w1
    | other => other
    end.
Proof.
  revert w; induction fs as [|f fs IH]; intros w; try done.
  cbn [app over_some]. destruct (f args [] w) as [[v|e] w1]; try done.
  destruct (truth v); try done; apply IH.
Qed.

(** X18: [over_every] stops at the first result that is not truthy and
    [over_some] at the first truthy one.  With no function [over_every]
    returns [True] and [over_some] [False]; with one function each returns
    the truth of its result, or raises what it raises; over a concatenation
    the outcome is that of the first list unless it ran to its end.  Once
    the functions of [fs] have all returned truthy results and [f] returns
    one that is not, [over_every] returns [False] in the world [f] left,
    whatever functions follow: they are not called, so that one that would
    raise goes unnoticed; and likewise for [over_some] with the truth
    values exchanged. *)
Theorem over_every_and_over_some_short_circuit (f : @pycallable W) fs gs
    (args : list pyval) (w : W) :
  (over_every truth [] args w = (Ok true, w)
   ∧ over_some truth [] args w = (Ok false, w))
  ∧ (over_every truth [f] args w =
       match f args [] w with
       | (Ok v, w1) => (Ok (truth v), w1)
       | (Raise e, w1) => (Raise e, w1)
       end
     ∧ over_some truth [f] args w =
       match f args [] w with
       | (Ok v, w1) => (Ok (truth v), w1)
       | (Raise e, w1) => (Raise e, w1)
       end)
  ∧ (over_every truth (fs ++ gs) args w =
       match over_every truth fs args w with
       | (Ok true, w1) => over_every truth gs args w1
       | other => other
       end
     ∧ over_some truth (fs ++ gs) args w =
       match over_some truth fs args w with
       | (Ok false, w1) => over_some truth gs args w1
       | other => other
       end)
  ∧ (∀ w1 v w2,
       over_every truth fs args w = (Ok true, w1) →
       f args [] w1 = (Ok v, w2) → truth v = false →
       over_every truth (fs ++ f :: gs) args w = (Ok false, w2))
  ∧ (∀ w1 v w2,
       over_some truth fs args w = (Ok false, w1) →
       f args [] w1 = (Ok v, w2) → truth v = true →
       over_some truth (fs ++ f :: gs) args w = (Ok true, w2)).
Proof.
  split; [done|]. split.
  { cbn [over_every over_some].
    destruct (f args [] w) as [[v|e] w1]; [|done]. by destruct (truth v). }
  split; [split; [apply over_every_app|apply over_some_app]|]. split.
  - intros w1 v w2 Hfs Hf Hv. rewrite over_every_app, Hfs.
    cbn [over_every]. by rewrite Hf, Hv.
  - intros w1 v w2 Hfs Hf Hv. rewrite over_some_app, Hfs.
    cbn [over_some]. by rewrite Hf, Hv.
Qed.
End function_lists_properties.

Lemma over_every_and_over_some_agree_with_over_witness :
  (∃ w1, over_every (λ v, negb (pyval_eqb v (VInt 0)))
           [λ a _ (w : nat), (Ok (VInt 1), S w); λ a _ (w : nat), (Ok (VInt 0), S w)]
           [] 0 = (Ok false, w1)) ∧
  (∃ w2, over_some (λ v, negb (pyval_eqb v (VInt 0)))
           [λ a _ (w : nat), (Ok (VInt 1), S w); λ a _ (w : nat), (Ok (VInt 0), S w)]
           [] 0 = (Ok true, w2)).
Proof.
  apply (over_every_and_over_some_agree_with_over
           (λ v, negb (pyval_eqb v (VInt 0)))
           [λ a _ (w : nat), (Ok (VInt 1), S w); λ a _ (w : nat), (Ok (VInt 0), S w)]
           [] 0 2 [VInt 1; VInt 0]).
  reflexivity.
Defined.

(** ** Identifiers *)

Section unique_id_properties.
Context (to_string : pyval → string).

Lemma unique_ids_counter (prefixes : list pyval) (c : Z) :
  (unique_ids to_string prefixes c).2 = (c + Z.of_nat (length prefixes))%Z.
Proof.
  revert c. induction prefixes as [|p ps IH]; intros c; [cbn; lia|].
  cbn [unique_ids unique_id length]. specialize (IH (c + 1)%Z).
  destruct (unique_ids to_string ps (c + 1)) as [ids c2]. cbn in *. lia.
Qed.

Lemma unique_ids_above (prefix : pyval) (n : nat) (c : Z) (id : string) :
  id ∈ (unique_ids to_string (replicate n prefix) c).1 →
  ∃ k, (c < k)%Z ∧ id = (unique_id to_string prefix (k - 1)).1.
Proof.
  revert c. induction n as [|n IH]; intros c; [by intros ?%elem_of_nil|].
  cbn [replicate unique_ids]. unfold unique_id at 1.
  specialize (IH (c + 1)%Z).
  destruct (unique_ids to_string (replicate n prefix) (c + 1)) as [ids c2].
  cbn [fst]. intros [->|Hin]%elem_of_cons.
  - exists (c + 1)%Z. split; [lia|]. unfold unique_id. cbn [fst].
    by replace (c + 1 - 1 + 1)%Z with (c + 1)%Z by lia.
  - destruct (IH Hin) as (k & Hk & ->). exists k. split; [lia|done].
Qed.

(** X19: every call of [unique_id] adds one to the counter, with or without
    a prefix, and identifiers asked for with the same prefix (or with none)
    are pairwise distinct, however many are asked for. *)
Theorem unique_id_distinct_for_a_prefix (prefix : pyval) (n : nat) (c : Z) :
  NoDup (unique_ids to_string (replicate n prefix) c).1 ∧
  ∀ prefixes, (unique_ids to_string prefixes c).2
              = (c + Z.of_nat (length prefixes))%Z.
Proof.
  split; [|intros; apply unique_ids_counter].
  revert c. induction n as [|n IH]; intros c; [constructor|].
  cbn [replicate unique_ids]. unfold unique_id at 1.
  pose proof (unique_ids_above prefix n (c + 1)) as Habove.
  specialize (IH (c + 1)%Z).
  destruct (unique_ids to_string (replicate n prefix) (c + 1)) as [ids c2].
  cbn [fst] in *. constructor; [|done].
  intros Hin. destruct (Habove _ Hin) as (k & Hk & Heq).
  unfold unique_id in Heq. cbn [fst] in Heq.
  apply (inj (String.app _)) in Heq. apply (inj pretty) in Heq. lia.
Qed.
End unique_id_properties.


(** ** Ranges *)

Lemma gen_loop_length (n : nat) (start step : Z) :
  length (gen_loop n start step) = n.
Proof. revert start. induction n as [|n IH]; intros start; cbn; [done|by rewrite IH]. Qed.

Lemma gen_loop_lookup (n : nat) (start step : Z) (i : nat) :
  i < n → gen_loop n start step !! i = Some (start + Z.of_nat i * step)%Z.
Proof.
  revert start i. induction n as [|n IH]; intros start i Hi; [lia|].
  destruct i as [|i]; cbn.
  - f_equal. lia.
  - rewrite IH by lia. f_equal. lia.
Qed.

Lemma gen_loop_snoc (n : nat) (start step : Z) :
  gen_loop (S n) start step
  = gen_loop n start step ++ [(start + Z.of_nat n * step)%Z].
Proof.
  revert start. induction n as [|n IH]; intros start.
  - cbn. do 2 f_equal. lia.
  - change (gen_loop (S (S n)) start step)
      with (start :: gen_loop (S n) (start + step)%Z step).
    rewrite IH. cbn. do 3 f_equal. lia.
Qed.

Lemma gen_loop_reverse (n : nat) (start step : Z) :
  gen_loop n (start + (step * Z.of_nat n - step))%Z (step * -1)%Z
  = reverse (gen_loop n start step).
Proof.
  induction n as [|n IH]; [done|].
  rewrite (gen_loop_snoc n start step), reverse_snoc.
  cbn [gen_loop]. f_equal; [lia|].
  rewrite <-IH. f_equal. lia.
Qed.

Lemma ceil_of_quotient_spec (p q c : Z) :
  q ≠ 0%Z → ceil_of_quotient p q = Some c →
  if (0 <? q)%Z then ((c - 1) * q < p ≤ c * q)%Z else (c * q ≤ p < (c - 1) * q)%Z.
Proof.
  intros Hq. unfold ceil_of_quotient.
  destruct (_ && _); [|done]. intros [= <-].
  destruct (0 <? q)%Z eqn:Hs.
  - apply Z.ltb_lt in Hs.
    pose proof (Z.mul_div_le (- p) q Hs).
    pose proof (Z.mul_succ_div_gt (- p) q Hs). nia.
  - apply Z.ltb_ge in Hs. assert (q < 0)%Z as Hneg by lia.
    pose proof (Z.mul_div_ge (- p) q Hneg).
    pose proof (Z.mul_succ_div_lt (- p) q Hneg). nia.
Qed.


Lemma ceil_of_quotient_Some (p q : Z) :
  (Z.abs p < 2 ^ 52)%Z → (Z.abs q < 2 ^ 52)%Z →
  ceil_of_quotient p q = Some (- ((- p) / q))%Z.
Proof.
  intros Hp Hq. unfold ceil_of_quotient.
  apply Z.ltb_lt in Hp, Hq. by rewrite Hp, Hq.
Qed.

Lemma ceil_by_minus_1 (p : Z) : (- (- p / -1))%Z = (- p)%Z.
Proof.
  change (-1)%Z with (- (1))%Z. rewrite Z.div_opp_opp by done.
  by rewrite Z.div_1_r.
Qed.

(** X20: when [|stop - start|] and [|step|] are below [2^52], where the
    quotient the code takes in floating point is exact, [range_(start, stop,
    step)] with a step that is not 0 yields [start], [start + step],
    [start + 2 * step], ... as long as the value is before [stop]: below it
    for a positive step, above it for a negative one.  [stop] itself is never
    yielded. *)
Theorem range_yields_the_progression_before_stop (start stop step : Z) :
  step ≠ 0%Z →
  (Z.abs (stop - start) < 2 ^ 52)%Z → (Z.abs step < 2 ^ 52)%Z →
  ∃ l, range_ [Some start; Some stop; Some step] = Ok (Some l) ∧
       ∀ (i : nat) (x : Z),
         l !! i = Some x ↔
         x = (start + Z.of_nat i * step)%Z ∧
         if (0 <? step)%Z then (x < stop)%Z else (stop < x)%Z.
Proof.
  intros Hstep Hp Hq. unfold range_, base_range, gen.
  assert ((step =? 0)%Z = false) as -> by by apply Z.eqb_neq.
  destruct (ceil_of_quotient (stop - start) step) as [c|] eqn:Hc;
    [|by rewrite ceil_of_quotient_Some in Hc].
  eexists. split; [done|]. intros i x.
  pose proof (ceil_of_quotient_spec _ _ _ Hstep Hc) as Hspec.
  split.
  - intros Hi.
    assert (i < Z.to_nat (Z.max c 0)) as Hlt.
    { apply lookup_lt_Some in Hi. by rewrite gen_loop_length in Hi. }
    rewrite gen_loop_lookup in Hi by done. injection Hi as <-.
    split; [done|]. destruct (0 <? step)%Z eqn:Hs.
    + apply Z.ltb_lt in Hs. nia.
    + apply Z.ltb_ge in Hs. nia.
  - intros [-> Hx]. apply gen_loop_lookup.
    destruct (0 <? step)%Z eqn:Hs.
    + apply Z.ltb_lt in Hs. nia.
    + apply Z.ltb_ge in Hs. nia.
Qed.


(** The default step and the step 0. *)
Lemma range_step_edge_cases (start stop : Z) :
  (Z.abs (stop - start) < 2 ^ 52)%Z →
  range_ [Some start; Some stop]
  = Ok (Some ((λ i, if (start <? stop)%Z then (start + i)%Z else (start - i)%Z)
                <$> seqZ 0 (Z.abs (stop - start)))) ∧
  range_ [Some start; Some stop; Some 0%Z]
  = Ok (Some (replicate (Z.to_nat (stop - start)) start)).
Proof.
  intros Hp. unfold range_, base_range, gen. split.
  - assert ((if (start <? stop)%Z then 1 else -1)%Z ≠ 0%Z) as Hne
      by by destruct (start <? stop)%Z.
    apply Z.eqb_neq in Hne. rewrite Hne.
    rewrite ceil_of_quotient_Some; [|done|by destruct (start <? stop)%Z].
    do 2 f_equal. apply list_eq. intros i.
    rewrite list_lookup_fmap.
    destruct (decide (Z.of_nat i < Z.abs (stop - start))%Z) as [Hi|Hi].
    + rewrite lookup_seqZ_lt by done. cbn.
      destruct (start <? stop)%Z eqn:Hs.
      * apply Z.ltb_lt in Hs. rewrite Z.div_1_r.
        rewrite gen_loop_lookup by lia. f_equal. lia.
      * apply Z.ltb_ge in Hs.
        rewrite ceil_by_minus_1.
        rewrite gen_loop_lookup by lia. f_equal. lia.
    + rewrite lookup_seqZ_ge by lia. cbn.
      apply lookup_ge_None. rewrite gen_loop_length.
      destruct (start <? stop)%Z eqn:Hs.
      * apply Z.ltb_lt in Hs. rewrite Z.div_1_r. lia.
      * apply Z.ltb_ge in Hs.
        rewrite ceil_by_minus_1.
        lia.
  - cbn [Z.eqb]. rewrite ceil_of_quotient_Some by done.
    rewrite Z.div_1_r. do 2 f_equal.
    replace (Z.max (- - (stop - start)) 0) with (Z.max (stop - start) 0) by lia.
    replace (Z.to_nat (Z.max (stop - start) 0)) with (Z.to_nat (stop - start)) by lia.
    generalize (Z.to_nat (stop - start)). intros n.
    induction n as [|n IH]; [done|]. cbn. f_equal.
    by rewrite Z.add_0_r.
Qed.

(** X22: the two edge cases of the step, when [|stop - start|] is below
    [2^52].  Without a step, the range runs
    from [start] towards [stop] by ones, upwards or downwards, and has
    [|stop - start|] values; with the step 0 it repeats [start],
    [stop - start] times, where the built-in [range] would raise. *)
Theorem range_without_step_and_with_step_zero (start stop : Z) :
  (Z.abs (stop - start) < 2 ^ 52)%Z →
  range_ [Some start; Some stop]
  = Ok (Some ((λ i, if (start <? stop)%Z then (start + i)%Z else (start - i)%Z)
                <$> seqZ 0 (Z.abs (stop - start)))) ∧
  range_ [Some start; Some stop; Some 0%Z]
  = Ok (Some (replicate (Z.to_nat (stop - start)) start)).
Proof. apply range_step_edge_cases. Qed.

Lemma range_yields_the_progression_before_stop_witness :
  ∃ l, range_ [Some 0%Z; Some 6%Z; Some 2%Z] = Ok (Some l) ∧
       l !! 2 = Some 4%Z ∧ l !! 3 = None.
Proof.
  destruct (range_yields_the_progression_before_stop 0 6 2) as (l & Hl & Hi);
    [done|done|done|].
  exists l. split; [exact Hl|]. split.
  - apply Hi. split; reflexivity.
  - destruct (l !! 3) as [x|] eqn:Hx; [|done].
    apply Hi in Hx as [-> Hx]. by vm_compute in Hx.
Defined.

Lemma range_without_step_and_with_step_zero_witness :
  range_ [Some 4%Z; Some 6%Z] = Ok (Some [4; 5]%Z) ∧
  range_ [Some 4%Z; Some 6%Z; Some 0%Z] = Ok (Some [4; 4]%Z).
Proof.
  assert (Z.abs (6 - 4) < 2 ^ 52)%Z as Hp by reflexivity.
  exact (range_without_step_and_with_step_zero 4 6 Hp).
Defined.


(** ** [times] *)

Section times_properties.
Context {W : Type}.

Lemma times_loop_length (iteratee : @index_iteratee W) (indexes : list Z)
    (w w' : W) (vs : list pyval) :
  times_loop iteratee indexes w = (Ok vs, w') → length vs = length indexes.
Proof.
  revert w vs. induction indexes as [|i tl IH]; intros w vs.
  - by intros [= <- <-].
  - cbn [times_loop]. destruct (iteratee i w) as [[v|e] w1]; [|done].
    destruct (times_loop iteratee tl w1) as [[vs1|e] w2] eqn:Htl; [|done].
    intros [= <- <-]. cbn. f_equal. by eapply IH.
Qed.

Lemma times_loop_pure (g : Z → pyval) (indexes : list Z) (w : W) :
  times_loop (λ i w, (Ok (g i), w)) indexes w = (Ok (g <$> indexes), w).
Proof.
  induction indexes as [|i tl IH]; [done|]. cbn [times_loop]. by rewrite IH.
Qed.

Lemma times_loop_app (iteratee : @index_iteratee W) (l1 l2 : list Z) (w : W) :
  times_loop iteratee (l1 ++ l2) w =
    match times_loop iteratee l1 w with
    | (Ok vs1, w1) =>
        match times_loop iteratee l2 w1 with
        | (Ok vs2, w2) => (Ok (vs1 ++ vs2), w2)
        | (Raise e, w2) => (Raise e, w2)
        end
    | (Raise e, w1) => (Raise e, w1)
    end.
Proof.
  revert w. induction l1 as [|i l1 IH]; intros w.
  - cbn. by destruct (times_loop iteratee l2 w) as [[?|?] ?].
  - cbn [app times_loop]. destruct (iteratee i w) as [[v|e] w1]; [|done].
    rewrite IH. destruct (times_loop iteratee l1 w1) as [[vs1|e] w2]; [|done].
    by destruct (times_loop iteratee l2 w2) as [[?|?] ?].
Qed.

(** X23: [times(n)] without an iteratee is the list of the integers from 0
    up to [n - 1], which for [0 <= n < 2^52] is what [range_(n)] yields.
    When [n] is not positive, [times(n)] calls nothing and returns the empty
    list.  With an iteratee, a call that returns gives [n] results (none
    when [n] is not positive), and the call for the index [n] comes after
    all the calls of [times(n)]: an exception among the first [n] calls ends
    [times(n + 1)] in the same way. *)
Theorem times_calls_the_iteratee_on_each_index (n : Z)
    (iteratee : option (@index_iteratee W)) (w : W) :
  (times n None w = (Ok (VInt <$> seqZ 0 n), w) ∧
   ((0 <= n < 2 ^ 52)%Z → range_ [Some n] = Ok (Some (seqZ 0 n)))) ∧
  ((n <= 0)%Z → times n iteratee w = (Ok [], w)) ∧
  (∀ vs w', times n iteratee w = (Ok vs, w') → length vs = Z.to_nat n) ∧
  ((0 <= n)%Z →
   times (n + 1) iteratee w =
     match times n iteratee w with
     | (Ok vs, w1) =>
         match default identity_iteratee iteratee n w1 with
         | (Ok v, w2) => (Ok (vs ++ [v]), w2)
         | (Raise e, w2) => (Raise e, w2)
         end
     | (Raise e, w1) => (Raise e, w1)
     end).
Proof.
  split; [split|split; [|split]].
  - unfold times, identity_iteratee. apply times_loop_pure.
  - intros Hn.
    destruct (range_step_edge_cases 0 n) as [H _]; [lia|].
    rewrite Z.sub_0_r, Z.abs_eq in H by lia.
    unfold range_, base_range in *. rewrite H. do 2 f_equal.
    apply list_eq. intros i. rewrite list_lookup_fmap.
    destruct (seqZ 0 n !! i) as [x|] eqn:Hx; [|done]. cbn.
    apply lookup_seqZ in Hx as [-> Hx].
    assert ((0 <? n)%Z = true) as -> by (apply Z.ltb_lt; lia). done.
  - intros Hn. unfold times.
    assert (seqZ 0 n = []) as ->; [|done].
    apply length_zero_iff_nil. rewrite length_seqZ. lia.
  - intros vs w' H. unfold times in H.
    apply times_loop_length in H. by rewrite H, length_seqZ.
  - intros Hn. unfold times.
    replace (seqZ 0 (n + 1)) with (seqZ 0 n ++ [n])
      by (rewrite seqZ_app by lia; cbn; do 2 f_equal; lia).
    rewrite times_loop_app.
    destruct iteratee as [f|]; cbn [default times_loop];
      destruct (times_loop _ (seqZ 0 n) w) as [[vs|e] w1]; try done.
    unfold id. by destruct (f n w1) as [[?|?] ?].
Qed.
End times_properties.
